(** * ReconnectingWebSocket: the reconnect state machine of
      [reconnecting-websocket.js], embedded and verified.

    The constructor [ReconnectingWebSocket(url, protocols)] closes over a few
    mutable locals ([retries], [ws], [forcedClose], [timedOut]) and, per call
    of [connect], over [reconnectAttempt], [localWs] and [timeout].  The
    embedding keeps the public fields of [this], the closure variables and the
    host objects the code talks to (the WebSocket objects it created, the
    timers it armed, the [$timeout] queue) in one record and passes it
    explicitly.  JavaScript numbers are IEEE 754 binary64 values.  The counter
    [retries] alone is kept as a natural number: the code's counter is exact
    below [2^53] ([counter_is_exact]), and [Math.pow(2, N)] is Infinity from
    [N = 1024] on.  [dbg] only logs to the console and is left out. *)

From Stdlib Require Import QArith Qminmax Qpower Qround Lqa Lia Ascii.
From Stdlib Require Import PrimFloat FloatOps SpecFloat.
From stdpp Require Import base decidable option list strings.

Local Open Scope nat_scope.

(** ** JavaScript numbers

    A number is an IEEE 754 binary64 value: not-a-number, an infinity, a
    signed zero, or a finite value, kept as the rational it denotes.  Every
    arithmetic operation rounds its exact result to the nearest binary64
    value, ties to the even significand. *)

Inductive Num :=
| NaN
| Inf (neg : bool)
| Zero (neg : bool)
| Fin (q : Q).

(** [floor (log2 q)] for a positive [q]. *)
Definition ilog2 (q : Q) : Z :=
  let l := (Z.log2 (Qnum q) - Z.log2 (Zpos (Qden q)))%Z in
  if Qle_bool (2 ^ l) q then l else (l - 1)%Z.

(** The exponent of the last place of the binary64 values around [q]: 52
    places below the leading bit, and never below the subnormal [2^-1074]. *)
Definition ulp_exp (q : Q) : Z := Z.max (ilog2 q - 52) (-1074).

(** The nearest integer, ties to even. *)
Definition rne (y : Q) : Z :=
  let f := Qfloor y in
  match (y - inject_Z f ?= 1 # 2)%Q with
  | Lt => f
  | Eq => if Z.even f then f else (f + 1)%Z
  | Gt => (f + 1)%Z
  end.

(** The nearest multiple of the last place, for a positive [q]. *)
Definition nearest (q : Q) : Q :=
  (inject_Z (rne (q / 2 ^ ulp_exp q)) * 2 ^ ulp_exp q)%Q.

(** A positive magnitude [r] on the binary64 grid, as a number of sign [neg]:
    Infinity from [2^1024] on. *)
Definition pack (neg : bool) (r : Q) : Num :=
  if Qle_bool (2 ^ 1024) r then Inf neg
  else if Qeq_bool r 0 then Zero neg
  else Fin (Qred (if neg then - r else r)).

(** The binary64 value of an exact result [q]. *)
Definition round (q : Q) : Num :=
  match (q ?= 0)%Q with
  | Eq => Zero false
  | Gt => pack false (nearest q)
  | Lt => pack true (nearest (- q))
  end.

Definition sign (x : Num) : bool :=
  match x with
  | NaN => false
  | Inf s | Zero s => s
  | Fin q => negb (Qle_bool 0 q)
  end.

(** [x * y]. *)
Definition mul (x y : Num) : Num :=
  match x, y with
  | NaN, _ | _, NaN => NaN
  | Inf _, Zero _ | Zero _, Inf _ => NaN
  | Inf s, _ | _, Inf s => Inf (xorb (sign x) (sign y))
  | Zero _, _ | _, Zero _ => Zero (xorb (sign x) (sign y))
  | Fin a, Fin b => round (a * b)
  end.

(** [x + y]. *)
Definition add (x y : Num) : Num :=
  match x, y with
  | NaN, _ | _, NaN => NaN
  | Inf s, Inf t => if Bool.eqb s t then Inf s else NaN
  | Inf s, _ | _, Inf s => Inf s
  | Zero s, Zero t => Zero (s && t)
  | Zero _, Fin b => Fin b
  | Fin a, Zero _ => Fin a
  | Fin a, Fin b => round (a + b)
  end.

(** The value of a finite number. *)
Definition val (x : Num) : Q :=
  match x with
  | Fin q => q
  | _ => 0
  end.

(** [x <= y] and [x < y]: false as soon as one side is NaN; the two zeros
    are equal. *)
Definition leb (x y : Num) : bool :=
  match x, y with
  | NaN, _ | _, NaN => false
  | Inf true, _ => true
  | _, Inf false => true
  | Inf false, _ => false
  | _, Inf true => false
  | _, _ => Qle_bool (val x) (val y)
  end.

Definition ltb (x y : Num) : bool :=
  match x, y with
  | NaN, _ | _, NaN => false
  | _, _ => negb (leb y x)
  end.

(** [Math.min(x, y)]: NaN if either is; [-0] counts as below [+0]. *)
Definition Math_min (x y : Num) : Num :=
  match x, y with
  | NaN, _ | _, NaN => NaN
  | Zero s, Zero t => Zero (s || t)
  | _, _ => if leb x y then x else y
  end.

(** [Math.pow(F, N)] for a natural number [N], by repeated multiplication;
    the code's base 2 makes every step exact up to the overflow to
    Infinity at [2^1024]. *)
Fixpoint Math_pow (F : Num) (N : nat) : Num :=
  match N with
  | O => Fin 1
  | S n => mul (Math_pow F n) F
  end.

(** The number a natural number denotes. *)
Definition num_of_nat (n : nat) : Num := round (inject_Z (Z.of_nat n)).

(** A finite number is a binary64 value when rounding leaves it alone. *)
Definition is_double (x : Num) : bool :=
  match x with
  | Fin q =>
      match round q with
      | Fin q' => Qeq_bool q' q
      | _ => false
      end
  | _ => true
  end.

(** A number other than NaN and the two zeros: what [if (x)] tests. *)
Definition is_nonzero (x : Num) : bool :=
  match x with
  | NaN | Zero _ => false
  | _ => true
  end.

(** A number above zero: positive and finite, or [+Infinity]. *)
Definition posn (x : Num) : Prop :=
  match x with
  | Fin q => (0 < q)%Q
  | Inf false => True
  | _ => False
  end.

(** A positive binary64 value, as a rational. *)
Definition dbl (t : Q) : Prop :=
  (0 < t)%Q /\ (nearest t == t)%Q /\ (t < 2 ^ 1024)%Q.

(** The number a primitive floating-point number of the kernel denotes, to
    compare the operations above with the kernel's. *)
Definition of_float (f : float) : Num :=
  match Prim2SF f with
  | S754_zero s => Zero s
  | S754_infinity s => Inf s
  | S754_nan => NaN
  | S754_finite s m e =>
      Fin (Qred ((if s then -1 else 1) * inject_Z (Zpos m) * 2 ^ e))
  end.

Definition same_num (x y : Num) : bool :=
  match x, y with
  | NaN, NaN => true
  | Inf s, Inf t | Zero s, Zero t => Bool.eqb s t
  | Fin p, Fin q => Z.eqb (Qnum p) (Qnum q) && Pos.eqb (Qden p) (Qden q)
  | _, _ => false
  end.

Definition agree_mul (a b : float) : bool :=
  same_num (of_float (a * b)%float) (mul (of_float a) (of_float b)).

Definition agree_add (a b : float) : bool :=
  same_num (of_float (a + b)%float) (add (of_float a) (of_float b)).

Definition agree_leb (a b : float) : bool :=
  Bool.eqb (a <=? b)%float (leb (of_float a) (of_float b)).

Definition samples : list float :=
  [0; 1; 0x1.999999999999ap-4; 5000; 0x1p-1074; 0x1.fffffffffffffp-1;
   0x1.0000000000001p0;
   0x1.8p-1074; 0x1.fffffffffffffp1023; 0x1.8p-538; -3.5; infinity; nan]%float.

Definition all_pairs {A} (f : A -> A -> bool) (l : list A) : bool :=
  forallb (fun a => forallb (f a) l) l.

(** [R * T * Math.pow(2, n)], as the code evaluates it. *)
Definition backoff_term (R T : Num) (n : nat) : Num :=
  mul (mul R T) (Math_pow (Fin 2) n).

(** What [Math.random()] may return: a number in [[0, 1)]. *)
Definition draw_ok (u : Num) : Prop :=
  leb (Zero false) u = true /\ ltb u (Fin 1) = true.

(** ** JavaScript values that reach the code *)

Inductive JsVal :=
| JUndefined
| JBool (b : bool)
| JNum (x : Num)
| JStr (str : string)
| JEvent (data : string).

(** What [if (v)] and [v || w] test. *)
Definition truthy (v : JsVal) : bool :=
  match v with
  | JUndefined => false
  | JBool b => b
  | JNum x => is_nonzero x
  | JStr str => negb (String.eqb str "")
  | JEvent _ => true
  end.

Inductive JsError :=
| TypeError
| InvalidStateError
| Error (msg : string).

(** ** The host's WebSocket, as far as the code uses it *)

Inductive ReadyState := CONNECTING | OPEN | CLOSING | CLOSED.

#[global] Instance ReadyState_eq_dec : EqDecision ReadyState.
Proof. solve_decision. Defined.

(** One call of [connect]: the socket it made ([localWs]) and the two other
    locals its handlers close over. *)
Record Attempt := mkAttempt {
  sock : ReadyState;
  reconnectAttempt : JsVal;
  timeout : option Num
}.

(** ** Callback slots and their invocations *)

Inductive Callback :=
| onopen | onclose | onconnecting | onmessage | onerror | onreconnect.

#[global] Instance Callback_eq_dec : EqDecision Callback.
Proof. solve_decision. Defined.

(** A slot holds the constructor's [function() { }] or whatever the caller
    assigned; the caller's functions are opaque. *)
Inductive Handler := noop | caller_fn (name : nat).

Inductive Via := Direct | Deferred.

Record Invocation := mkInvocation {
  inv_cb : Callback;
  inv_args : list JsVal;
  inv_via : Via;
  inv_handler : Handler
}.

(** The six function literals handed to [$timeout]. *)
Inductive Thunk :=
| call_onopen (ev : JsVal)
| call_onconnecting
| call_onclose (ev : JsVal)
| call_onreconnect
| call_onmessage (ev : JsVal)
| call_onerror (ev : JsVal).

Definition thunk_cb (t : Thunk) : Callback :=
  match t with
  | call_onopen _ => onopen
  | call_onconnecting => onconnecting
  | call_onclose _ => onclose
  | call_onreconnect => onreconnect
  | call_onmessage _ => onmessage
  | call_onerror _ => onerror
  end.

(** ** The instance *)

Record State := mkState {
  (* fields of [this] *)
  timeoutInterval : Num;
  reconnectInterval : Num;
  initialReconnectInterval : Num;
  maxReconnectInterval : Num;
  url : string;
  protocols : list string;
  readyState : ReadyState;
  handlers : Callback -> Handler;
  (* closure variables of the constructor *)
  retries : nat;
  ws : option nat;
  forcedClose : bool;
  timedOut : bool;
  (* host objects *)
  sockets : list Attempt;
  retry_timers : list Num;
  deferred : list Thunk;
  invoked : list Invocation;
  wire : list (nat * string)
}.

Definition set_timeoutInterval (v : Num) (s : State) : State :=
  mkState v (reconnectInterval s) (initialReconnectInterval s)
    (maxReconnectInterval s) (url s) (protocols s) (readyState s) (handlers s)
    (retries s) (ws s) (forcedClose s) (timedOut s)
    (sockets s) (retry_timers s) (deferred s) (invoked s) (wire s).

Definition set_reconnectInterval (v : Num) (s : State) : State :=
  mkState (timeoutInterval s) v (initialReconnectInterval s)
    (maxReconnectInterval s) (url s) (protocols s) (readyState s) (handlers s)
    (retries s) (ws s) (forcedClose s) (timedOut s)
    (sockets s) (retry_timers s) (deferred s) (invoked s) (wire s).

Definition set_initialReconnectInterval (v : Num) (s : State) : State :=
  mkState (timeoutInterval s) (reconnectInterval s) v
    (maxReconnectInterval s) (url s) (protocols s) (readyState s) (handlers s)
    (retries s) (ws s) (forcedClose s) (timedOut s)
    (sockets s) (retry_timers s) (deferred s) (invoked s) (wire s).

Definition set_maxReconnectInterval (v : Num) (s : State) : State :=
  mkState (timeoutInterval s) (reconnectInterval s) (initialReconnectInterval s)
    v (url s) (protocols s) (readyState s) (handlers s)
    (retries s) (ws s) (forcedClose s) (timedOut s)
    (sockets s) (retry_timers s) (deferred s) (invoked s) (wire s).

Definition set_readyState (v : ReadyState) (s : State) : State :=
  mkState (timeoutInterval s) (reconnectInterval s) (initialReconnectInterval s)
    (maxReconnectInterval s) (url s) (protocols s) v (handlers s)
    (retries s) (ws s) (forcedClose s) (timedOut s)
    (sockets s) (retry_timers s) (deferred s) (invoked s) (wire s).

Definition set_handlers (v : Callback -> Handler) (s : State) : State :=
  mkState (timeoutInterval s) (reconnectInterval s) (initialReconnectInterval s)
    (maxReconnectInterval s) (url s) (protocols s) (readyState s) v
    (retries s) (ws s) (forcedClose s) (timedOut s)
    (sockets s) (retry_timers s) (deferred s) (invoked s) (wire s).

Definition set_retries (v : nat) (s : State) : State :=
  mkState (timeoutInterval s) (reconnectInterval s) (initialReconnectInterval s)
    (maxReconnectInterval s) (url s) (protocols s) (readyState s) (handlers s)
    v (ws s) (forcedClose s) (timedOut s)
    (sockets s) (retry_timers s) (deferred s) (invoked s) (wire s).

Definition set_ws (v : option nat) (s : State) : State :=
  mkState (timeoutInterval s) (reconnectInterval s) (initialReconnectInterval s)
    (maxReconnectInterval s) (url s) (protocols s) (readyState s) (handlers s)
    (retries s) v (forcedClose s) (timedOut s)
    (sockets s) (retry_timers s) (deferred s) (invoked s) (wire s).

Definition set_forcedClose (v : bool) (s : State) : State :=
  mkState (timeoutInterval s) (reconnectInterval s) (initialReconnectInterval s)
    (maxReconnectInterval s) (url s) (protocols s) (readyState s) (handlers s)
    (retries s) (ws s) v (timedOut s)
    (sockets s) (retry_timers s) (deferred s) (invoked s) (wire s).

Definition set_timedOut (v : bool) (s : State) : State :=
  mkState (timeoutInterval s) (reconnectInterval s) (initialReconnectInterval s)
    (maxReconnectInterval s) (url s) (protocols s) (readyState s) (handlers s)
    (retries s) (ws s) (forcedClose s) v
    (sockets s) (retry_timers s) (deferred s) (invoked s) (wire s).

Definition set_sockets (v : list Attempt) (s : State) : State :=
  mkState (timeoutInterval s) (reconnectInterval s) (initialReconnectInterval s)
    (maxReconnectInterval s) (url s) (protocols s) (readyState s) (handlers s)
    (retries s) (ws s) (forcedClose s) (timedOut s)
    v (retry_timers s) (deferred s) (invoked s) (wire s).

Definition set_retry_timers (v : list Num) (s : State) : State :=
  mkState (timeoutInterval s) (reconnectInterval s) (initialReconnectInterval s)
    (maxReconnectInterval s) (url s) (protocols s) (readyState s) (handlers s)
    (retries s) (ws s) (forcedClose s) (timedOut s)
    (sockets s) v (deferred s) (invoked s) (wire s).

Definition set_deferred (v : list Thunk) (s : State) : State :=
  mkState (timeoutInterval s) (reconnectInterval s) (initialReconnectInterval s)
    (maxReconnectInterval s) (url s) (protocols s) (readyState s) (handlers s)
    (retries s) (ws s) (forcedClose s) (timedOut s)
    (sockets s) (retry_timers s) v (invoked s) (wire s).

Definition set_invoked (v : list Invocation) (s : State) : State :=
  mkState (timeoutInterval s) (reconnectInterval s) (initialReconnectInterval s)
    (maxReconnectInterval s) (url s) (protocols s) (readyState s) (handlers s)
    (retries s) (ws s) (forcedClose s) (timedOut s)
    (sockets s) (retry_timers s) (deferred s) v (wire s).

Definition set_wire (v : list (nat * string)) (s : State) : State :=
  mkState (timeoutInterval s) (reconnectInterval s) (initialReconnectInterval s)
    (maxReconnectInterval s) (url s) (protocols s) (readyState s) (handlers s)
    (retries s) (ws s) (forcedClose s) (timedOut s)
    (sockets s) (retry_timers s) (deferred s) (invoked s) v.

(** What a call does: return a value or throw, both with the state left
    behind. *)
Inductive Outcome :=
| Return (v : JsVal) (s : State)
| Throw (e : JsError) (s : State).

Definition state_of (o : Outcome) : State :=
  match o with Return _ s => s | Throw _ s => s end.

(** ** Host primitives *)

(** [ws.readyState] of socket [j]. *)
Definition sock_state (j : nat) (s : State) : ReadyState :=
  default CLOSED (sock <$> sockets s !! j).

Definition set_sock (j : nat) (r : ReadyState) (s : State) : State :=
  set_sockets
    (alter (fun a => mkAttempt r (reconnectAttempt a) (timeout a)) j (sockets s)) s.

(** [WebSocket.prototype.close]: starts the closing handshake; the close
    event comes later, as an event of its own. *)
Definition sock_close (j : nat) (s : State) : State :=
  match sock_state j s with
  | CONNECTING | OPEN => set_sock j CLOSING s
  | CLOSING | CLOSED => s
  end.

(** [WebSocket.prototype.send]: refuses a socket that is still connecting,
    transmits on an open one and drops the data on a closing or closed one. *)
Definition sock_send (j : nat) (data : string) (s : State) : Outcome :=
  match sock_state j s with
  | CONNECTING => Throw InvalidStateError s
  | OPEN => Return JUndefined (set_wire (wire s ++ [(j, data)]) s)
  | CLOSING | CLOSED => Return JUndefined s
  end.

(** [clearTimeout(timeout)] in the closure of attempt [i]. *)
Definition clearTimeout (i : nat) (s : State) : State :=
  set_sockets
    (alter (fun a => mkAttempt (sock a) (reconnectAttempt a) None) i (sockets s)) s.

(** [reconnectAttempt = v] in the closure of attempt [i]. *)
Definition set_reconnectAttempt (i : nat) (v : JsVal) (s : State) : State :=
  set_sockets
    (alter (fun a => mkAttempt (sock a) v (timeout a)) i (sockets s)) s.

Definition get_reconnectAttempt (i : nat) (s : State) : JsVal :=
  default JUndefined (reconnectAttempt <$> sockets s !! i).

(** [self.<cb>(args)] called on the spot. *)
Definition invoke (via : Via) (cb : Callback) (args : list JsVal) (s : State)
  : State :=
  set_invoked (invoked s ++ [mkInvocation cb args via (handlers s cb)]) s.

(** [$timeout(function(){ ... })]. *)
Definition defer (t : Thunk) (s : State) : State :=
  set_deferred (deferred s ++ [t]) s.

(** The body of a deferred function, run by the host later: slots and
    variables are read then. *)
Definition run_thunk (t : Thunk) (s : State) : State :=
  match t with
  | call_onopen ev => invoke Deferred onopen [ev] s
  | call_onconnecting => invoke Deferred onconnecting [] s
  | call_onclose ev => invoke Deferred onclose [ev] s
  | call_onreconnect =>
      invoke Deferred onreconnect
        [JNum (num_of_nat (retries s + 1)); JNum (reconnectInterval s)] s
  | call_onmessage ev => invoke Deferred onmessage [ev] s
  | call_onerror ev => invoke Deferred onerror [ev] s
  end.

(** ** The code *)

Definition resetReconnectInterval (s : State) : State :=
  set_reconnectInterval (initialReconnectInterval s) (set_retries 0 s).

(** [u] is what [Math.random()] returns. *)
Definition updateReconnectInterval (u : Num) (s : State) : State :=
  let R := add u (Fin 1) in
  let T := initialReconnectInterval s in
  let F := Fin 2 in
  let N := retries s in
  let M := maxReconnectInterval s in
  let s := set_reconnectInterval (Math_min (mul (mul R T) (Math_pow F N)) M) s in
  set_retries (retries s + 1) s.

Definition connect (reconnectAttempt : JsVal) (s : State) : State :=
  let i := length (sockets s) in
  (* ws = new WebSocket(url, protocols), and the timeout armed below *)
  let s := set_sockets
             (sockets s ++ [mkAttempt CONNECTING reconnectAttempt
                              (Some (timeoutInterval s))]) s in
  let s := set_ws (Some i) s in
  let s := set_readyState (sock_state i s) s in
  invoke Direct onconnecting [] s.

(** The function armed by [setTimeout(..., self.timeoutInterval)]. *)
Definition timeout_cb (i : nat) (s : State) : State :=
  let s := set_timedOut true s in
  let s := sock_close i s in
  set_timedOut false s.

Definition ws_onopen (i : nat) (ev : JsVal) (s : State) : Outcome :=
  match ws s with
  | None => Throw TypeError s
  | Some j =>
      let s := set_readyState (sock_state j s) s in
      let s := clearTimeout i s in
      let s := resetReconnectInterval s in
      let s := set_reconnectAttempt i (JBool false) s in
      Return JUndefined (defer (call_onopen ev) s)
  end.

Definition ws_onclose (i : nat) (ev : JsVal) (s : State) : Outcome :=
  match ws s with
  | None => Throw TypeError s
  | Some j =>
      let s := set_readyState (sock_state j s) s in
      let s := clearTimeout i s in
      let s := set_ws None s in
      if forcedClose s then
        Return JUndefined (invoke Direct onclose [ev] s)
      else
        let s := set_readyState CONNECTING s in
        let s := defer call_onconnecting s in
        let s := if negb (truthy (get_reconnectAttempt i s) || timedOut s)
                 then defer (call_onclose ev) s else s in
        let s := defer call_onreconnect s in
        Return JUndefined
          (set_retry_timers (retry_timers s ++ [reconnectInterval s]) s)
  end.

(** The function armed by [setTimeout(..., self.reconnectInterval)]. *)
Definition retry_cb (u : Num) (s : State) : State :=
  updateReconnectInterval u (connect (JBool true) s).

Definition ws_onmessage (ev : JsVal) (s : State) : Outcome :=
  Return JUndefined (defer (call_onmessage ev) s).

Definition ws_onerror (ev : JsVal) (s : State) : Outcome :=
  Return JUndefined (defer (call_onerror ev) s).

Definition send (data : string) (s : State) : Outcome :=
  match ws s with
  | Some j => sock_send j data s
  | None => Throw (Error "INVALID_STATE_ERR : Pausing to reconnect websocket") s
  end.

Definition close (s : State) : State :=
  match ws s with
  | Some j => sock_close j (set_forcedClose true s)
  | None => s
  end.

Definition refresh (s : State) : State :=
  match ws s with
  | Some j => sock_close j s
  | None => s
  end.

(** [new ReconnectingWebSocket(url, protocols)]. *)
Definition ReconnectingWebSocket (url : string) (protocols : option (list string))
  : State :=
  let s := mkState (Fin 2000) (Fin 5000) (Fin 5000)
             (mul (mul (Fin 5) (Fin 60)) (Fin 1000)) url (default [] protocols)
             CONNECTING (fun _ => noop) 0 None false false [] [] [] [] [] in
  connect (JStr url) s.

(** ** Events

    Everything that can happen to an instance: the host fires an event of a
    socket or a timer, runs a deferred function, or the caller uses the public
    surface.  [RetryFire u] carries the value [Math.random()] returns in that
    callback. *)

Inductive Tunable :=
| f_timeoutInterval | f_reconnectInterval
| f_initialReconnectInterval | f_maxReconnectInterval.

Inductive Event :=
| WsOpen (i : nat) (ev : JsVal)
| WsClose (i : nat) (ev : JsVal)
| WsMessage (i : nat) (ev : JsVal)
| WsError (i : nat) (ev : JsVal)
| TimeoutFire (i : nat)
| RetryFire (u : Num)
| HostTick
| CallSend (data : string)
| CallClose
| CallRefresh
| SetHandler (cb : Callback) (h : Handler)
| SetTunable (f : Tunable) (v : Num).

Definition set_handler (cb : Callback) (h : Handler) (s : State) : State :=
  set_handlers (fun c => if decide (c = cb) then h else handlers s c) s.

Definition set_tunable (f : Tunable) (v : Num) (s : State) : State :=
  match f with
  | f_timeoutInterval => set_timeoutInterval v s
  | f_reconnectInterval => set_reconnectInterval v s
  | f_initialReconnectInterval => set_initialReconnectInterval v s
  | f_maxReconnectInterval => set_maxReconnectInterval v s
  end.

(** [step s e] is [None] when the host cannot produce [e] in [s]: a socket
    opens once, from CONNECTING; closes once; delivers messages only while
    open or closing; a timer fires only while armed. *)
Definition step (s : State) (e : Event) : option Outcome :=
  match e with
  | WsOpen i ev =>
      a ← sockets s !! i;
      match sock a with
      | CONNECTING => Some (ws_onopen i ev (set_sock i OPEN s))
      | _ => None
      end
  | WsClose i ev =>
      a ← sockets s !! i;
      match sock a with
      | CLOSED => None
      | _ => Some (ws_onclose i ev (set_sock i CLOSED s))
      end
  | WsMessage i ev =>
      a ← sockets s !! i;
      match sock a with
      | OPEN | CLOSING => Some (ws_onmessage ev s)
      | _ => None
      end
  | WsError i ev =>
      a ← sockets s !! i;
      match sock a with
      | CLOSED => None
      | _ => Some (ws_onerror ev s)
      end
  | TimeoutFire i =>
      a ← sockets s !! i;
      match timeout a with
      | Some _ => Some (Return JUndefined (timeout_cb i (clearTimeout i s)))
      | None => None
      end
  | RetryFire u =>
      match retry_timers s with
      | _ :: rest => Some (Return JUndefined (retry_cb u (set_retry_timers rest s)))
      | [] => None
      end
  | HostTick =>
      match deferred s with
      | t :: rest => Some (Return JUndefined (run_thunk t (set_deferred rest s)))
      | [] => None
      end
  | CallSend data => Some (send data s)
  | CallClose => Some (Return JUndefined (close s))
  | CallRefresh => Some (Return JUndefined (refresh s))
  | SetHandler cb h => Some (Return JUndefined (set_handler cb h s))
  | SetTunable f v => Some (Return JUndefined (set_tunable f v s))
  end.

(** The state after [e]; an event the host cannot produce leaves it alone. *)
Definition after (s : State) (e : Event) : State :=
  match step s e with
  | Some o => state_of o
  | None => s
  end.

Definition run (s : State) (es : list Event) : State := fold_left after es s.

(** Events that come from the host rather than from the caller. *)
Definition lifecycle (e : Event) : bool :=
  match e with
  | WsOpen _ _ | WsClose _ _ | WsMessage _ _ | WsError _ _
  | TimeoutFire _ | RetryFire _ | HostTick => true
  | _ => false
  end.

Definition assigns_handler (e : Event) : bool :=
  match e with SetHandler _ _ => true | _ => false end.

(** How often the code has asked for callback [cb] so far, on the spot or
    through [$timeout]. *)
Definition count_invoked (cb : Callback) (l : list Invocation) : nat :=
  length (List.filter (fun i => bool_decide (inv_cb i = cb)) l).

Definition count_deferred (cb : Callback) (l : list Thunk) : nat :=
  length (List.filter (fun t => bool_decide (thunk_cb t = cb)) l).

Definition emitted (cb : Callback) (s : State) : nat :=
  count_invoked cb (invoked s) + count_deferred cb (deferred s).

(** A run of failed cycles: the live socket closes, the backoff timer fires. *)
Definition failed_cycle (u : Num) (s : State) : State :=
  match ws s with
  | Some i => run s [WsClose i (JEvent "close"); RetryFire u]
  | None => s
  end.

Fixpoint intervals (us : list Num) (s : State) : list Num :=
  match us with
  | [] => []
  | u :: us' =>
      let s' := failed_cycle u s in
      reconnectInterval s' :: intervals us' s'
  end.

Fixpoint failed_cycles (us : list Num) (s : State) : State :=
  match us with
  | [] => s
  | u :: us' => failed_cycles us' (failed_cycle u s)
  end.

(** ** The shape of reachable states *)

(** Socket [i] as seen from the variable [ws]: the one [ws] refers to has not
    closed yet; every other one has closed and its timeout is cleared. *)
Definition attempt_ok (cur : option nat) (i : nat) (a : Attempt) : Prop :=
  if decide (cur = Some i) then sock a <> CLOSED
  else sock a = CLOSED /\ timeout a = None.

Record Inv (s : State) : Prop := mkInv {
  inv_sockets : forall i a, sockets s !! i = Some a -> attempt_ok (ws s) i a;
  inv_ws : forall i, ws s = Some i -> i < length (sockets s);
  inv_retry_live : forall i, ws s = Some i -> retry_timers s = [];
  inv_retry_forced : forcedClose s = true -> retry_timers s = [];
  inv_retry_one : length (retry_timers s) <= 1;
  inv_timedOut : timedOut s = false
}.

(** What the closure variable [reconnectAttempt] of attempt [i] holds, by the
    state of its socket: the constructor calls [connect(url)], the backoff
    timer [connect(true)], and the open handler stores [false]. *)
Definition flag_ok (u : string) (i : nat) (a : Attempt) : Prop :=
  match sock a with
  | OPEN => reconnectAttempt a = JBool false
  | CONNECTING =>
      reconnectAttempt a = match i with 0 => JStr u | S _ => JBool true end
  | CLOSING | CLOSED => True
  end.

Record Flags (s : State) : Prop := mkFlags {
  flags_ok : forall i a, sockets s !! i = Some a -> flag_ok (url s) i a;
  flags_nonempty : sockets s <> []
}.

(** ** What is said about a run of failed cycles *)

(** [[1 * T * 2^n, 2 * T * 2^n]], both ends clipped to the ceiling [M]. *)
Definition in_window (T M : Num) (n : nat) (v : Num) : Prop :=
  leb (Math_min (backoff_term (Fin 1) T n) M) v = true
  /\ leb v (Math_min (backoff_term (Fin 2) T n) M) = true.

Fixpoint windows (T M : Num) (n : nat) (vs : list Num) : Prop :=
  match vs with
  | [] => True
  | v :: vs' => in_window T M n v /\ windows T M (S n) vs'
  end.

Fixpoint nondecreasing (prev : Num) (vs : list Num) : Prop :=
  match vs with
  | [] => True
  | v :: vs' => leb prev v = true /\ nondecreasing v vs'
  end.

Definition fresh (s : State) : Prop :=
  retries s = 0 /\ reconnectInterval s = initialReconnectInterval s.

(** The successive values of [reconnectInterval] over the cycles [us], starting
    from [s]: non-decreasing, at most the ceiling, each in its window, and
    between the initial interval and the ceiling. *)
Definition backoff_claim (s : State) (us : list Num) : Prop :=
  let T := initialReconnectInterval s in
  let M := maxReconnectInterval s in
  let vs := intervals us s in
  nondecreasing (reconnectInterval s) vs
  /\ Forall (fun v => leb v M = true) vs
  /\ windows T M 0 vs
  /\ Forall (fun v => leb T v = true /\ leb v M = true) vs.

(** ** After a forced close *)

(** The instance once the socket closed by [close()] has gone: no socket, no
    timer, [readyState] CLOSED, one more [onclose] than the [c0] before. *)
Definition closed_for_good (c0 n0 : nat) (s : State) : Prop :=
  Inv s /\ forcedClose s = true /\ length (sockets s) = n0
  /\ ws s = None /\ emitted onclose s = c0 + 1 /\ readyState s = CLOSED.

(** Between [close()] on socket [i] and the end: either the socket is
    closing and its close event is still to come, or the instance is closed
    for good. *)
Definition closing (c0 n0 i : nat) (s : State) : Prop :=
  (Inv s /\ forcedClose s = true /\ length (sockets s) = n0
   /\ ws s = Some i /\ emitted onclose s = c0 /\ sock_state i s = CLOSING)
  \/ closed_for_good c0 n0 s.

(** ** Proof automation *)

(** Case analysis on everything an event's handler branches on. *)
Ltac handler_cases :=
  unfold after, step, ws_onopen, ws_onclose, ws_onmessage, ws_onerror,
    timeout_cb, retry_cb, send, close, refresh, sock_close, sock_send,
    run_thunk, set_tunable;
  simpl;
  repeat match goal with
         | |- context [?m ≫= _] => destruct m eqn:?; simpl
         | |- context [match ?x with _ => _ end] =>
             lazymatch x with
             | context [match _ with _ => _ end] => fail
             | _ => destruct x eqn:?; simpl
             end
         end.

(** An event that neither drops the socket nor asks for [onclose];
    [count_lemma] says what a deferred request adds to the count. *)
Ltac quiet_event_by count_lemma :=
  split; [first [assumption | reflexivity]|];
  split; [rewrite ?length_alter; reflexivity|];
  left; split; [first [reflexivity | assumption | symmetry; assumption]|];
  split;
  [ first [ reflexivity | rewrite count_lemma; simpl; apply Nat.add_0_r ]
  | first [ congruence | intros; reflexivity ] ].

(** ** Further definitions: the host's queue and the mirrored state *)

(** The invocation a deferred function makes when the host runs it in [s]. *)
Definition thunk_invocation (s : State) (t : Thunk) : Invocation :=
  match t with
  | call_onopen ev => mkInvocation onopen [ev] Deferred (handlers s onopen)
  | call_onconnecting =>
      mkInvocation onconnecting [] Deferred (handlers s onconnecting)
  | call_onclose ev => mkInvocation onclose [ev] Deferred (handlers s onclose)
  | call_onreconnect =>
      mkInvocation onreconnect
        [JNum (num_of_nat (retries s + 1)); JNum (reconnectInterval s)]
        Deferred (handlers s onreconnect)
  | call_onmessage ev =>
      mkInvocation onmessage [ev] Deferred (handlers s onmessage)
  | call_onerror ev => mkInvocation onerror [ev] Deferred (handlers s onerror)
  end.

(** [n] deferred functions run one after the other. *)
Definition host_ticks (n : nat) : list Event := repeat HostTick n.

(** How [readyState] and the timeouts follow the sockets in reachable
    states: an open socket has no timeout armed; while [ws] refers to a
    socket, [readyState] is what that socket's last event made it; with no
    socket it is CONNECTING in a pause and CLOSED after a forced close. *)
Record Mirror (s : State) : Prop := mkMirror {
  mirror_untimed :
    forall i a, sockets s !! i = Some a -> sock a = OPEN -> timeout a = None;
  mirror_live :
    forall i a, ws s = Some i -> sockets s !! i = Some a ->
      match sock a with
      | CONNECTING => readyState s = CONNECTING
      | OPEN => readyState s = OPEN
      | CLOSING | CLOSED => readyState s = CONNECTING \/ readyState s = OPEN
      end;
  mirror_pause :
    ws s = None ->
    readyState s = if forcedClose s then CLOSED else CONNECTING
}.

(** The instance once the host has run everything queued. *)
Definition settle (s : State) : State :=
  run s (host_ticks (length (deferred s))).

(** The three calls an unforced close leads to, [onclose] left out when
    [quiet]; slots and backoff state are those of [s]. *)
Definition close_calls (s : State) (ev : JsVal) (quiet : bool)
  : list Invocation :=
  [mkInvocation onconnecting [] Deferred (handlers s onconnecting)]
  ++ (if quiet then []
      else [mkInvocation onclose [ev] Deferred (handlers s onclose)])
  ++ [mkInvocation onreconnect
        [JNum (num_of_nat (retries s + 1)); JNum (reconnectInterval s)]
        Deferred (handlers s onreconnect)].

(** Events that neither write a tunable, nor force the close, nor are the
    close event itself. *)
Definition keeps_session (e : Event) : bool :=
  match e with
  | SetTunable _ _ | CallClose | WsClose _ _ => false
  | _ => true
  end.

(** While socket [i] is the live one and nothing but such events happens,
    the backoff state stays as the open handler left it. *)
Definition in_session (i : nat) (T0 : Num) (s : State) : Prop :=
  Inv s /\ ws s = Some i /\ forcedClose s = false
  /\ reconnectInterval s = T0 /\ initialReconnectInterval s = T0.

(** * Theorems *)

(** ** Rounding to binary64 *)

Lemma pow2_pos e : (0 < 2 ^ e)%Q.
Proof. apply Qpower_0_lt. reflexivity. Qed.

Lemma pow2_add a b : (2 ^ (a + b) == 2 ^ a * 2 ^ b)%Q.
Proof. apply Qpower_plus. intros H. discriminate H. Qed.

Lemma pow2_le a b : (a <= b)%Z -> (2 ^ a <= 2 ^ b)%Q.
Proof. intros H. apply Qpower_le_compat_l; [exact H|]. discriminate. Qed.

Lemma pow2_lt a b : (a < b)%Z -> (2 ^ a < 2 ^ b)%Q.
Proof.
  intros H. replace b with (a + (b - a))%Z by lia. rewrite pow2_add.
  assert (H1 : (2 <= 2 ^ (b - a))%Q).
  { change 2%Q with (2 ^ 1)%Q at 1. apply pow2_le. lia. }
  pose proof (pow2_pos a). nra.
Qed.

Lemma pow2_lt_inv a b : (2 ^ a < 2 ^ b)%Q -> (a < b)%Z.
Proof.
  intros H. destruct (Z_lt_le_dec a b) as [L|L]; [exact L|].
  apply pow2_le in L. lra.
Qed.

Lemma pow2_Z e : (0 <= e)%Z -> (2 ^ e == inject_Z (2 ^ e))%Q.
Proof. intros H. rewrite Zpower_Qpower by exact H. reflexivity. Qed.

Lemma pow2_sub a b : (2 ^ (a - b) == 2 ^ a / 2 ^ b)%Q.
Proof.
  unfold Z.sub. rewrite pow2_add, Qpower_opp. reflexivity.
Qed.

Lemma ilog2_spec q : (0 < q)%Q -> (2 ^ ilog2 q <= q /\ q < 2 ^ (ilog2 q + 1))%Q.
Proof.
  intros Hq. destruct q as [n d]. unfold ilog2. cbn [Qnum Qden].
  assert (Hn : (0 < n)%Z) by (unfold Qlt in Hq; simpl in Hq; lia).
  pose proof (Z.log2_spec n Hn) as [Hn1 Hn2].
  pose proof (Z.log2_spec (Zpos d) (Pos2Z.is_pos d)) as [Hd1 Hd2].
  pose proof (Z.log2_nonneg n) as Ln. pose proof (Z.log2_nonneg (Zpos d)) as Ld.
  set (ln := Z.log2 n) in *. set (ld := Z.log2 (Zpos d)) in *.
  assert (En : (n # d == inject_Z n / inject_Z (Zpos d))%Q) by apply Qmake_Qdiv.
  assert (A1 : (2 ^ ln <= inject_Z n)%Q)
    by (rewrite pow2_Z by exact Ln; rewrite <- Zle_Qle; exact Hn1).
  assert (A2 : (inject_Z n < 2 ^ (ln + 1))%Q).
  { rewrite pow2_Z by lia. rewrite <- Zlt_Qlt. replace (ln + 1)%Z with (Z.succ ln) by lia.
    exact Hn2. }
  assert (B1 : (2 ^ ld <= inject_Z (Zpos d))%Q)
    by (rewrite pow2_Z by exact Ld; rewrite <- Zle_Qle; exact Hd1).
  assert (B2 : (inject_Z (Zpos d) < 2 ^ (ld + 1))%Q).
  { rewrite pow2_Z by lia. rewrite <- Zlt_Qlt. replace (ld + 1)%Z with (Z.succ ld) by lia.
    exact Hd2. }
  assert (Dp : (0 < inject_Z (Zpos d))%Q) by (rewrite <- (Zlt_Qlt 0); lia).
  pose proof (pow2_pos ln) as Pn. pose proof (pow2_pos ld) as Pd.
  assert (Up : (n # d < 2 ^ (ln - ld + 1))%Q).
  { rewrite En. replace (ln - ld + 1)%Z with ((ln + 1) - ld)%Z by lia.
    rewrite pow2_sub. apply Qlt_shift_div_r; [exact Dp|].
    set (X := (2 ^ (ln + 1) / 2 ^ ld)%Q).
    assert (EX : (X * 2 ^ ld == 2 ^ (ln + 1))%Q) by (unfold X; field; lra).
    assert (PX : (0 < X)%Q)
      by (unfold X; apply Qlt_shift_div_l; [exact Pd|]; pose proof (pow2_pos (ln + 1)); lra).
    nra. }
  destruct (Qle_bool (2 ^ (ln - ld)) (n # d)) eqn:Hc.
  - apply Qle_bool_iff in Hc. split; [exact Hc|exact Up].
  - assert (Hlt : (n # d < 2 ^ (ln - ld))%Q).
    { apply Qnot_le_lt. intros H. apply Qle_bool_iff in H. congruence. }
    split; [|replace (ln - ld - 1 + 1)%Z with (ln - ld)%Z by lia; exact Hlt].
    rewrite En. replace (ln - ld - 1)%Z with (ln - (ld + 1))%Z by lia.
    rewrite pow2_sub. pose proof (pow2_pos (ld + 1)) as Pd1.
    apply Qle_shift_div_l; [exact Dp|].
    set (X := (2 ^ ln / 2 ^ (ld + 1))%Q).
    assert (EX : (X * 2 ^ (ld + 1) == 2 ^ ln)%Q) by (unfold X; field; lra).
    assert (PX : (0 < X)%Q)
      by (unfold X; apply Qlt_shift_div_l; [exact Pd1|]; lra).
    nra.
Qed.

Lemma ilog2_unique q k :
  (2 ^ k <= q)%Q -> (q < 2 ^ (k + 1))%Q -> ilog2 q = k.
Proof.
  intros H1 H2.
  assert (Hq : (0 < q)%Q) by (pose proof (pow2_pos k); lra).
  destruct (ilog2_spec q Hq) as [S1 S2].
  assert (L1 : (ilog2 q < k + 1)%Z) by (apply pow2_lt_inv; lra).
  assert (L2 : (k < ilog2 q + 1)%Z) by (apply pow2_lt_inv; lra).
  lia.
Qed.

Lemma ilog2_mono a b : (0 < a)%Q -> (a <= b)%Q -> (ilog2 a <= ilog2 b)%Z.
Proof.
  intros Ha Hab. assert (Hb : (0 < b)%Q) by lra.
  destruct (ilog2_spec a Ha) as [A1 A2]. destruct (ilog2_spec b Hb) as [B1 B2].
  assert (L : (ilog2 a < ilog2 b + 1)%Z) by (apply pow2_lt_inv; lra). lia.
Qed.

Lemma ilog2_proper a b : (0 < a)%Q -> (a == b)%Q -> ilog2 a = ilog2 b.
Proof.
  intros Ha E. destruct (ilog2_spec a Ha) as [A1 A2].
  symmetry. apply ilog2_unique; rewrite <- E; assumption.
Qed.

Lemma ilog2_scale q k : (0 < q)%Q -> ilog2 (q * 2 ^ k) = (ilog2 q + k)%Z.
Proof.
  intros Hq. destruct (ilog2_spec q Hq) as [A1 A2]. pose proof (pow2_pos k) as Pk.
  apply ilog2_unique.
  - rewrite pow2_add. apply Qmult_le_compat_r; lra.
  - replace (ilog2 q + k + 1)%Z with ((ilog2 q + 1) + k)%Z by lia.
    rewrite pow2_add. apply Qmult_lt_r; assumption.
Qed.

Lemma ulp_exp_mono a b : (0 < a)%Q -> (a <= b)%Q -> (ulp_exp a <= ulp_exp b)%Z.
Proof. intros Ha Hab. unfold ulp_exp. pose proof (ilog2_mono a b Ha Hab). lia. Qed.

Lemma ulp_exp_proper a b : (0 < a)%Q -> (a == b)%Q -> ulp_exp a = ulp_exp b.
Proof. intros Ha E. unfold ulp_exp. rewrite (ilog2_proper a b Ha E). reflexivity. Qed.

(** *** Nearest integer, ties to even *)

Lemma rne_proper y y' : (y == y')%Q -> rne y = rne y'.
Proof.
  intros E. unfold rne.
  assert (Ef : Qfloor y = Qfloor y') by (apply Qfloor_comp; exact E).
  rewrite Ef.
  assert (Ec : (y - inject_Z (Qfloor y') ?= 1 # 2)%Q
               = (y' - inject_Z (Qfloor y') ?= 1 # 2)%Q).
  { apply Qcompare_comp; [|reflexivity]. rewrite E. reflexivity. }
  rewrite Ec. reflexivity.
Qed.

Lemma rne_Z z : rne (inject_Z z) = z.
Proof.
  unfold rne. rewrite Qfloor_Z.
  assert (E : (inject_Z z - inject_Z z ?= 1 # 2)%Q = Lt)
    by (apply (proj1 (Qlt_alt _ _)); set (x := inject_Z z); lra).
  rewrite E. reflexivity.
Qed.

Lemma rne_bounds y : (Qfloor y <= rne y <= Qfloor y + 1)%Z.
Proof.
  unfold rne. destruct (_ ?= _)%Q; [destruct (Z.even _)| |]; lia.
Qed.

Lemma rne_mono y y' : (y <= y')%Q -> (rne y <= rne y')%Z.
Proof.
  intros H. pose proof (Qfloor_resp_le _ _ H) as Hf.
  destruct (Z.eq_dec (Qfloor y) (Qfloor y')) as [E|NE].
  - unfold rne. rewrite <- E.
    destruct (y - inject_Z (Qfloor y) ?= 1 # 2)%Q eqn:C1;
      destruct (y' - inject_Z (Qfloor y) ?= 1 # 2)%Q eqn:C2;
      try (destruct (Z.even (Qfloor y)); lia); try lia;
      exfalso;
      first [apply Qeq_alt in C1 | apply Qlt_alt in C1 | apply Qgt_alt in C1];
      first [apply Qeq_alt in C2 | apply Qlt_alt in C2 | apply Qgt_alt in C2];
      set (f := inject_Z (Qfloor y)) in *; lra.
  - pose proof (rne_bounds y). pose proof (rne_bounds y'). lia.
Qed.

Lemma rne_ge y n : (inject_Z n <= y)%Q -> (n <= rne y)%Z.
Proof. intros H. rewrite <- (rne_Z n). apply rne_mono. exact H. Qed.

Lemma rne_le y n : (y <= inject_Z n)%Q -> (rne y <= n)%Z.
Proof. intros H. rewrite <- (rne_Z n). apply rne_mono. exact H. Qed.

(** *** The nearest binary64 magnitude *)

Lemma nearest_proper a b : (0 < a)%Q -> (a == b)%Q -> (nearest a == nearest b)%Q.
Proof.
  intros Ha E. unfold nearest. rewrite (ulp_exp_proper a b Ha E).
  rewrite (rne_proper (a / 2 ^ ulp_exp b) (b / 2 ^ ulp_exp b)); [reflexivity|].
  rewrite E. reflexivity.
Qed.

Lemma nearest_nonneg a : (0 < a)%Q -> (0 <= nearest a)%Q.
Proof.
  intros Ha. unfold nearest. pose proof (pow2_pos (ulp_exp a)) as P.
  apply Qmult_le_0_compat; [|lra].
  rewrite <- (Zle_Qle 0). apply rne_ge.
  apply Qle_shift_div_l; [exact P|]. change (inject_Z 0) with 0%Q. lra.
Qed.

(** A power of two at or above the last place of [a] that bounds [a] also
    bounds its nearest binary64 value, from either side. *)
Lemma nearest_le_pow2 a k :
  (0 < a)%Q -> (a <= 2 ^ k)%Q -> (ulp_exp a <= k)%Z -> (nearest a <= 2 ^ k)%Q.
Proof.
  intros Ha H He. unfold nearest. pose proof (pow2_pos (ulp_exp a)) as P.
  replace k with ((k - ulp_exp a) + ulp_exp a)%Z at 1 by lia.
  rewrite pow2_add. apply Qmult_le_compat_r; [|lra].
  assert (E : (2 ^ (k - ulp_exp a) == inject_Z (2 ^ (k - ulp_exp a)))%Q)
    by (apply pow2_Z; lia).
  rewrite E. rewrite <- Zle_Qle. apply rne_le.
  rewrite <- E. apply Qle_shift_div_r; [exact P|].
  rewrite <- pow2_add. replace (k - ulp_exp a + ulp_exp a)%Z with k by lia. exact H.
Qed.

Lemma nearest_ge_pow2 a k :
  (2 ^ k <= a)%Q -> (ulp_exp a <= k)%Z -> (2 ^ k <= nearest a)%Q.
Proof.
  intros H He. unfold nearest. pose proof (pow2_pos (ulp_exp a)) as P.
  replace k with ((k - ulp_exp a) + ulp_exp a)%Z at 1 by lia.
  rewrite pow2_add. apply Qmult_le_compat_r; [|lra].
  assert (E : (2 ^ (k - ulp_exp a) == inject_Z (2 ^ (k - ulp_exp a)))%Q)
    by (apply pow2_Z; lia).
  rewrite E. rewrite <- Zle_Qle. apply rne_ge.
  rewrite <- E. apply Qle_shift_div_l; [exact P|].
  rewrite <- pow2_add. replace (k - ulp_exp a + ulp_exp a)%Z with k by lia. exact H.
Qed.

Lemma nearest_mono a b : (0 < a)%Q -> (a <= b)%Q -> (nearest a <= nearest b)%Q.
Proof.
  intros Ha Hab. assert (Hb : (0 < b)%Q) by lra.
  pose proof (ulp_exp_mono a b Ha Hab) as He.
  destruct (Z.eq_dec (ulp_exp a) (ulp_exp b)) as [E|NE].
  - unfold nearest. rewrite E. pose proof (pow2_pos (ulp_exp b)) as P.
    apply Qmult_le_compat_r; [|lra]. rewrite <- Zle_Qle. apply rne_mono.
    apply Qmult_le_compat_r; [exact Hab|]. apply Qlt_le_weak, Qinv_lt_0_compat, P.
  - (* the last place of [b] is coarser: a power of two lies between *)
    destruct (ilog2_spec a Ha) as [A1 A2]. destruct (ilog2_spec b Hb) as [B1 B2].
    assert (Hk : (ulp_exp b = ilog2 b - 52 /\ ilog2 a < ilog2 b)%Z)
      by (unfold ulp_exp in *; lia).
    destruct Hk as [Eb Hlt].
    apply Qle_trans with (2 ^ ilog2 b)%Q.
    + apply nearest_le_pow2; [exact Ha| |unfold ulp_exp in *; lia].
      apply Qle_trans with (2 ^ (ilog2 a + 1))%Q; [lra|]. apply pow2_le. lia.
    + apply nearest_ge_pow2; [exact B1|lia].
Qed.

(** Scaling a binary64 value by a power of two is exact. *)
Lemma nearest_scale q k :
  (0 < q)%Q -> (0 <= k)%Z -> (nearest q == q)%Q ->
  (nearest (q * 2 ^ k) == q * 2 ^ k)%Q.
Proof.
  intros Hq Hk Hfix. pose proof (pow2_pos k) as Pk.
  assert (He : (ulp_exp (q * 2 ^ k) <= ulp_exp q + k)%Z).
  { unfold ulp_exp. rewrite (ilog2_scale q k Hq). lia. }
  unfold nearest in *.
  set (e := ulp_exp q) in *. set (e' := ulp_exp (q * 2 ^ k)) in *.
  set (m := rne (q / 2 ^ e)) in *.
  clearbody m e e'.
  pose proof (pow2_pos e') as Pe'. pose proof (pow2_pos e) as Pe.
  assert (EX : (2 ^ (e + k - e') * 2 ^ e' == 2 ^ e * 2 ^ k)%Q).
  { rewrite <- !pow2_add. replace (e + k - e' + e')%Z with (e + k)%Z by lia.
    reflexivity. }
  assert (EZ : (2 ^ (e + k - e') == inject_Z (2 ^ (e + k - e')))%Q)
    by (apply pow2_Z; lia).
  set (X := (2 ^ (e + k - e'))%Q) in *.
  set (A := (2 ^ e)%Q) in *. set (B := (2 ^ k)%Q) in *. set (C := (2 ^ e')%Q) in *.
  assert (Ey : (q * B / C == inject_Z (m * 2 ^ (e + k - e')))%Q).
  { rewrite inject_Z_mult, <- EZ. rewrite <- Hfix.
    transitivity (inject_Z m * (A * B) / C)%Q; [field; lra|].
    rewrite <- EX. field. lra. }
  rewrite (rne_proper _ _ Ey), rne_Z, inject_Z_mult, <- EZ.
  rewrite <- Hfix.
  transitivity (inject_Z m * (X * C))%Q; [ring|]. rewrite EX. ring.
Qed.

Lemma nearest_pow2 k : (-1074 <= k)%Z -> (nearest (2 ^ k) == 2 ^ k)%Q.
Proof.
  intros Hk. pose proof (pow2_pos k) as Pk.
  assert (El : ilog2 (2 ^ k) = k).
  { apply ilog2_unique; [lra|]. apply pow2_lt. lia. }
  unfold nearest, ulp_exp. rewrite El.
  set (e := Z.max (k - 52) (-1074)). pose proof (pow2_pos e) as Pe.
  assert (Ey : (2 ^ k / 2 ^ e == inject_Z (2 ^ (k - e)))%Q)
    by (rewrite <- pow2_Z by lia; rewrite pow2_sub; reflexivity).
  rewrite (rne_proper _ _ Ey), rne_Z, <- pow2_Z by lia.
  rewrite <- pow2_add. replace (k - e + e)%Z with k by lia. reflexivity.
Qed.

(** ** Order and arithmetic on numbers above zero *)

Lemma posn_inv x : posn x -> x = Inf false \/ exists q, x = Fin q /\ (0 < q)%Q.
Proof. destruct x as [|[]|[]|q]; simpl; try tauto. eauto. Qed.

Lemma leb_refl x : posn x -> leb x x = true.
Proof.
  intros H. destruct (posn_inv x H) as [->|(q & -> & Hq)]; [reflexivity|].
  simpl. apply Qle_bool_iff. apply Qle_refl.
Qed.

Lemma leb_trans x y z : leb x y = true -> leb y z = true -> leb x z = true.
Proof.
  destruct x as [|[]|[]|a], y as [|[]|[]|b], z as [|[]|[]|c]; simpl;
    intros H1 H2; try discriminate H1; try discriminate H2; try reflexivity;
    apply Qle_bool_iff in H1; apply Qle_bool_iff in H2; apply Qle_bool_iff;
    simpl in *; lra.
Qed.

Lemma leb_posn x y : posn x -> leb x y = true -> posn y.
Proof.
  destruct x as [|[]|[]|a], y as [|[]|[]|b]; simpl; intros Hx Hl;
    try tauto; try discriminate Hl;
    apply Qle_bool_iff in Hl; simpl in Hl; lra.
Qed.

Lemma leb_Inf x : posn x -> leb x (Inf false) = true.
Proof. destruct x as [|[]|[]|a]; simpl; tauto. Qed.

Lemma sign_posn x : posn x -> sign x = false.
Proof.
  destruct x as [|[]|[]|a]; simpl; try tauto. intros H.
  assert (E : Qle_bool 0 a = true) by (apply Qle_bool_iff; lra).
  rewrite E. reflexivity.
Qed.

Lemma Qle_bool_false a b : Qle_bool a b = false <-> (b < a)%Q.
Proof.
  split; intros H.
  - apply Qnot_le_lt. intros L. apply Qle_bool_iff in L. congruence.
  - destruct (Qle_bool a b) eqn:E; [|reflexivity].
    apply Qle_bool_iff in E. lra.
Qed.

(** What [round] makes of a positive exact result. *)
Lemma round_pos_cases q :
  (0 < q)%Q ->
  (round q = Inf false /\ (2 ^ 1024 <= nearest q)%Q)
  \/ (round q = Zero false /\ (nearest q == 0)%Q)
  \/ (exists r, round q = Fin r /\ (r == nearest q)%Q /\ (0 < r)%Q
                /\ (r < 2 ^ 1024)%Q).
Proof.
  intros Hq. unfold round.
  assert (E : (q ?= 0)%Q = Gt) by (apply (proj1 (Qgt_alt _ _)); exact Hq).
  rewrite E. unfold pack.
  pose proof (nearest_nonneg q Hq) as Hn.
  destruct (Qle_bool (2 ^ 1024) (nearest q)) eqn:C1.
  - left. apply Qle_bool_iff in C1. auto.
  - apply Qle_bool_false in C1. destruct (Qeq_bool (nearest q) 0) eqn:C2.
    + right. left. apply Qeq_bool_iff in C2. auto.
    + right. right. exists (Qred (nearest q)).
      assert (Hne : ~ (nearest q == 0)%Q)
        by (intros H; apply Qeq_bool_iff in H; congruence).
      split; [reflexivity|]. rewrite Qred_correct.
      split; [reflexivity|]. split; [|exact C1].
      destruct (Qlt_le_dec 0 (nearest q)) as [L|L]; [exact L|].
      exfalso. apply Hne. lra.
Qed.

Lemma round_proper a b : (0 < a)%Q -> (a == b)%Q -> round a = round b.
Proof.
  intros Ha E. assert (Hb : (0 < b)%Q) by lra.
  unfold round.
  assert (Ea : (a ?= 0)%Q = Gt) by (apply (proj1 (Qgt_alt _ _)); exact Ha).
  assert (Eb : (b ?= 0)%Q = Gt) by (apply (proj1 (Qgt_alt _ _)); exact Hb).
  rewrite Ea, Eb. unfold pack. pose proof (nearest_proper a b Ha E) as En.
  assert (E1 : Qle_bool (2 ^ 1024) (nearest a) = Qle_bool (2 ^ 1024) (nearest b)).
  { destruct (Qle_bool (2 ^ 1024) (nearest b)) eqn:C.
    - apply Qle_bool_iff. apply Qle_bool_iff in C. lra.
    - apply Qle_bool_false. apply Qle_bool_false in C. lra. }
  assert (E2 : Qeq_bool (nearest a) 0 = Qeq_bool (nearest b) 0).
  { destruct (Qeq_bool (nearest b) 0) eqn:C.
    - apply Qeq_bool_iff. apply Qeq_bool_iff in C. lra.
    - destruct (Qeq_bool (nearest a) 0) eqn:C'; [|reflexivity].
      apply Qeq_bool_iff in C'.
      assert (H : Qeq_bool (nearest b) 0 = true) by (apply Qeq_bool_iff; lra).
      congruence. }
  rewrite E1, E2. clear E1 E2.
  destruct (Qle_bool (2 ^ 1024) (nearest b)); [reflexivity|].
  destruct (Qeq_bool (nearest b) 0); [reflexivity|].
  f_equal. apply Qred_complete. exact En.
Qed.

Lemma round_mono a b : (0 < a)%Q -> (a <= b)%Q -> leb (round a) (round b) = true.
Proof.
  intros Ha Hab. assert (Hb : (0 < b)%Q) by lra.
  pose proof (nearest_mono a b Ha Hab) as Hn.
  destruct (round_pos_cases a Ha) as [[-> A]|[[-> A]|(r & -> & A1 & A2 & A3)]];
    destruct (round_pos_cases b Hb) as [[-> B]|[[-> B]|(r' & -> & B1 & B2 & B3)]];
    simpl; try reflexivity; try (exfalso; lra);
    apply Qle_bool_iff; lra.
Qed.

Lemma is_double_dbl t : (0 < t)%Q -> is_double (Fin t) = true -> dbl t.
Proof.
  intros Ht H. unfold is_double in H.
  destruct (round_pos_cases t Ht) as [[E A]|[[E A]|(r & E & A1 & A2 & A3)]];
    rewrite E in H; try discriminate H.
  apply Qeq_bool_iff in H. split; [exact Ht|]. split; lra.
Qed.

Lemma round_dbl t : dbl t -> exists r, round t = Fin r /\ (r == t)%Q.
Proof.
  intros (Ht & Hn & Hlt).
  destruct (round_pos_cases t Ht) as [[E A]|[[E A]|(r & E & A1 & A2 & A3)]];
    try (exfalso; lra).
  exists r. split; [exact E|lra].
Qed.

(** Rounding never crosses a binary64 value. *)
Lemma round_ge t a : dbl t -> (t <= a)%Q -> leb (Fin t) (round a) = true.
Proof.
  intros Hd Hta. destruct (round_dbl t Hd) as (r & E & Er).
  destruct Hd as (Ht & _).
  pose proof (round_mono t a Ht Hta) as H. rewrite E in H.
  apply (leb_trans (Fin t) (Fin r)); [|exact H].
  simpl. apply Qle_bool_iff. lra.
Qed.

Lemma round_le t a :
  dbl t -> (0 < a)%Q -> (a <= t)%Q -> leb (round a) (Fin t) = true.
Proof.
  intros Hd Ha Hat. destruct (round_dbl t Hd) as (r & E & Er).
  pose proof (round_mono a t Ha Hat) as H. rewrite E in H.
  apply (leb_trans _ (Fin r)); [exact H|].
  simpl. apply Qle_bool_iff. lra.
Qed.

Lemma dbl_pow2 k : (-1074 <= k < 1024)%Z -> dbl (2 ^ k).
Proof.
  intros Hk. split; [apply pow2_pos|]. split; [apply nearest_pow2; lia|].
  apply pow2_lt. lia.
Qed.

Lemma dbl_1 : dbl 1.
Proof. apply (dbl_pow2 0). lia. Qed.

Lemma dbl_2 : dbl 2.
Proof. apply (dbl_pow2 1). lia. Qed.

(** *** Multiplication *)

Lemma mul_Fin a b : mul (Fin a) (Fin b) = round (a * b).
Proof. reflexivity. Qed.

Lemma mul_Inf_r x : posn x -> mul x (Inf false) = Inf false.
Proof.
  intros H. destruct (posn_inv x H) as [->|(q & -> & Hq)]; [reflexivity|].
  simpl. assert (E : Qle_bool 0 q = true) by (apply Qle_bool_iff; lra).
  rewrite E. reflexivity.
Qed.

Lemma mul_Inf_l x : posn x -> mul (Inf false) x = Inf false.
Proof.
  intros H. destruct (posn_inv x H) as [->|(q & -> & Hq)]; [reflexivity|].
  simpl. assert (E : Qle_bool 0 q = true) by (apply Qle_bool_iff; lra).
  rewrite E. reflexivity.
Qed.

(** The product of two numbers above zero is zero (by underflow), above zero
    or infinite, never NaN, and grows with its left factor. *)
Lemma mul_mono_l x x' p :
  posn x -> posn x' -> posn p -> leb x x' = true ->
  leb (mul x p) (mul x' p) = true.
Proof.
  intros Hx Hx' Hp Hle.
  destruct (posn_inv p Hp) as [->|(c & -> & Hc)].
  - rewrite !mul_Inf_r by assumption. reflexivity.
  - destruct (posn_inv x' Hx') as [->|(b & -> & Hb)].
    + rewrite (mul_Inf_l (Fin c) Hp).
      destruct (posn_inv x Hx) as [->|(a & -> & Ha)];
        [rewrite (mul_Inf_l (Fin c) Hp); reflexivity|].
      rewrite mul_Fin.
      assert (Hac : (0 < a * c)%Q) by (apply Qmult_lt_0_compat; assumption).
      destruct (round_pos_cases _ Hac) as [[-> A]|[[-> A]|(r & -> & A1 & A2 & A3)]];
        reflexivity.
    + destruct (posn_inv x Hx) as [->|(a & -> & Ha)]; [discriminate Hle|].
      simpl in Hle. apply Qle_bool_iff in Hle. rewrite !mul_Fin.
      apply round_mono; [apply Qmult_lt_0_compat; assumption|].
      apply Qmult_le_compat_r; lra.
Qed.

Lemma mul_comm_Fin a b : (0 < a)%Q -> (0 < b)%Q -> mul (Fin a) (Fin b) = mul (Fin b) (Fin a).
Proof.
  intros Ha Hb. rewrite !mul_Fin. apply round_proper.
  - apply Qmult_lt_0_compat; assumption.
  - ring.
Qed.

(** *** Powers of two *)

Lemma Math_pow_2 n :
  (n < 1024 /\ exists q, Math_pow (Fin 2) n = Fin q /\ (q == 2 ^ Z.of_nat n)%Q)
  \/ (1024 <= n /\ Math_pow (Fin 2) n = Inf false).
Proof.
  induction n as [|n IH].
  - left. split; [lia|]. exists 1%Q. split; reflexivity.
  - destruct IH as [(Hn & q & E & Eq)|(Hn & E)].
    + simpl. rewrite E, mul_Fin.
      assert (Hq : (0 < q)%Q) by (rewrite Eq; apply pow2_pos).
      assert (Hq2 : (0 < q * 2)%Q) by lra.
      assert (E2 : (q * 2 == 2 ^ Z.of_nat (S n))%Q).
      { rewrite Nat2Z.inj_succ. unfold Z.succ. rewrite pow2_add, Eq. reflexivity. }
      rewrite (round_proper _ _ Hq2 E2).
      destruct (Nat.eq_dec (S n) 1024) as [E3|NE].
      * right. split; [lia|].
        pose proof (nearest_pow2 (Z.of_nat (S n)) ltac:(lia)) as Hn2.
        destruct (round_pos_cases _ (pow2_pos (Z.of_nat (S n))))
          as [[Er A]|[[Er A]|(r & Er & A1 & A2 & A3)]].
        -- exact Er.
        -- exfalso. pose proof (pow2_pos (Z.of_nat (S n))). lra.
        -- exfalso. rewrite E3 in *. change (Z.of_nat 1024) with 1024%Z in *. lra.
      * left. split; [lia|].
        destruct (round_dbl (2 ^ Z.of_nat (S n))) as (r & Er & Hr).
        { apply dbl_pow2. lia. }
        exists r. split; assumption.
    + right. split; [lia|]. simpl. rewrite E. reflexivity.
Qed.

Lemma Math_pow_2_posn n : posn (Math_pow (Fin 2) n).
Proof.
  destruct (Math_pow_2 n) as [(_ & q & -> & Eq)|(_ & ->)]; simpl; [|exact Logic.I].
  rewrite Eq. apply pow2_pos.
Qed.

(** *** [Math.min] *)

Lemma Math_min_posn x y : posn x -> posn y -> posn (Math_min x y).
Proof.
  intros Hx Hy.
  destruct (posn_inv x Hx) as [->|(a & -> & Ha)];
    destruct (posn_inv y Hy) as [->|(b & -> & Hb)]; simpl; auto.
  destruct (Qle_bool a b); simpl; assumption.
Qed.

Lemma Math_min_le_r x y : posn x -> posn y -> leb (Math_min x y) y = true.
Proof.
  intros Hx Hy.
  destruct (posn_inv x Hx) as [->|(a & -> & Ha)];
    destruct (posn_inv y Hy) as [->|(b & -> & Hb)]; simpl; auto.
  - apply Qle_bool_iff. lra.
  - destruct (Qle_bool a b) eqn:E; simpl; [exact E|]. apply Qle_bool_iff. lra.
Qed.

Lemma Math_min_glb z x y :
  posn z -> leb z x = true -> leb z y = true -> leb z (Math_min x y) = true.
Proof.
  intros Hz Hx Hy. pose proof (leb_posn z x Hz Hx) as Px.
  pose proof (leb_posn z y Hz Hy) as Py.
  destruct (posn_inv x Px) as [->|(a & -> & Ha)];
    destruct (posn_inv y Py) as [->|(b & -> & Hb)]; simpl; auto.
  destruct (Qle_bool a b); assumption.
Qed.

Lemma Math_min_mono x x' y :
  posn x -> posn y -> leb x x' = true ->
  leb (Math_min x y) (Math_min x' y) = true.
Proof.
  intros Hx Hy Hle. pose proof (leb_posn x x' Hx Hle) as Hx'.
  apply Math_min_glb.
  - apply Math_min_posn; assumption.
  - apply (leb_trans _ x); [|exact Hle].
    destruct (posn_inv x Hx) as [->|(a & -> & Ha)];
      destruct (posn_inv y Hy) as [->|(b & -> & Hb)]; simpl; auto.
    + apply Qle_bool_iff. lra.
    + destruct (Qle_bool a b) eqn:E; simpl; apply Qle_bool_iff;
        [lra|apply Qle_bool_false in E; lra].
  - apply Math_min_le_r; assumption.
Qed.

(** ** The backoff expression *)

Lemma leb_Fin a b : leb (Fin a) (Fin b) = true <-> (a <= b)%Q.
Proof. simpl. apply Qle_bool_iff. Qed.

Lemma between_1_2 R :
  leb (Fin 1) R = true -> leb R (Fin 2) = true ->
  exists r, R = Fin r /\ (1 <= r <= 2)%Q.
Proof.
  destruct R as [|[]|[]|r]; simpl; intros H1 H2;
    try discriminate H1; try discriminate H2.
  exists r. apply Qle_bool_iff in H1. apply Qle_bool_iff in H2. auto.
Qed.

(** [Math.random() + 1] lies in [[1, 2]]: the sum is rounded, and the two
    ends are binary64 values. *)
Lemma draw_plus_1 u :
  draw_ok u -> leb (Fin 1) (add u (Fin 1)) = true /\ leb (add u (Fin 1)) (Fin 2) = true.
Proof.
  intros [H0 H1]. destruct u as [|[]|s|q]; simpl in H0, H1; try discriminate.
  - simpl. split; reflexivity.
  - apply Qle_bool_iff in H0. simpl in H0.
    apply negb_true_iff, Qle_bool_false in H1.
    simpl. split.
    + apply round_ge; [exact dbl_1|lra].
    + apply round_le; [exact dbl_2|lra|lra].
Qed.

Section Backoff.

Variable t : Q.
Hypothesis t_dbl : dbl t.

Lemma T_posn : posn (Fin t).
Proof. destruct t_dbl as (Ht & _). exact Ht. Qed.

Lemma mul_factor_ge R :
  leb (Fin 1) R = true -> leb R (Fin 2) = true -> leb (Fin t) (mul R (Fin t)) = true.
Proof.
  intros H1 H2. destruct (between_1_2 R H1 H2) as (r & -> & Hr).
  rewrite mul_Fin. destruct t_dbl as (Ht & _).
  apply round_ge; [exact t_dbl|]. nra.
Qed.

Lemma mul_factor_posn R :
  leb (Fin 1) R = true -> leb R (Fin 2) = true -> posn (mul R (Fin t)).
Proof. intros H1 H2. apply (leb_posn (Fin t)); [exact T_posn|apply mul_factor_ge; assumption]. Qed.

Lemma mul_1_T : exists r, mul (Fin 1) (Fin t) = Fin r /\ (r == t)%Q.
Proof.
  rewrite mul_Fin. destruct t_dbl as (Ht & _).
  rewrite (round_proper (1 * t) t); [|lra|ring].
  apply round_dbl. exact t_dbl.
Qed.

Lemma term_ge_T n : leb (Fin t) (backoff_term (Fin 1) (Fin t) n) = true.
Proof.
  unfold backoff_term. destruct mul_1_T as (r & -> & Er).
  destruct t_dbl as (Ht & _).
  destruct (Math_pow_2 n) as [(_ & p & -> & Ep)|(_ & ->)].
  - rewrite mul_Fin. apply round_ge; [exact t_dbl|].
    pose proof (Qpower_1_le 2 (Z.of_nat n) ltac:(lra) ltac:(lia)) as Hp. nra.
  - rewrite mul_Inf_r; [reflexivity|]. simpl. lra.
Qed.

(** The expression grows with the factor [R]. *)
Lemma term_mono R R' n :
  leb (Fin 1) R = true -> leb R R' = true -> leb R' (Fin 2) = true ->
  leb (backoff_term R (Fin t) n) (backoff_term R' (Fin t) n) = true.
Proof.
  intros H1 H H2. unfold backoff_term.
  assert (H1' : leb (Fin 1) R' = true) by (apply (leb_trans _ R); assumption).
  assert (H2' : leb R (Fin 2) = true) by (apply (leb_trans _ R'); assumption).
  apply mul_mono_l.
  - apply mul_factor_posn; assumption.
  - apply mul_factor_posn; assumption.
  - apply Math_pow_2_posn.
  - destruct (between_1_2 R H1 H2') as (r & -> & Hr).
    destruct (between_1_2 R' H1' H2) as (r' & -> & Hr').
    apply mul_mono_l; [simpl; lra|simpl; lra|exact T_posn|exact H].
Qed.

Lemma term_posn R n :
  leb (Fin 1) R = true -> leb R (Fin 2) = true -> posn (backoff_term R (Fin t) n).
Proof.
  intros H1 H2. apply (leb_posn (Fin t)); [exact T_posn|].
  apply (leb_trans _ (backoff_term (Fin 1) (Fin t) n)); [apply term_ge_T|].
  apply term_mono; [reflexivity|exact H1|exact H2].
Qed.

(** The upper end of one window is the lower end of the next. *)
Lemma term_step n :
  leb (backoff_term (Fin 2) (Fin t) n) (backoff_term (Fin 1) (Fin t) (S n)) = true.
Proof.
  assert (PU : posn (backoff_term (Fin 2) (Fin t) n))
    by (apply term_posn; reflexivity).
  assert (PL : posn (backoff_term (Fin 1) (Fin t) (S n)))
    by (apply term_posn; reflexivity).
  destruct t_dbl as (Ht & Hn & Hlt).
  destruct (Math_pow_2 (S n)) as [(Hlt' & p' & E' & Ep')|(Hge' & E')].
  2:{ unfold backoff_term at 2. rewrite E'.
      rewrite mul_Inf_r
        by (apply mul_factor_posn; reflexivity).
      apply leb_Inf. exact PU. }
  destruct (Math_pow_2 n) as [(_ & p & E & Ep)|(Hge & _)]; [|lia].
  unfold backoff_term in *. rewrite E, E' in *.
  destruct mul_1_T as (r1 & E1 & Er1). rewrite E1 in *.
  rewrite (mul_Fin r1 p') in *. rewrite (mul_Fin 2 t) in *.
  assert (Hp : (0 < p)%Q) by (rewrite Ep; apply pow2_pos).
  assert (Hp' : (p' == 2 * p)%Q).
  { rewrite Ep', Ep, Nat2Z.inj_succ. unfold Z.succ. rewrite pow2_add.
    change (2 ^ 1)%Q with 2%Q. ring. }
  assert (H2t : (0 < 2 * t)%Q) by lra.
  assert (N2 : (nearest (2 * t) == 2 * t)%Q).
  { rewrite (nearest_proper (2 * t) (t * 2 ^ 1)); [|exact H2t|change (2 ^ 1)%Q with 2%Q; ring].
    rewrite (nearest_scale t 1 Ht ltac:(lia) Hn). change (2 ^ 1)%Q with 2%Q. ring. }
  destruct (round_pos_cases (2 * t) H2t) as [[E2 A]|[[E2 A]|(r2 & E2 & A1 & A2 & A3)]];
    rewrite E2 in *.
  - (* 2 * t overflows: so does t * 2^(n+1) *)
    rewrite mul_Inf_l by (simpl; exact Hp).
    assert (Hbig : (0 < r1 * p')%Q) by (apply Qmult_lt_0_compat; lra).
    destruct (round_pos_cases (r1 * p') Hbig) as [[-> B]|[[E3 B]|(r3 & E3 & B1 & B2 & B3)]];
      [reflexivity| |].
    + exfalso. rewrite E3 in PL. exact PL.
    + exfalso.
      assert (Hs : (nearest (r1 * p') == r1 * p')%Q).
      { rewrite (nearest_proper (r1 * p') (t * 2 ^ Z.of_nat (S n))); [|exact Hbig|rewrite Er1, Ep'; reflexivity].
        rewrite (nearest_scale t (Z.of_nat (S n)) Ht ltac:(lia) Hn).
        rewrite Er1, Ep'. reflexivity. }
      pose proof (Qpower_1_le 2 (Z.of_nat n) ltac:(lra) ltac:(lia)) as Hp1.
      rewrite <- Ep in Hp1. nra.
  - exfalso. lra.
  - rewrite mul_Fin.
    rewrite (round_proper (r2 * p) (r1 * p')).
    + apply leb_refl. exact PL.
    + apply Qmult_lt_0_compat; lra.
    + rewrite A1, N2, Er1, Hp'. ring.
Qed.

End Backoff.

(** ** A ceiling that is any number but NaN *)

Ltac num_cases :=
  simpl in *; try discriminate; try reflexivity; try tauto;
  repeat match goal with
         | |- context [Qle_bool ?a ?b] => destruct (Qle_bool a b) eqn:?; simpl
         end;
  try discriminate; try reflexivity;
  repeat match goal with
         | H : Qle_bool _ _ = true |- _ => apply Qle_bool_iff in H; simpl in H
         | H : Qle_bool _ _ = false |- _ => apply Qle_bool_false in H; simpl in H
         end;
  try (exfalso; lra).

Lemma Math_min_le_ceiling x y :
  posn x -> leb y y = true -> leb (Math_min x y) y = true.
Proof.
  intros Hx Hy.
  destruct (posn_inv x Hx) as [->|(a & -> & Ha)]; destruct y as [|[]|[]|b];
    num_cases.
Qed.

Lemma Math_min_mono_ceiling x x' y :
  posn x -> leb x x' = true -> leb y y = true ->
  leb (Math_min x y) (Math_min x' y) = true.
Proof.
  intros Hx Hle Hy. pose proof (leb_posn x x' Hx Hle) as Hx'.
  destruct (posn_inv x Hx) as [->|(a & -> & Ha)];
    destruct (posn_inv x' Hx') as [->|(a' & -> & Ha')];
    destruct y as [|[]|[]|b]; num_cases.
Qed.

(** Once the expression has passed the ceiling the result is the ceiling. *)
Lemma Math_min_at_ceiling x y :
  posn x -> leb y x = true ->
  leb (Math_min x y) y = true /\ leb y (Math_min x y) = true.
Proof.
  intros Hx Hy.
  destruct (posn_inv x Hx) as [->|(a & -> & Ha)]; destruct y as [|[]|[]|b];
    num_cases; split; num_cases.
Qed.

(** ** The backoff expression for any positive initial interval *)

Lemma positive_double T :
  posn T -> is_double T = true -> T = Inf false \/ exists t, T = Fin t /\ dbl t.
Proof.
  intros Hp Hd. destruct (posn_inv T Hp) as [->|(t & -> & Ht)]; [left; reflexivity|].
  right. exists t. split; [reflexivity|]. apply is_double_dbl; assumption.
Qed.

Lemma term_Inf R n :
  leb (Fin 1) R = true -> leb R (Fin 2) = true ->
  backoff_term R (Inf false) n = Inf false.
Proof.
  intros H1 H2. destruct (between_1_2 R H1 H2) as (r & -> & Hr).
  unfold backoff_term. rewrite (mul_Inf_r (Fin r)) by (simpl; lra).
  apply mul_Inf_l. apply Math_pow_2_posn.
Qed.

Section PositiveInterval.

Variable T : Num.
Hypothesis T_pos : posn T.
Hypothesis T_double : is_double T = true.

Lemma backoff_term_ge n : leb T (backoff_term (Fin 1) T n) = true.
Proof.
  destruct (positive_double T T_pos T_double) as [E|(t & E & Ht)]; rewrite E.
  - rewrite term_Inf; reflexivity.
  - apply term_ge_T. exact Ht.
Qed.

Lemma backoff_term_mono R R' n :
  leb (Fin 1) R = true -> leb R R' = true -> leb R' (Fin 2) = true ->
  leb (backoff_term R T n) (backoff_term R' T n) = true.
Proof.
  intros H1 H H2.
  destruct (positive_double T T_pos T_double) as [E|(t & E & Ht)]; rewrite E.
  - rewrite !term_Inf; try assumption; try reflexivity.
    + apply (leb_trans _ R); assumption.
    + apply (leb_trans _ R'); assumption.
  - apply term_mono; assumption.
Qed.

Lemma backoff_term_posn R n :
  leb (Fin 1) R = true -> leb R (Fin 2) = true -> posn (backoff_term R T n).
Proof.
  intros H1 H2. apply (leb_posn T); [exact T_pos|].
  apply (leb_trans _ (backoff_term (Fin 1) T n)); [apply backoff_term_ge|].
  apply backoff_term_mono; [reflexivity|exact H1|exact H2].
Qed.

Lemma backoff_term_step n :
  leb (backoff_term (Fin 2) T n) (backoff_term (Fin 1) T (S n)) = true.
Proof.
  destruct (positive_double T T_pos T_double) as [E|(t & E & Ht)]; rewrite E.
  - rewrite !term_Inf; reflexivity.
  - apply term_step. exact Ht.
Qed.

(** The lower end of the window grows with the number of retries. *)
Lemma backoff_term_grows n m :
  n <= m -> leb (backoff_term (Fin 1) T n) (backoff_term (Fin 1) T m) = true.
Proof.
  induction 1 as [|m Hle IH].
  - apply leb_refl. apply backoff_term_posn; reflexivity.
  - apply (leb_trans _ (backoff_term (Fin 1) T m)); [exact IH|].
    apply (leb_trans _ (backoff_term (Fin 2) T m)); [|apply backoff_term_step].
    apply backoff_term_mono; reflexivity.
Qed.

End PositiveInterval.

(** ** The retry counter

    [retries] is kept as a natural number.  The code's counter is a binary64
    number that starts at 0 and grows by [retries++]; the two agree for as
    long as the counter is below [2^53], where binary64 stops telling
    consecutive integers apart. *)

Lemma inject_Z_lt x y : (x < y)%Z -> (inject_Z x < inject_Z y)%Q.
Proof. intros H. rewrite <- Zlt_Qlt. exact H. Qed.

Lemma Qred_inject_Z z : Qred (inject_Z z) = inject_Z z.
Proof.
  unfold Qred, inject_Z.
  pose proof (Z.ggcd_gcd z 1) as Hg.
  pose proof (Z.ggcd_correct_divisors z 1) as Hd.
  destruct (Z.ggcd z 1) as [g [a b]]. simpl in Hg, Hd |- *.
  rewrite Z.gcd_1_r in Hg. destruct Hd as [Ha Hb].
  assert (Ea : a = z) by lia. assert (Eb : b = 1%Z) by lia.
  rewrite Ea, Eb. reflexivity.
Qed.

Lemma nearest_int z :
  (0 < z)%Z -> (z < 2 ^ 53)%Z -> (nearest (inject_Z z) == inject_Z z)%Q.
Proof.
  intros H0 H1. set (q := inject_Z z).
  assert (Hq : (0 < q)%Q) by (unfold q; change 0%Q with (inject_Z 0); apply inject_Z_lt; exact H0).
  destruct (ilog2_spec q Hq) as [L1 L2].
  assert (Hq53 : (q < 2 ^ 53)%Q).
  { unfold q. rewrite (pow2_Z 53) by lia. apply inject_Z_lt. exact H1. }
  assert (Hl : (ilog2 q < 53)%Z) by (apply pow2_lt_inv; lra).
  assert (He : (ulp_exp q <= 0)%Z) by (unfold ulp_exp; lia).
  unfold nearest. set (e := ulp_exp q) in *.
  assert (Ek : (2 ^ e * inject_Z (2 ^ (- e)) == 1)%Q).
  { rewrite <- (pow2_Z (- e)) by lia. rewrite <- pow2_add.
    replace (e + - e)%Z with 0%Z by lia. reflexivity. }
  pose proof (pow2_pos e) as Pe.
  assert (Ey : (q / 2 ^ e == inject_Z (z * 2 ^ (- e)))%Q).
  { rewrite inject_Z_mult. fold q. unfold Qdiv.
    assert (Ea : (/ 2 ^ e == inject_Z (2 ^ (- e)))%Q).
    { transitivity ((2 ^ e * inject_Z (2 ^ (- e))) * / 2 ^ e)%Q;
        [rewrite Ek; ring|field; lra]. }
    rewrite Ea. reflexivity. }
  rewrite (rne_proper _ _ Ey), rne_Z, inject_Z_mult. fold q.
  rewrite <- Qmult_assoc, (Qmult_comm (inject_Z _)), Ek. ring.
Qed.

Lemma num_of_nat_exact n :
  0 < n -> (Z.of_nat n < 2 ^ 53)%Z ->
  num_of_nat n = Fin (inject_Z (Z.of_nat n)).
Proof.
  intros H0 H1. unfold num_of_nat. set (z := Z.of_nat n) in *.
  assert (Hz : (0 < z)%Z) by (unfold z; lia).
  pose proof (nearest_int z Hz H1) as Hn.
  assert (Hq : (0 < inject_Z z)%Q)
    by (change 0%Q with (inject_Z 0); apply inject_Z_lt; exact Hz).
  unfold round.
  rewrite (proj1 (Qgt_alt _ _) Hq). unfold pack.
  assert (Hlt : (inject_Z z < 2 ^ 1024)%Q).
  { apply (Qlt_trans _ (2 ^ 53)); [|apply pow2_lt; lia].
    rewrite (pow2_Z 53) by lia. apply inject_Z_lt. exact H1. }
  assert (E1 : Qle_bool (2 ^ 1024) (nearest (inject_Z z)) = false)
    by (apply Qle_bool_false; lra).
  assert (E2 : Qeq_bool (nearest (inject_Z z)) 0 = false).
  { destruct (Qeq_bool _ 0) eqn:E; [|reflexivity].
    apply Qeq_bool_iff in E. lra. }
  rewrite E1, E2. f_equal.
  rewrite (Qred_complete _ _ Hn). apply Qred_inject_Z.
Qed.

(** Below [2^53], [retries++] on the number is [+ 1] on the natural number. *)
Lemma counter_is_exact n :
  (Z.of_nat n + 1 < 2 ^ 53)%Z ->
  add (num_of_nat n) (Fin 1) = num_of_nat (n + 1).
Proof.
  intros H. destruct n as [|n].
  - rewrite (num_of_nat_exact (0 + 1)) by lia. reflexivity.
  - rewrite (num_of_nat_exact (S n)) by lia.
    unfold add, num_of_nat.
    assert (Hq : (0 < inject_Z (Z.of_nat (S n)) + 1)%Q).
    { assert (0 < inject_Z (Z.of_nat (S n)))%Q
        by (change 0%Q with (inject_Z 0); apply inject_Z_lt; lia).
      lra. }
    apply (round_proper _ _ Hq).
    rewrite Nat2Z.inj_add, inject_Z_plus. reflexivity.
Qed.

(** At [2^53] the code's counter stops: [2^53 + 1] rounds back to [2^53]. *)
Example counter_stops_at_2_53 :
  add (Fin 9007199254740992) (Fin 1) = Fin 9007199254740992
  /\ of_float (9007199254740992 + 1)%float = Fin 9007199254740992.
Proof. vm_compute. split; reflexivity. Qed.

(** ** Agreement with the kernel's binary64 numbers

    Products, sums and comparisons of the sample values, all against all,
    are those of the kernel's primitive floating-point numbers, bit for
    bit. *)

Example mul_agrees_with_binary64 : all_pairs agree_mul samples = true.
Proof. vm_compute. reflexivity. Qed.

Example add_agrees_with_binary64 : all_pairs agree_add samples = true.
Proof. vm_compute. reflexivity. Qed.

Example leb_agrees_with_binary64 : all_pairs agree_leb samples = true.
Proof. vm_compute. reflexivity. Qed.

Example largest_draw_plus_1 :
  add (of_float 0x1.fffffffffffffp-1%float) (Fin 1) = Fin 2
  /\ of_float (0x1.fffffffffffffp-1 + 1)%float = Fin 2.
Proof. vm_compute. split; reflexivity. Qed.

(** With an initial interval of zero the expression is [0 * Infinity] from
    the 1025th computation on. *)
Lemma pow_overflows_at_1024 n s :
  1024 <= n ->
  Math_pow (Fin 2) n = Inf false
  /\ backoff_term (Fin 1) (Zero s) n = NaN
  /\ Math_min (backoff_term (Fin 1) (Zero s) n) (Fin 300000) = NaN.
Proof.
  intros Hn. destruct (Math_pow_2 n) as [(Hlt & _)|(_ & E)]; [lia|].
  unfold backoff_term. rewrite E. repeat split; reflexivity.
Qed.

Example default_ceiling : mul (mul (Fin 5) (Fin 60)) (Fin 1000) = Fin 300000.
Proof. vm_compute. reflexivity. Qed.

#[global] Arguments round : simpl never.
#[global] Arguments mul : simpl never.
#[global] Arguments add : simpl never.
#[global] Arguments Math_pow : simpl never.
#[global] Arguments Math_min : simpl never.
#[global] Arguments num_of_nat : simpl never.

(** ** The backoff expression for any initial interval but zero and NaN *)

Lemma pack_number neg r : leb (pack neg r) (pack neg r) = true.
Proof.
  unfold pack. destruct (Qle_bool (2 ^ 1024) r); [destruct neg; reflexivity|].
  destruct (Qeq_bool r 0); [apply Qle_bool_iff; apply Qle_refl|].
  apply Qle_bool_iff. apply Qle_refl.
Qed.

(** Rounding never yields NaN. *)
Lemma round_number q : leb (round q) (round q) = true.
Proof.
  unfold round. destruct (q ?= 0)%Q; [reflexivity|apply pack_number..].
Qed.

Lemma pack_nonzero neg r : (0 < r)%Q -> is_nonzero (pack neg r) = true.
Proof.
  intros Hr. unfold pack. destruct (Qle_bool (2 ^ 1024) r); [reflexivity|].
  destruct (Qeq_bool r 0) eqn:E; [|reflexivity].
  apply Qeq_bool_iff in E. lra.
Qed.

Lemma is_double_neg t : (t < 0)%Q -> is_double (Fin t) = true -> dbl (- t).
Proof.
  intros Ht H. unfold is_double, round in H.
  rewrite (proj1 (Qlt_alt _ _) Ht) in H. unfold pack in H.
  destruct (Qle_bool (2 ^ 1024) (nearest (- t))) eqn:E1; [discriminate H|].
  destruct (Qeq_bool (nearest (- t)) 0) eqn:E2; [discriminate H|].
  apply Qeq_bool_iff in H. rewrite Qred_correct in H.
  apply Qle_bool_false in E1.
  split; [lra|]. split; lra.
Qed.

Lemma posn_nonzero x : posn x -> is_nonzero x = true.
Proof. destruct x as [|[]|[]|q]; simpl; tauto. Qed.

(** [R * T] is neither zero nor NaN when [T] is not. *)
Lemma mul_factor_nonzero R T :
  leb (Fin 1) R = true -> leb R (Fin 2) = true ->
  is_nonzero T = true -> is_double T = true ->
  is_nonzero (mul R T) = true.
Proof.
  intros H1 H2 HT HD. destruct (between_1_2 R H1 H2) as (r & -> & Hr).
  destruct T as [|s|s|t]; try discriminate HT; [reflexivity|].
  destruct (Qlt_le_dec 0 t) as [Hp|Hn].
  - apply posn_nonzero. apply mul_factor_posn; try assumption.
    apply is_double_dbl; assumption.
  - assert (Ht : (t < 0)%Q).
    { destruct (Qeq_dec t 0) as [E|NE]; [|lra].
      exfalso. unfold is_double, round in HD.
      rewrite (proj1 (Qeq_alt _ _) E) in HD. discriminate HD. }
    pose proof (is_double_neg t Ht HD) as (D1 & D2 & D3).
    rewrite mul_Fin. unfold round.
    assert (Hrt : (r * t < 0)%Q) by nra.
    rewrite (proj1 (Qlt_alt _ _) Hrt). apply pack_nonzero.
    assert (Hle : (- t <= - (r * t))%Q) by nra.
    pose proof (nearest_mono (- t) (- (r * t)) D1 Hle). lra.
Qed.

Lemma mul_number x p :
  is_nonzero x = true -> posn p -> leb (mul x p) (mul x p) = true.
Proof.
  intros Hx Hp.
  destruct (posn_inv p Hp) as [->|(c & -> & Hc)];
    destruct x as [|[]|[]|a]; try discriminate Hx;
    first [ reflexivity
          | rewrite mul_Fin; apply round_number
          | unfold mul; simpl;
            match goal with
            | |- context [Qle_bool ?u ?v] => destruct (Qle_bool u v)
            end; reflexivity ].
Qed.

Lemma backoff_term_number R T n :
  leb (Fin 1) R = true -> leb R (Fin 2) = true ->
  is_nonzero T = true -> is_double T = true ->
  leb (backoff_term R T n) (backoff_term R T n) = true.
Proof.
  intros H1 H2 HT HD. unfold backoff_term. apply mul_number.
  - apply mul_factor_nonzero; assumption.
  - apply Math_pow_2_posn.
Qed.

Lemma Math_min_le_number x y :
  leb x x = true -> leb y y = true -> leb (Math_min x y) y = true.
Proof.
  intros Hx Hy. destruct x as [|[]|[]|a], y as [|[]|[]|b];
    try discriminate Hx; try discriminate Hy; try reflexivity;
    unfold Math_min; num_cases.
Qed.

Example first_connect_trace :
  let s := run (ReconnectingWebSocket "ws://h" None)
             [WsOpen 0 (JEvent "o"); HostTick; WsClose 0 (JEvent "c"); HostTick; HostTick; HostTick] in
  (List.map inv_cb (invoked s), ws s, retry_timers s, readyState s)
  = ([onconnecting; onopen; onconnecting; onclose; onreconnect], None,
     [Fin 5000], CONNECTING).
Proof. vm_compute. reflexivity. Qed.

Example backoff_trace :
  intervals [Zero false; Fin (1 # 2); Zero false]
    (ReconnectingWebSocket "ws://h" None)
  = [Fin 5000; Fin 15000; Fin 20000].
Proof. vm_compute. reflexivity. Qed.

Section Invariants.

Variable I : State -> Prop.
Hypothesis I_after : forall s e, I s -> I (after s e).

Lemma run_invariant (es : list Event) : forall s, I s -> I (run s es).
Proof.
  induction es as [|e es IH]; intros s Hs; simpl; [exact Hs|].
  apply IH. apply I_after. exact Hs.
Qed.

End Invariants.

Lemma run_app s es1 es2 : run s (es1 ++ es2) = run (run s es1) es2.
Proof. unfold run. apply fold_left_app. Qed.

Lemma run_snoc s es e : run s (es ++ [e]) = after (run s es) e.
Proof. rewrite run_app. reflexivity. Qed.

(** An event of a socket can only come from the socket [ws] refers to. *)
Lemma live_socket_is_ws s i a :
  Inv s -> sockets s !! i = Some a -> sock a <> CLOSED -> ws s = Some i.
Proof.
  intros HI Hl Hne. pose proof (inv_sockets s HI i a Hl) as Hok.
  unfold attempt_ok in Hok. destruct (decide (ws s = Some i)) as [E|E]; [exact E|].
  destruct Hok as [Hc _]. contradiction.
Qed.

Lemma armed_timer_is_ws s i a d :
  Inv s -> sockets s !! i = Some a -> timeout a = Some d -> ws s = Some i.
Proof.
  intros HI Hl Ht. pose proof (inv_sockets s HI i a Hl) as Hok.
  unfold attempt_ok in Hok. destruct (decide (ws s = Some i)) as [E|E]; [exact E|].
  destruct Hok as [_ Hn]. congruence.
Qed.

Lemma sock_state_lookup s i a : sockets s !! i = Some a -> sock_state i s = sock a.
Proof. intros H. unfold sock_state. rewrite H. reflexivity. Qed.

(** Changing the record of the socket [ws] refers to, keeping it unclosed. *)
Lemma Inv_alter_live s i f :
  Inv s -> ws s = Some i ->
  (forall a, sock a <> CLOSED -> sock (f a) <> CLOSED) ->
  Inv (set_sockets (alter f i (sockets s)) s).
Proof.
  intros HI Hws Hf. destruct HI as [H1 H2 H3 H4 H6 H5].
  constructor; simpl; auto.
  - intros j a Hl. destruct (decide (i = j)) as [->|Hne].
    + rewrite list_lookup_alter_eq in Hl.
      destruct (sockets s !! j) as [b|] eqn:Hb; simpl in Hl; [|discriminate].
      injection Hl as <-. specialize (H1 j b Hb). unfold attempt_ok in *.
      destruct (decide (ws s = Some j)); [auto|contradiction].
    + rewrite list_lookup_alter_ne in Hl by exact Hne. auto.
  - intros j Hj. rewrite length_alter. auto.
Qed.

Lemma Inv_sock_close s i : Inv s -> ws s = Some i -> Inv (sock_close i s).
Proof.
  intros HI Hws. unfold sock_close.
  destruct (sock_state i s); try exact HI;
    (apply Inv_alter_live; [exact HI|exact Hws|simpl; congruence]).
Qed.

Lemma Inv_connect s v :
  Inv s -> ws s = None -> retry_timers s = [] -> Inv (connect v s).
Proof.
  intros [H1 H2 H3 H4 H6 H5] Hws Hr. unfold connect.
  constructor; simpl; auto.
  - intros j a Hl. unfold attempt_ok.
    destruct (decide (j = length (sockets s))) as [->|Hne].
    + rewrite list_lookup_middle in Hl by reflexivity. injection Hl as <-.
      rewrite decide_True by reflexivity. simpl. congruence.
    + rewrite decide_False by congruence.
      apply lookup_app_Some in Hl as [Hl|[Hge Hl]].
      * specialize (H1 j a Hl). unfold attempt_ok in H1.
        rewrite Hws in H1. rewrite decide_False in H1 by congruence. exact H1.
      * destruct (j - length (sockets s)) as [|k] eqn:Hk; [lia|].
        simpl in Hl. discriminate.
  - intros j Hj. injection Hj as <-. rewrite length_app. simpl. lia.
Qed.

(** [Inv] reads five components only. *)
Lemma Inv_frame s s' :
  sockets s' = sockets s -> ws s' = ws s -> retry_timers s' = retry_timers s ->
  forcedClose s' = forcedClose s -> timedOut s' = timedOut s ->
  Inv s -> Inv s'.
Proof.
  intros E1 E2 E3 E4 E5 [H1 H2 H3 H4 H5].
  constructor; rewrite ?E1, ?E2, ?E3, ?E4, ?E5; assumption.
Qed.

(** Changing a closure without touching its socket or re-arming its timer. *)
Lemma Inv_alter_closure s i f :
  Inv s ->
  (forall a, sock (f a) = sock a) ->
  (forall a, timeout a = None -> timeout (f a) = None) ->
  Inv (set_sockets (alter f i (sockets s)) s).
Proof.
  intros [H1 H2 H3 H4 H6 H5] Hs Ht.
  constructor; simpl; auto.
  - intros j a Hl. destruct (decide (i = j)) as [->|Hne].
    + rewrite list_lookup_alter_eq in Hl.
      destruct (sockets s !! j) as [b|] eqn:Hb; simpl in Hl; [|discriminate].
      injection Hl as <-. specialize (H1 j b Hb). unfold attempt_ok in *.
      destruct (decide (ws s = Some j)); rewrite Hs; [exact H1|].
      destruct H1 as [Hc Hn]. split; [exact Hc|apply Ht; exact Hn].
    + rewrite list_lookup_alter_ne in Hl by exact Hne. auto.
  - intros j Hj. rewrite length_alter. auto.
Qed.

Lemma Inv_clearTimeout s i : Inv s -> Inv (clearTimeout i s).
Proof. intros HI. apply Inv_alter_closure; auto. Qed.

Lemma Inv_set_reconnectAttempt s i v : Inv s -> Inv (set_reconnectAttempt i v s).
Proof. intros HI. apply Inv_alter_closure; auto. Qed.

(** The socket [ws] refers to closes and the handler drops the reference. *)
Lemma Inv_closed s s' i :
  Inv s -> ws s = Some i ->
  sockets s' =
    alter (fun a => mkAttempt (sock a) (reconnectAttempt a) None) i
      (alter (fun a => mkAttempt CLOSED (reconnectAttempt a) (timeout a)) i
         (sockets s)) ->
  ws s' = None ->
  (forcedClose s' = true -> retry_timers s' = []) ->
  length (retry_timers s') <= 1 ->
  timedOut s' = false ->
  Inv s'.
Proof.
  intros [H1 H2 H3 H4 H6 H5] Hws Es Ew Hr Hone Ht.
  constructor; rewrite ?Es, ?Ew; auto; try discriminate.
  intros j a Hl. unfold attempt_ok. rewrite decide_False by discriminate.
  destruct (decide (i = j)) as [->|Hne].
  - rewrite !list_lookup_alter_eq in Hl.
    destruct (sockets s !! j) as [b|]; simpl in Hl; [|discriminate].
    injection Hl as <-. simpl. auto.
  - rewrite !list_lookup_alter_ne in Hl by exact Hne.
    specialize (H1 j a Hl). unfold attempt_ok in H1.
    rewrite decide_False in H1 by congruence. exact H1.
Qed.

Lemma ws_onopen_live s i ev :
  ws s = Some i ->
  ws_onopen i ev s =
    Return JUndefined
      (defer (call_onopen ev)
         (set_reconnectAttempt i (JBool false)
            (resetReconnectInterval
               (clearTimeout i (set_readyState (sock_state i s) s))))).
Proof. intros H. unfold ws_onopen. rewrite H. reflexivity. Qed.

Lemma Inv_ReconnectingWebSocket u p : Inv (ReconnectingWebSocket u p).
Proof.
  unfold ReconnectingWebSocket. apply Inv_connect; [|reflexivity|reflexivity].
  constructor; simpl; try discriminate; auto.
Qed.

Lemma Inv_after s e : Inv s -> Inv (after s e).
Proof.
  intros HI. unfold after.
  destruct e as [i ev|i ev|i ev|i ev|i|u| |data| | |cb h|f v]; simpl.
  - (* the socket opens *)
    destruct (sockets s !! i) as [a|] eqn:Ha; simpl; [|exact HI].
    destruct (sock a) eqn:Hs; try exact HI.
    assert (Hws : ws s = Some i)
      by (apply (live_socket_is_ws s i a); [exact HI|exact Ha|congruence]).
    rewrite ws_onopen_live by exact Hws. simpl.
    eapply Inv_frame; [..|apply Inv_set_reconnectAttempt with (i:=i) (v:=JBool false);
                          apply Inv_clearTimeout with (i:=i);
                          apply (Inv_alter_live s i
                                   (fun a => mkAttempt OPEN (reconnectAttempt a) (timeout a)));
                          [exact HI|exact Hws|simpl; congruence]]; reflexivity.
  - (* the socket closes *)
    destruct (sockets s !! i) as [a|] eqn:Ha; simpl; [|exact HI].
    assert (Hcl : sock a = CLOSED \/ sock a <> CLOSED)
      by (destruct (sock a); auto; right; congruence).
    destruct Hcl as [Hcl|Hcl]; [rewrite Hcl; exact HI|].
    assert (Hws : ws s = Some i) by (apply (live_socket_is_ws s i a); auto).
    assert (Hstep : (match sock a with
                     | CLOSED => None
                     | _ => Some (ws_onclose i ev (set_sock i CLOSED s))
                     end) = Some (ws_onclose i ev (set_sock i CLOSED s)))
      by (destruct (sock a); congruence).
    rewrite Hstep. unfold ws_onclose. simpl. rewrite Hws.
    destruct (forcedClose s) eqn:Hf; simpl.
    + eapply (Inv_closed s _ i HI Hws); simpl; try reflexivity.
      * intros _. apply (inv_retry_forced s HI Hf).
      * apply (inv_retry_one s HI).
      * apply (inv_timedOut s HI).
    + destruct (negb _); simpl;
        (eapply (Inv_closed s _ i HI Hws); simpl; try reflexivity;
         [rewrite Hf; discriminate
         |rewrite (inv_retry_live s HI i Hws); simpl; lia
         |apply (inv_timedOut s HI)]).
  - (* a message arrives *)
    destruct (sockets s !! i) as [a|]; simpl; [|exact HI].
    destruct (sock a); try exact HI; simpl;
      (eapply Inv_frame; [..|exact HI]; reflexivity).
  - (* an error is reported *)
    destruct (sockets s !! i) as [a|]; simpl; [|exact HI].
    destruct (sock a); try exact HI; simpl;
      (eapply Inv_frame; [..|exact HI]; reflexivity).
  - (* the connect timeout fires *)
    destruct (sockets s !! i) as [a|] eqn:Ha; simpl; [|exact HI].
    destruct (timeout a) as [d|] eqn:Hd; simpl; [|exact HI].
    assert (Hws : ws s = Some i) by (apply (armed_timer_is_ws s i a d); auto).
    unfold timeout_cb.
    assert (H1 : Inv (clearTimeout i s)) by (apply Inv_clearTimeout; exact HI).
    assert (H2 : Inv (sock_close i (clearTimeout i s)))
      by (apply Inv_sock_close; [exact H1|exact Hws]).
    assert (E : forall x,
      set_timedOut false (sock_close i (set_timedOut true x))
      = set_timedOut false (sock_close i x)).
    { intros x. unfold sock_close, sock_state. simpl.
      destruct (default CLOSED (sock <$> sockets x !! i)); reflexivity. }
    rewrite E. eapply Inv_frame; [..|exact H2]; try reflexivity.
    simpl. symmetry. apply (inv_timedOut _ H2).
  - (* the backoff timer fires *)
    destruct (retry_timers s) as [|d rest] eqn:Hr; simpl; [exact HI|].
    assert (Hws : ws s = None).
    { destruct (ws s) as [j|] eqn:Hj; [|reflexivity].
      rewrite (inv_retry_live s HI j Hj) in Hr. discriminate. }
    assert (Hf : forcedClose s = false).
    { destruct (forcedClose s) eqn:Hf; [|reflexivity].
      rewrite (inv_retry_forced s HI Hf) in Hr. discriminate. }
    assert (Hrest : rest = []).
    { pose proof (inv_retry_one s HI) as Hone. rewrite Hr in Hone.
      destruct rest; [reflexivity|simpl in Hone; lia]. }
    subst rest. unfold retry_cb.
    assert (H1 : Inv (set_retry_timers [] s))
      by (destruct HI; constructor; simpl; auto).
    assert (H2 : Inv (connect (JBool true) (set_retry_timers [] s)))
      by (apply Inv_connect; [exact H1|exact Hws|reflexivity]).
    eapply Inv_frame; [..|exact H2]; reflexivity.
  - (* the host runs a deferred function *)
    destruct (deferred s) as [|t rest]; simpl; [exact HI|].
    destruct t; simpl; (eapply Inv_frame; [..|exact HI]; reflexivity).
  - (* send *)
    unfold send. destruct (ws s) as [j|]; simpl; [|exact HI].
    unfold sock_send. destruct (sock_state j s); simpl; try exact HI.
    eapply Inv_frame; [..|exact HI]; reflexivity.
  - (* close *)
    unfold close. destruct (ws s) as [j|] eqn:Hj; simpl; [|exact HI].
    apply Inv_sock_close; [|exact Hj].
    pose proof (inv_retry_live s HI j Hj) as Hr.
    destruct HI; constructor; simpl; auto.
  - (* refresh *)
    unfold refresh. destruct (ws s) as [j|] eqn:Hj; simpl; [|exact HI].
    apply Inv_sock_close; [exact HI|exact Hj].
  - (* the caller assigns a slot *)
    eapply Inv_frame; [..|exact HI]; reflexivity.
  - (* the caller assigns a tunable *)
    destruct f; simpl; (eapply Inv_frame; [..|exact HI]; reflexivity).
Qed.

Lemma Inv_run s es : Inv s -> Inv (run s es).
Proof. apply run_invariant. intros s0 e. apply Inv_after. Qed.

Lemma Inv_reachable u p es : Inv (run (ReconnectingWebSocket u p) es).
Proof. apply Inv_run. apply Inv_ReconnectingWebSocket. Qed.

(** ** Counting what the code asks the caller's callbacks for *)

Lemma count_invoked_snoc cb l x :
  count_invoked cb (l ++ [x])
  = count_invoked cb l + (if bool_decide (inv_cb x = cb) then 1 else 0).
Proof.
  unfold count_invoked. rewrite List.filter_app, length_app. simpl.
  destruct (bool_decide (inv_cb x = cb)); reflexivity.
Qed.

Lemma count_deferred_snoc cb l t :
  count_deferred cb (l ++ [t])
  = count_deferred cb l + (if bool_decide (thunk_cb t = cb) then 1 else 0).
Proof.
  unfold count_deferred. rewrite List.filter_app, length_app. simpl.
  destruct (bool_decide (thunk_cb t = cb)); reflexivity.
Qed.

Lemma emitted_frame cb s s' :
  invoked s' = invoked s -> deferred s' = deferred s ->
  emitted cb s' = emitted cb s.
Proof. intros E1 E2. unfold emitted. rewrite E1, E2. reflexivity. Qed.

Lemma emitted_defer cb t s :
  emitted cb (defer t s)
  = emitted cb s + (if bool_decide (thunk_cb t = cb) then 1 else 0).
Proof. unfold emitted, defer. simpl. rewrite count_deferred_snoc. lia. Qed.

Lemma emitted_invoke cb via c args s :
  emitted cb (invoke via c args s)
  = emitted cb s + (if bool_decide (c = cb) then 1 else 0).
Proof. unfold emitted, invoke. simpl. rewrite count_invoked_snoc. simpl. lia. Qed.

(** Running a deferred function moves one request from the queue to the log. *)
Lemma emitted_run_thunk cb t rest s :
  deferred s = t :: rest ->
  emitted cb (run_thunk t (set_deferred rest s)) = emitted cb s.
Proof.
  intros Hd. unfold emitted at 2. rewrite Hd.
  destruct t; simpl; rewrite emitted_invoke; unfold emitted, count_deferred; simpl;
    destruct (bool_decide _); simpl; lia.
Qed.

(** ** The host's queue *)

Lemma run_thunk_spec t s :
  run_thunk t s = set_invoked (invoked s ++ [thunk_invocation s t]) s.
Proof. destruct t; reflexivity. Qed.

Lemma thunk_invocation_frame s' s t :
  handlers s' = handlers s -> retries s' = retries s ->
  reconnectInterval s' = reconnectInterval s ->
  thunk_invocation s' t = thunk_invocation s t.
Proof. intros E1 E2 E3. destruct t; simpl; rewrite ?E1, ?E2, ?E3; reflexivity. Qed.

Lemma after_HostTick s t rest :
  deferred s = t :: rest ->
  after s HostTick = run_thunk t (set_deferred rest s).
Proof. intros H. unfold after. simpl. rewrite H. reflexivity. Qed.

Lemma drain_queue q :
  forall s,
    deferred s = q ->
    run s (host_ticks (length q))
    = set_invoked (invoked s ++ List.map (thunk_invocation s) q)
        (set_deferred [] s).
Proof.
  induction q as [|t q IH]; intros s Hq.
  - simpl. destruct s; simpl in *; subst. rewrite app_nil_r. reflexivity.
  - simpl. rewrite (after_HostTick s t q Hq), run_thunk_spec.
    rewrite IH by reflexivity. simpl. rewrite <- app_assoc. simpl.
    rewrite (thunk_invocation_frame (set_deferred q s) s t) by reflexivity.
    rewrite (List.map_ext _ (thunk_invocation s))
      by (intros t0; apply thunk_invocation_frame; reflexivity).
    reflexivity.
Qed.

Lemma settle_spec s :
  settle s
  = set_invoked (invoked s ++ List.map (thunk_invocation s) (deferred s))
      (set_deferred [] s).
Proof. apply drain_queue. reflexivity. Qed.

Lemma thunk_invocation_cb s t : inv_cb (thunk_invocation s t) = thunk_cb t.
Proof. destruct t; reflexivity. Qed.

Lemma count_invoked_app cb l1 l2 :
  count_invoked cb (l1 ++ l2) = count_invoked cb l1 + count_invoked cb l2.
Proof. unfold count_invoked. rewrite List.filter_app, length_app. reflexivity. Qed.

Lemma count_invoked_thunks cb s q :
  count_invoked cb (List.map (thunk_invocation s) q) = count_deferred cb q.
Proof.
  unfold count_invoked, count_deferred. induction q as [|t q IH]; [reflexivity|].
  simpl. rewrite thunk_invocation_cb.
  destruct (bool_decide (thunk_cb t = cb)); simpl; rewrite IH; reflexivity.
Qed.

(** Once the queue has run, what was asked for has been called. *)
Lemma count_invoked_settle cb s :
  count_invoked cb (invoked (settle s)) = emitted cb s.
Proof.
  rewrite settle_spec. simpl. rewrite count_invoked_app, count_invoked_thunks.
  reflexivity.
Qed.

(** ** The close handler, case by case *)

Lemma after_WsClose s i a ev :
  sockets s !! i = Some a -> sock a <> CLOSED ->
  after s (WsClose i ev) = state_of (ws_onclose i ev (set_sock i CLOSED s)).
Proof.
  intros Ha Hs. unfold after. simpl. rewrite Ha. simpl.
  destruct (sock a); try reflexivity. congruence.
Qed.

Lemma after_WsOpen s i a ev :
  sockets s !! i = Some a -> sock a = CONNECTING ->
  after s (WsOpen i ev) = state_of (ws_onopen i ev (set_sock i OPEN s)).
Proof. intros Ha Hs. unfold after. simpl. rewrite Ha. simpl. rewrite Hs. reflexivity. Qed.

Lemma get_reconnectAttempt_closed s i a :
  sockets s !! i = Some a ->
  get_reconnectAttempt i
    (set_ws None (clearTimeout i (set_readyState CLOSED (set_sock i CLOSED s))))
  = reconnectAttempt a.
Proof.
  intros Ha. unfold get_reconnectAttempt. simpl.
  rewrite !list_lookup_alter_eq, Ha. reflexivity.
Qed.

(** The three requests of the retry branch, with the one that is conditional. *)
Lemma ws_onclose_unplanned s i j ev :
  ws s = Some j -> forcedClose s = false ->
  let s1 := set_ws None (clearTimeout i (set_readyState (sock_state j s) s)) in
  let quiet := truthy (get_reconnectAttempt i s1) || timedOut s in
  exists s',
    ws_onclose i ev s = Return JUndefined s' /\
    ws s' = None /\
    readyState s' = CONNECTING /\
    retry_timers s' = retry_timers s ++ [reconnectInterval s] /\
    invoked s' = invoked s /\
    deferred s' =
      deferred s ++ [call_onconnecting]
        ++ (if quiet then [] else [call_onclose ev]) ++ [call_onreconnect].
Proof.
  intros Hws Hf. unfold ws_onclose. rewrite Hws. simpl. rewrite Hf.
  destruct (truthy _ || timedOut s) eqn:Hq; simpl;
    eexists; (split; [reflexivity|]); simpl; repeat split;
    rewrite <- ?app_assoc; reflexivity.
Qed.

Lemma ws_onclose_forced s i j ev :
  ws s = Some j -> forcedClose s = true ->
  ws_onclose i ev s =
    Return JUndefined
      (invoke Direct onclose [ev]
         (set_ws None (clearTimeout i (set_readyState (sock_state j s) s)))).
Proof. intros Hws Hf. unfold ws_onclose. rewrite Hws. simpl. rewrite Hf. reflexivity. Qed.

(** ** What [reconnectAttempt] holds in reachable states *)

Lemma Flags_frame s s' :
  sockets s' = sockets s -> url s' = url s -> Flags s -> Flags s'.
Proof. intros E1 E2 [H1 H2]. constructor; rewrite ?E1, ?E2; assumption. Qed.

Lemma Flags_alter s s' i f :
  Flags s ->
  sockets s' = alter f i (sockets s) -> url s' = url s ->
  (forall a, sockets s !! i = Some a -> flag_ok (url s) i (f a)) ->
  Flags s'.
Proof.
  intros [H1 H2] Es Eu Hf. constructor; rewrite ?Es, ?Eu.
  - intros j a Hl. destruct (decide (i = j)) as [->|Hne].
    + rewrite list_lookup_alter_eq in Hl.
      destruct (sockets s !! j) as [b|] eqn:Hb; simpl in Hl; [|discriminate].
      injection Hl as <-. apply Hf. reflexivity.
    + rewrite list_lookup_alter_ne in Hl by exact Hne. auto.
  - intros E. apply (f_equal length) in E. rewrite length_alter in E.
    destruct (sockets s); [congruence|discriminate].
Qed.

Lemma Flags_sock_close s i : Flags s -> Flags (sock_close i s).
Proof.
  intros HF. unfold sock_close.
  destruct (sock_state i s); try exact HF;
    (eapply Flags_alter; [exact HF|reflexivity|reflexivity|]; intros; exact Logic.I).
Qed.

Lemma Flags_connect_retry s : Flags s -> Flags (connect (JBool true) s).
Proof.
  intros [H1 H2]. unfold connect. constructor; simpl.
  - intros j a Hl. apply lookup_app_Some in Hl as [Hl|[Hge Hl]]; [auto|].
    destruct (j - length (sockets s)) as [|k] eqn:Hk; simpl in Hl; [|discriminate].
    injection Hl as <-. unfold flag_ok. simpl.
    destruct j; [|reflexivity]. destruct (sockets s); [congruence|simpl in Hge; lia].
  - destruct (sockets s); discriminate.
Qed.

Lemma Flags_ReconnectingWebSocket u p : Flags (ReconnectingWebSocket u p).
Proof.
  constructor; simpl; [|discriminate].
  intros [|i] a Hl; simpl in Hl; [|discriminate].
  injection Hl as <-. reflexivity.
Qed.

Lemma Flags_after s e : Inv s -> Flags s -> Flags (after s e).
Proof.
  intros HI HF. unfold after.
  destruct e as [i ev|i ev|i ev|i ev|i|u| |data| | |cb h|f v]; simpl.
  - destruct (sockets s !! i) as [a|] eqn:Ha; simpl; [|exact HF].
    destruct (sock a) eqn:Hs; try exact HF.
    assert (Hws : ws s = Some i)
      by (apply (live_socket_is_ws s i a); [exact HI|exact Ha|congruence]).
    rewrite ws_onopen_live by exact Hws. simpl.
    eapply Flags_alter; [exact HF| |reflexivity|].
    + simpl. unfold set_reconnectAttempt, clearTimeout, set_sock. simpl.
      rewrite !list_alter_alter_eq. reflexivity.
    + intros b _. reflexivity.
  - destruct (sockets s !! i) as [a|] eqn:Ha; simpl; [|exact HF].
    assert (Hcl : sock a = CLOSED \/ sock a <> CLOSED)
      by (destruct (sock a); auto; right; congruence).
    destruct Hcl as [Hcl|Hcl]; [rewrite Hcl; exact HF|].
    assert (Hws : ws s = Some i) by (apply (live_socket_is_ws s i a); auto).
    assert (Hstep : (match sock a with
                     | CLOSED => None
                     | _ => Some (ws_onclose i ev (set_sock i CLOSED s))
                     end) = Some (ws_onclose i ev (set_sock i CLOSED s)))
      by (destruct (sock a); congruence).
    rewrite Hstep. unfold ws_onclose. simpl. rewrite Hws.
    destruct (forcedClose s); [|destruct (negb _)]; simpl;
      (eapply Flags_alter; [exact HF| |reflexivity|];
       [simpl; rewrite !list_alter_alter_eq; reflexivity|intros b _; exact Logic.I]).
  - destruct (sockets s !! i) as [a|]; simpl; [|exact HF].
    destruct (sock a); try exact HF; simpl;
      (eapply Flags_frame; [..|exact HF]; reflexivity).
  - destruct (sockets s !! i) as [a|]; simpl; [|exact HF].
    destruct (sock a); try exact HF; simpl;
      (eapply Flags_frame; [..|exact HF]; reflexivity).
  - destruct (sockets s !! i) as [a|] eqn:Ha; simpl; [|exact HF].
    destruct (timeout a) as [d|] eqn:Hd; simpl; [|exact HF].
    unfold timeout_cb.
    assert (H1 : Flags (set_timedOut true (clearTimeout i s))).
    { eapply Flags_alter; [exact HF|reflexivity|reflexivity|].
      intros b Hb. rewrite Ha in Hb. injection Hb as <-.
      apply (flags_ok s HF i a Ha). }
    eapply Flags_frame; [..|apply (Flags_sock_close _ i H1)]; reflexivity.
  - destruct (retry_timers s) as [|d rest] eqn:Hr; simpl; [exact HF|].
    unfold retry_cb.
    eapply Flags_frame;
      [..|apply (Flags_connect_retry (set_retry_timers rest s));
          eapply Flags_frame; [..|exact HF]; reflexivity]; reflexivity.
  - destruct (deferred s) as [|t rest]; simpl; [exact HF|].
    destruct t; simpl; (eapply Flags_frame; [..|exact HF]; reflexivity).
  - unfold send. destruct (ws s) as [j|]; simpl; [|exact HF].
    unfold sock_send. destruct (sock_state j s); simpl; try exact HF.
    eapply Flags_frame; [..|exact HF]; reflexivity.
  - unfold close. destruct (ws s) as [j|] eqn:Hj; simpl; [|exact HF].
    apply Flags_sock_close. eapply Flags_frame; [..|exact HF]; reflexivity.
  - unfold refresh. destruct (ws s) as [j|] eqn:Hj; simpl; [|exact HF].
    apply Flags_sock_close. exact HF.
  - eapply Flags_frame; [..|exact HF]; reflexivity.
  - destruct f; simpl; (eapply Flags_frame; [..|exact HF]; reflexivity).
Qed.

Lemma after_url s e : url (after s e) = url s.
Proof. destruct e; handler_cases; reflexivity. Qed.

Lemma Flags_reachable u p es :
  Flags (run (ReconnectingWebSocket u p) es)
  /\ url (run (ReconnectingWebSocket u p) es) = u.
Proof.
  assert (H : forall s, (Inv s /\ Flags s /\ url s = u) ->
                        forall l, Inv (run s l) /\ Flags (run s l) /\ url (run s l) = u).
  { intros s Hs l. revert s Hs.
    apply (run_invariant (fun s => Inv s /\ Flags s /\ url s = u)).
    intros s e (HI & HF & Hu). split; [apply Inv_after; exact HI|].
    split; [apply Flags_after; assumption|].
    rewrite after_url. exact Hu. }
  destruct (H (ReconnectingWebSocket u p)) with (l := es) as (_ & HF & Hu).
  - split; [apply Inv_ReconnectingWebSocket|].
    split; [apply Flags_ReconnectingWebSocket|reflexivity].
  - split; assumption.
Qed.

(** ** Which closes are reported *)

Lemma close_event_requests s i a ev :
  sockets s !! i = Some a -> sock a <> CLOSED ->
  ws s <> None -> forcedClose s = false ->
  let quiet := truthy (reconnectAttempt a) || timedOut s in
  let s' := after s (WsClose i ev) in
  invoked s' = invoked s /\
  deferred s' =
    deferred s ++ [call_onconnecting]
      ++ (if quiet then [] else [call_onclose ev]) ++ [call_onreconnect].
Proof.
  intros Ha Hs Hws Hf. simpl.
  rewrite (after_WsClose s i a ev Ha Hs).
  destruct (ws s) as [j|] eqn:Hj; [|congruence].
  destruct (ws_onclose_unplanned (set_sock i CLOSED s) i j ev)
    as (s' & E & _ & _ & _ & Hinv & Hdef); [exact Hj|exact Hf|].
  rewrite E. simpl. rewrite Hinv, Hdef. simpl. split; [reflexivity|].
  unfold get_reconnectAttempt. simpl.
  rewrite !list_lookup_alter_eq, Ha. reflexivity.
Qed.

Lemma close_event_counts s i a ev :
  sockets s !! i = Some a -> sock a <> CLOSED ->
  ws s <> None -> forcedClose s = false ->
  let s' := after s (WsClose i ev) in
  emitted onclose s'
  = emitted onclose s
    + (if truthy (reconnectAttempt a) || timedOut s then 0 else 1)
  /\ emitted onreconnect s' = emitted onreconnect s + 1
  /\ emitted onconnecting s' = emitted onconnecting s + 1.
Proof.
  intros Ha Hs Hws Hf.
  destruct (close_event_requests s i a ev Ha Hs Hws Hf) as [Hinv Hdef].
  simpl in *. unfold emitted. rewrite Hinv, Hdef. unfold count_deferred.
  rewrite !List.filter_app, !length_app.
  destruct (truthy (reconnectAttempt a) || timedOut s); simpl; lia.
Qed.

Lemma reachable_open_flag u p es i a :
  sockets (run (ReconnectingWebSocket u p) es) !! i = Some a ->
  sock a = OPEN -> reconnectAttempt a = JBool false.
Proof.
  intros Ha Hs. destruct (Flags_reachable u p es) as [HF _].
  pose proof (flags_ok _ HF i a Ha) as H. unfold flag_ok in H.
  rewrite Hs in H. exact H.
Qed.

Lemma reachable_connecting_flag u p es i a :
  sockets (run (ReconnectingWebSocket u p) es) !! i = Some a ->
  sock a = CONNECTING ->
  reconnectAttempt a = match i with 0 => JStr u | S _ => JBool true end.
Proof.
  intros Ha Hs. destruct (Flags_reachable u p es) as [HF Hu].
  pose proof (flags_ok _ HF i a Ha) as H. unfold flag_ok in H.
  rewrite Hs, Hu in H. exact H.
Qed.

Lemma reachable_live u p es i a :
  sockets (run (ReconnectingWebSocket u p) es) !! i = Some a ->
  sock a <> CLOSED -> ws (run (ReconnectingWebSocket u p) es) = Some i.
Proof. intros Ha Hs. eapply live_socket_is_ws; eauto. apply Inv_reachable. Qed.

(** The close handler touches neither the slots nor the backoff state. *)
Lemma after_WsClose_frame s i ev :
  handlers (after s (WsClose i ev)) = handlers s
  /\ retries (after s (WsClose i ev)) = retries s
  /\ reconnectInterval (after s (WsClose i ev)) = reconnectInterval s.
Proof. handler_cases; repeat split; reflexivity. Qed.

(** An unforced close, seen from the caller once the host has run the
    queue: [onconnecting], then [onclose] unless the attempt's
    [reconnectAttempt] is truthy or [timedOut] is set, then [onreconnect]. *)
Lemma close_event_delivered s i a ev :
  sockets s !! i = Some a -> sock a <> CLOSED ->
  ws s <> None -> forcedClose s = false ->
  invoked (settle (after s (WsClose i ev)))
  = invoked (settle s)
    ++ close_calls s ev (truthy (reconnectAttempt a) || timedOut s).
Proof.
  intros Ha Hs Hws Hf.
  destruct (close_event_requests s i a ev Ha Hs Hws Hf) as [Hinv Hdef].
  destruct (after_WsClose_frame s i ev) as (Eh & Er & Ei).
  cbv zeta in Hinv, Hdef. rewrite !settle_spec. simpl.
  rewrite Hinv, Hdef.
  rewrite (List.map_ext (thunk_invocation (after s (WsClose i ev)))
             (thunk_invocation s))
    by (intros t; apply thunk_invocation_frame; assumption).
  rewrite List.map_app, app_assoc. f_equal. unfold close_calls.
  destruct (truthy (reconnectAttempt a) || timedOut s); reflexivity.
Qed.

(** The connect timeout of a connecting socket: the socket starts closing,
    and by the time anything else runs [timedOut] is [false] again. *)
Lemma after_TimeoutFire s i a d :
  sockets s !! i = Some a -> sock a = CONNECTING -> timeout a = Some d ->
  let s1 := after s (TimeoutFire i) in
  sockets s1 !! i = Some (mkAttempt CLOSING (reconnectAttempt a) None)
  /\ timedOut s1 = false /\ forcedClose s1 = forcedClose s /\ ws s1 = ws s
  /\ invoked s1 = invoked s /\ deferred s1 = deferred s
  /\ handlers s1 = handlers s /\ retries s1 = retries s
  /\ reconnectInterval s1 = reconnectInterval s.
Proof.
  intros Ha Hs Hd. unfold after. simpl. rewrite Ha. simpl. rewrite Hd. simpl.
  unfold timeout_cb, sock_close, sock_state. simpl.
  rewrite list_lookup_alter_eq, Ha. simpl. rewrite Hs. simpl.
  rewrite !list_lookup_alter_eq, Ha. repeat split; reflexivity.
Qed.

(** C1 fails on the code, by the defect of C7: the constructor calls
    [connect(url)], so the first attempt holds a truthy [reconnectAttempt]
    until it opens.  For a socket of a reachable instance that closes
    unforced, the caller is called, once the host has run its queue, with
    [onconnecting], then [onclose] unless [reconnectAttempt] is truthy, then
    [onreconnect].  A socket that had opened yields its [onclose]; a retry
    attempt that never opened yields none; and so does the first attempt when
    it never opened, unless the URL is the empty string.  [timedOut] is
    [false] whenever a handler runs, so a close that the connect timeout
    brought about is told apart by [reconnectAttempt] alone. *)
Theorem C1_unopened_first_attempt_closes_silently url p es i a ev :
  let s := run (ReconnectingWebSocket url p) es in
  sockets s !! i = Some a -> sock a <> CLOSED -> forcedClose s = false ->
  let quiet := truthy (reconnectAttempt a) in
  timedOut s = false
  /\ invoked (settle (after s (WsClose i ev)))
     = invoked (settle s) ++ close_calls s ev quiet
  /\ count_invoked onclose (invoked (settle (after s (WsClose i ev))))
     = count_invoked onclose (invoked (settle s)) + (if quiet then 0 else 1)
  /\ (sock a = OPEN -> quiet = false)
  /\ (sock a = CONNECTING -> i <> 0 -> quiet = true)
  /\ (sock a = CONNECTING -> i = 0 -> quiet = negb (String.eqb url ""))
  /\ (sock a = CONNECTING -> timeout a <> None ->
      let s1 := after s (TimeoutFire i) in
      sock_state i s1 = CLOSING /\ timedOut s1 = false
      /\ invoked (settle (after s1 (WsClose i ev)))
         = invoked (settle s) ++ close_calls s ev quiet).
Proof.
  intros s Ha Hs Hf quiet.
  pose proof (Inv_reachable url p es) as HI. fold s in HI.
  pose proof (inv_timedOut s HI) as Ht.
  assert (Hws : ws s <> None)
    by (unfold s; rewrite (reachable_live url p es i a Ha Hs); discriminate).
  pose proof (close_event_delivered s i a ev Ha Hs Hws Hf) as Hd.
  rewrite Ht, orb_false_r in Hd. fold quiet in Hd.
  split; [exact Ht|]. split; [exact Hd|]. split.
  { rewrite Hd, count_invoked_app. f_equal. unfold close_calls.
    destruct quiet; reflexivity. }
  split.
  { intros Ho. unfold quiet.
    rewrite (reachable_open_flag url p es i a Ha Ho). reflexivity. }
  split.
  { intros Hc Hi. unfold quiet.
    rewrite (reachable_connecting_flag url p es i a Ha Hc).
    destruct i; [congruence|reflexivity]. }
  split.
  { intros Hc Hi. unfold quiet.
    rewrite (reachable_connecting_flag url p es i a Ha Hc). subst i. reflexivity. }
  intros Hc Hto s1.
  destruct (timeout a) as [d|] eqn:Hd'; [|congruence].
  destruct (after_TimeoutFire s i a d Ha Hc Hd')
    as (Ha1 & Ht1 & Hf1 & Hws1 & Hi1 & Hq1 & Hh1 & Hr1 & Hri1).
  fold s1 in Ha1, Ht1, Hf1, Hws1, Hi1, Hq1, Hh1, Hr1, Hri1.
  split; [rewrite (sock_state_lookup s1 i _ Ha1); reflexivity|].
  split; [exact Ht1|].
  rewrite (close_event_delivered s1 i _ ev Ha1); simpl;
    [|discriminate|rewrite Hws1; exact Hws|rewrite Hf1; exact Hf].
  rewrite Ht1, orb_false_r. fold quiet.
  rewrite !settle_spec, Hi1, Hq1.
  rewrite (List.map_ext (thunk_invocation s1) (thunk_invocation s))
    by (intros t; apply thunk_invocation_frame; assumption).
  unfold close_calls. rewrite Hh1, Hr1, Hri1. reflexivity.
Qed.

Lemma C1_witness :
  let s := run (ReconnectingWebSocket "ws://h" None) [] in
  let a := mkAttempt CONNECTING (JStr "ws://h") (Some (Fin 2000)) in
  invoked (settle (after s (WsClose 0 (JEvent "c"))))
  = invoked (settle s)
    ++ close_calls s (JEvent "c") (truthy (reconnectAttempt a))
  /\ count_invoked onclose (invoked (settle (after s (WsClose 0 (JEvent "c")))))
     = count_invoked onclose (invoked (settle s))
       + (if truthy (reconnectAttempt a) then 0 else 1).
Proof.
  assert (Ha : sockets (run (ReconnectingWebSocket "ws://h" None) []) !! 0
               = Some (mkAttempt CONNECTING (JStr "ws://h") (Some (Fin 2000))))
    by (vm_compute; reflexivity).
  assert (Hs : sock (mkAttempt CONNECTING (JStr "ws://h") (Some (Fin 2000)))
               <> CLOSED)
    by (simpl; discriminate).
  assert (Hf : forcedClose (run (ReconnectingWebSocket "ws://h" None) []) = false)
    by (vm_compute; reflexivity).
  pose proof (C1_unopened_first_attempt_closes_silently "ws://h" None [] 0
                (mkAttempt CONNECTING (JStr "ws://h") (Some (Fin 2000)))
                (JEvent "c") Ha Hs Hf) as H.
  cbv zeta in H. destruct H as (_ & H1 & H2 & _).
  cbv zeta. exact (conj H1 H2).
Defined.

(** ** One failed cycle *)

Lemma live_socket_lookup s i :
  Inv s -> ws s = Some i ->
  exists a, sockets s !! i = Some a /\ sock a <> CLOSED.
Proof.
  intros HI Hws. pose proof (inv_ws s HI i Hws) as Hlt.
  apply lookup_lt_is_Some_2 in Hlt as [a Ha]. exists a. split; [exact Ha|].
  pose proof (inv_sockets s HI i a Ha) as Hok. unfold attempt_ok in Hok.
  rewrite decide_True in Hok by exact Hws. exact Hok.
Qed.

(** The retry branch of the close handler leaves the backoff state alone and
    arms one timer with the current interval. *)
Lemma unplanned_close_state s i ev :
  Inv s -> ws s = Some i -> forcedClose s = false ->
  let s1 := after s (WsClose i ev) in
  ws s1 = None /\ forcedClose s1 = false /\
  readyState s1 = CONNECTING /\
  retry_timers s1 = [reconnectInterval s] /\
  retries s1 = retries s /\
  reconnectInterval s1 = reconnectInterval s /\
  initialReconnectInterval s1 = initialReconnectInterval s /\
  maxReconnectInterval s1 = maxReconnectInterval s /\
  length (sockets s1) = length (sockets s).
Proof.
  intros HI Hws Hf. destruct (live_socket_lookup s i HI Hws) as (a & Ha & Hs).
  simpl. rewrite (after_WsClose s i a ev Ha Hs).
  unfold ws_onclose. simpl. rewrite Hws. simpl. rewrite Hf.
  pose proof (inv_retry_live s HI i Hws) as Hr.
  destruct (negb _); simpl; rewrite Hr, !length_alter;
    repeat split; solve [reflexivity | exact Hf].
Qed.

Lemma after_RetryFire s d rest u :
  retry_timers s = d :: rest ->
  after s (RetryFire u) = retry_cb u (set_retry_timers rest s).
Proof. intros H. unfold after. simpl. rewrite H. reflexivity. Qed.

Lemma failed_cycle_spec s i u :
  Inv s -> ws s = Some i -> forcedClose s = false ->
  let s' := failed_cycle u s in
  reconnectInterval s'
  = Math_min
      (mul (mul (add u (Fin 1)) (initialReconnectInterval s))
         (Math_pow (Fin 2) (retries s)))
      (maxReconnectInterval s)
  /\ retries s' = retries s + 1
  /\ initialReconnectInterval s' = initialReconnectInterval s
  /\ maxReconnectInterval s' = maxReconnectInterval s
  /\ ws s' = Some (length (sockets s))
  /\ forcedClose s' = false
  /\ Inv s'.
Proof.
  intros HI Hws Hf s'.
  assert (HI' : Inv s').
  { unfold s', failed_cycle. rewrite Hws. apply Inv_run. exact HI. }
  unfold s', failed_cycle in *. rewrite Hws in *. simpl in *.
  destruct (unplanned_close_state s i (JEvent "close") HI Hws Hf)
    as (H1 & H2 & H3 & H4 & H5 & H6 & H7 & H8 & H9).
  simpl in *.
  rewrite (after_RetryFire _ _ _ u H4) in *.
  refine (conj _ (conj _ (conj _ (conj _ (conj _ (conj _ HI'))))));
    unfold retry_cb, updateReconnectInterval, connect; simpl;
    rewrite ?H2, ?H5, ?H7, ?H8, ?H9; reflexivity.
Qed.

(** C2, as amended.  The backoff computation stores
    [Math.min(R * T * Math.pow(2, N), M)], every operation rounded to
    binary64, with [R = Math.random() + 1], [T] the initial interval, [N] the
    old value of [retries] and [M] the ceiling, and then adds one to
    [retries]; every failed cycle of a reachable instance runs it exactly so.
    For every draw in [[0, 1)] the factor [R] lies in [[1, 2]], both ends
    included. *)
Theorem C2_backoff_computation (u : Num) :
  draw_ok u ->
  let R := add u (Fin 1) in
  (leb (Fin 1) R = true /\ leb R (Fin 2) = true)
  /\ (forall s,
         let s' := updateReconnectInterval u s in
         reconnectInterval s'
         = Math_min
             (mul (mul R (initialReconnectInterval s))
                (Math_pow (Fin 2) (retries s)))
             (maxReconnectInterval s)
         /\ retries s' = retries s + 1)
  /\ (forall url p es,
         let s := run (ReconnectingWebSocket url p) es in
         ws s <> None -> forcedClose s = false ->
         let s' := failed_cycle u s in
         reconnectInterval s'
         = Math_min
             (mul (mul R (initialReconnectInterval s))
                (Math_pow (Fin 2) (retries s)))
             (maxReconnectInterval s)
         /\ retries s' = retries s + 1).
Proof.
  intros Hu R. split; [exact (draw_plus_1 u Hu)|]. split.
  - intros s. split; reflexivity.
  - intros url0 p es s Hws Hf s'.
    destruct (ws s) as [i|] eqn:Hi; [|congruence].
    destruct (failed_cycle_spec s i u (Inv_reachable url0 p es) Hi Hf)
      as (E1 & E2 & _). split; assumption.
Qed.

Lemma C2_witness :
  let s := run (ReconnectingWebSocket "ws://h" None) [] in
  let s' := failed_cycle (Fin (1 # 2)) s in
  reconnectInterval s'
  = Math_min
      (mul (mul (add (Fin (1 # 2)) (Fin 1)) (initialReconnectInterval s))
         (Math_pow (Fin 2) (retries s)))
      (maxReconnectInterval s)
  /\ retries s' = retries s + 1.
Proof.
  assert (Hu : draw_ok (Fin (1 # 2))) by (split; vm_compute; reflexivity).
  assert (Hws : ws (run (ReconnectingWebSocket "ws://h" None) []) <> None)
    by (vm_compute; discriminate).
  assert (Hf : forcedClose (run (ReconnectingWebSocket "ws://h" None) []) = false)
    by (vm_compute; reflexivity).
  pose proof (proj2 (proj2 (C2_backoff_computation (Fin (1 # 2)) Hu))
                "ws://h" None [] Hws Hf) as H.
  cbv zeta in H. cbv zeta. exact H.
Defined.

(** C2 as stated fails at the largest value [Math.random()] can return,
    [1 - 2^-53]: the sum [Math.random() + 1] rounds to 2, so [R] is not below
    2, and the first backoff of a new instance is [2 * 5000]. *)
Lemma C2_counterexample :
  let u := Fin (9007199254740991 # 9007199254740992) in
  u = of_float 0x1.fffffffffffffp-1%float
  /\ is_double u = true
  /\ draw_ok u
  /\ add u (Fin 1) = Fin 2
  /\ ltb (add u (Fin 1)) (Fin 2) = false
  /\ intervals [u] (ReconnectingWebSocket "ws://h" None) = [Fin 10000].
Proof. vm_compute. repeat split; reflexivity. Qed.

(** ** A run of failed cycles *)

Lemma update_in_window T M n u :
  posn T -> is_double T = true -> leb M M = true -> draw_ok u ->
  in_window T M n (Math_min (backoff_term (add u (Fin 1)) T n) M).
Proof.
  intros HT HD HM Hu. destruct (draw_plus_1 u Hu) as [H1 H2].
  split; apply Math_min_mono_ceiling; try exact HM.
  - apply backoff_term_posn; try assumption; reflexivity.
  - apply backoff_term_mono; try assumption; reflexivity.
  - apply backoff_term_posn; assumption.
  - apply backoff_term_mono; try assumption. reflexivity.
Qed.

Lemma intervals_windows us :
  forall s,
    Inv s -> ws s <> None -> forcedClose s = false ->
    posn (initialReconnectInterval s) ->
    is_double (initialReconnectInterval s) = true ->
    leb (maxReconnectInterval s) (maxReconnectInterval s) = true ->
    Forall draw_ok us ->
    windows (initialReconnectInterval s) (maxReconnectInterval s)
      (retries s) (intervals us s).
Proof.
  induction us as [|u us IH]; intros s HI Hws Hf HT HD HM Hus; simpl;
    [exact Logic.I|].
  destruct (ws s) as [i|] eqn:Hi; [|congruence].
  destruct (failed_cycle_spec s i u HI Hi Hf) as (E1 & E2 & E3 & E4 & E5 & E6 & E7).
  inversion Hus as [|? ? Hu Hus']; subst.
  split.
  - rewrite E1. apply update_in_window; assumption.
  - specialize (IH (failed_cycle u s) E7).
    rewrite E2, E3, E4, Nat.add_1_r in IH. apply IH; try assumption.
    rewrite E5. discriminate.
Qed.

Lemma windows_le_max T M vs :
  posn T -> is_double T = true -> leb M M = true ->
  forall n, windows T M n vs -> Forall (fun v => leb v M = true) vs.
Proof.
  intros HT HD HM. induction vs as [|v vs IH]; intros n H; constructor.
  - destruct H as [[_ Hv] _]. apply (leb_trans _ _ _ Hv).
    apply Math_min_le_ceiling; [|exact HM].
    apply backoff_term_posn; try assumption; reflexivity.
  - destruct H as [_ H]. exact (IH _ H).
Qed.

Lemma window_ge_initial T M n :
  posn T -> is_double T = true -> leb T M = true ->
  leb T (Math_min (backoff_term (Fin 1) T n) M) = true.
Proof.
  intros HT HD HM. apply Math_min_glb; [exact HT| |exact HM].
  apply backoff_term_ge; assumption.
Qed.

Lemma windows_ge_initial T M vs :
  posn T -> is_double T = true -> leb T M = true ->
  forall n, windows T M n vs -> Forall (fun v => leb T v = true) vs.
Proof.
  intros HT HD HM. induction vs as [|v vs IH]; intros n H; constructor.
  - destruct H as [[Hv _] _]. apply (leb_trans _ _ _ (window_ge_initial T M n HT HD HM)).
    exact Hv.
  - destruct H as [_ H]. exact (IH _ H).
Qed.

Lemma windows_nondecreasing T M vs :
  posn T -> is_double T = true -> leb M M = true ->
  forall n prev,
    leb prev (Math_min (backoff_term (Fin 1) T n) M) = true ->
    windows T M n vs -> nondecreasing prev vs.
Proof.
  intros HT HD HM.
  induction vs as [|v vs IH]; intros n prev Hp H; simpl; [exact Logic.I|].
  destruct H as [[Hlo Hhi] H]. split; [apply (leb_trans _ _ _ Hp Hlo)|].
  apply (IH (S n)); [|exact H].
  apply (leb_trans _ _ _ Hhi). apply Math_min_mono_ceiling; [| |exact HM].
  - apply backoff_term_posn; try assumption; reflexivity.
  - apply backoff_term_step; assumption.
Qed.

Lemma Forall_both {A} (P Q : A -> Prop) l :
  Forall P l -> Forall Q l -> Forall (fun x => P x /\ Q x) l.
Proof. induction 1; intros H2; inversion H2; subst; constructor; auto. Qed.

(** The ceiling holds for any initial interval but zero and NaN. *)
Lemma intervals_le_max us :
  forall s,
    Inv s -> ws s <> None -> forcedClose s = false ->
    is_nonzero (initialReconnectInterval s) = true ->
    is_double (initialReconnectInterval s) = true ->
    leb (maxReconnectInterval s) (maxReconnectInterval s) = true ->
    Forall draw_ok us ->
    Forall (fun v => leb v (maxReconnectInterval s) = true) (intervals us s).
Proof.
  induction us as [|u us IH]; intros s HI Hws Hf HT HD HM Hus; simpl;
    [constructor|].
  destruct (ws s) as [i|] eqn:Hi; [|congruence].
  destruct (failed_cycle_spec s i u HI Hi Hf) as (E1 & E2 & E3 & E4 & E5 & E6 & E7).
  inversion Hus as [|? ? Hu Hus']; subst.
  constructor.
  - rewrite E1. destruct (draw_plus_1 u Hu) as [H1 H2].
    apply Math_min_le_number; [|exact HM].
    apply (backoff_term_number _ _ (retries s) H1 H2 HT HD).
  - specialize (IH (failed_cycle u s) E7).
    rewrite E3, E4 in IH. apply IH; try assumption.
    rewrite E5. discriminate.
Qed.

(** C3, as amended.  From a fresh state of a reachable instance with a live
    socket and draws in [[0, 1)], over any number of failed cycles, with [T]
    the initial interval and [M] the ceiling, a number: if [T] is neither
    zero nor NaN, every value of [reconnectInterval] is at most [M]; if [T]
    is above zero, every value lies in its clipped window; if moreover
    [T <= M], the values are non-decreasing and between [T] and [M].
    Windows and values are in binary64, as the code computes them. *)
Theorem C3_backoff_bounds url p es (us : list Num) :
  let s := run (ReconnectingWebSocket url p) es in
  let T := initialReconnectInterval s in
  let M := maxReconnectInterval s in
  ws s <> None -> forcedClose s = false -> fresh s ->
  is_double T = true -> Forall draw_ok us ->
  (is_nonzero T = true -> leb M M = true ->
   Forall (fun v => leb v M = true) (intervals us s))
  /\ (posn T -> leb M M = true -> windows T M 0 (intervals us s))
  /\ (posn T -> leb T M = true -> backoff_claim s us).
Proof.
  intros s T M Hws Hf [Hr Hi] HD Hus.
  pose proof (Inv_reachable url p es) as HI. fold s in HI.
  assert (Hmax : is_nonzero T = true -> leb M M = true ->
                 Forall (fun v => leb v M = true) (intervals us s)).
  { intros HT HM. apply intervals_le_max; assumption. }
  assert (Hwin : posn T -> leb M M = true -> windows T M 0 (intervals us s)).
  { intros HT HM.
    pose proof (intervals_windows us s HI Hws Hf HT HD HM Hus) as Hw.
    rewrite Hr in Hw. exact Hw. }
  split; [exact Hmax|]. split; [exact Hwin|]. intros HT HTM.
  assert (HM : leb M M = true) by (apply leb_refl; apply (leb_posn T M HT HTM)).
  pose proof (Hwin HT HM) as Hw.
  pose proof (Hmax (posn_nonzero T HT) HM) as Hle.
  unfold backoff_claim.
  refine (conj _ (conj Hle (conj Hw _))).
  - apply (windows_nondecreasing T M (intervals us s) HT HD HM 0); [|exact Hw].
    rewrite Hi. apply window_ge_initial; assumption.
  - apply Forall_both; [|exact Hle].
    apply (windows_ge_initial T M _ HT HD HTM 0 Hw).
Qed.

Lemma C3_witness :
  backoff_claim (run (ReconnectingWebSocket "ws://h" None) [])
    [Zero false; Fin (1 # 2); Zero false].
Proof.
  assert (Hws : ws (run (ReconnectingWebSocket "ws://h" None) []) <> None)
    by (vm_compute; discriminate).
  assert (Hf : forcedClose (run (ReconnectingWebSocket "ws://h" None) []) = false)
    by (vm_compute; reflexivity).
  assert (Hfr : fresh (run (ReconnectingWebSocket "ws://h" None) []))
    by (split; vm_compute; reflexivity).
  assert (HT : posn (initialReconnectInterval
                       (run (ReconnectingWebSocket "ws://h" None) [])))
    by (vm_compute; reflexivity).
  assert (HD : is_double (initialReconnectInterval
                            (run (ReconnectingWebSocket "ws://h" None) [])) = true)
    by (vm_compute; reflexivity).
  assert (Hus : Forall draw_ok [Zero false; Fin (1 # 2); Zero false])
    by (repeat constructor; vm_compute; reflexivity).
  assert (HTM : leb (initialReconnectInterval
                       (run (ReconnectingWebSocket "ws://h" None) []))
                  (maxReconnectInterval
                     (run (ReconnectingWebSocket "ws://h" None) [])) = true)
    by (vm_compute; reflexivity).
  exact (proj2 (proj2 (C3_backoff_bounds "ws://h" None []
                         [Zero false; Fin (1 # 2); Zero false] Hws Hf Hfr HD Hus))
           HT HTM).
Defined.

(** C3 as stated fails when the caller's ceiling is below the initial
    interval, and when the initial interval is negative: the first value
    after a fresh state then lies below the value before it and outside
    [[initialReconnectInterval, maxReconnectInterval]].  With an initial
    interval of zero the 1025th value is [0 * Infinity], not a number. *)
Lemma C3_counterexample :
  (let s := run (ReconnectingWebSocket "ws://h" None)
              [SetTunable f_maxReconnectInterval (Fin 1000)] in
   ws s <> None /\ forcedClose s = false /\ fresh s
   /\ Forall draw_ok [Zero false]
   /\ ~ backoff_claim s [Zero false])
  /\ (let s := run (ReconnectingWebSocket "ws://h" None)
                 [SetTunable f_initialReconnectInterval (Fin (-1000));
                  WsOpen 0 (JEvent "open")] in
      ws s <> None /\ forcedClose s = false /\ fresh s
      /\ Forall draw_ok [Fin (1 # 2)]
      /\ ~ backoff_claim s [Fin (1 # 2)])
  /\ (forall s u,
         initialReconnectInterval s = Zero false -> 1024 <= retries s ->
         draw_ok u ->
         reconnectInterval (updateReconnectInterval u s) = NaN).
Proof.
  split; [|split].
  - cbv zeta. split; [vm_compute; discriminate|].
    split; [vm_compute; reflexivity|]. split; [split; vm_compute; reflexivity|].
    split; [repeat constructor; vm_compute; reflexivity|].
    intros [H _]. vm_compute in H. destruct H as [H _]. discriminate H.
  - cbv zeta. split; [vm_compute; discriminate|].
    split; [vm_compute; reflexivity|]. split; [split; vm_compute; reflexivity|].
    split; [repeat constructor; vm_compute; reflexivity|].
    intros [H _]. vm_compute in H. destruct H as [H _]. discriminate H.
  - intros s u HT Hn Hu. unfold updateReconnectInterval. simpl. rewrite HT.
    destruct (draw_plus_1 u Hu) as [H1 H2].
    destruct (between_1_2 _ H1 H2) as (r & -> & Hr).
    destruct (Math_pow_2 (retries s)) as [(Hlt & _)|(_ & ->)]; [lia|].
    reflexivity.
Qed.

(** ** Opening *)

(** C4. Whatever happened before, when the socket of a reachable instance
    opens the handler returns normally with [retries = 0],
    [reconnectInterval = initialReconnectInterval], the attempt's timeout
    cleared, its [reconnectAttempt] set to [false], [readyState] OPEN, and one
    [onopen] request handed to the host for the caller.  When the host runs
    its queue, the last call it makes is the caller's [onopen] with the
    socket's event, and [onopen] has then been called once more than it
    would have been without the open. *)
Theorem C4_open_resets_backoff url p es i a ev :
  let s := run (ReconnectingWebSocket url p) es in
  sockets s !! i = Some a -> sock a = CONNECTING ->
  exists s',
    step s (WsOpen i ev) = Some (Return JUndefined s')
    /\ retries s' = 0
    /\ reconnectInterval s' = initialReconnectInterval s'
    /\ initialReconnectInterval s' = initialReconnectInterval s
    /\ sockets s' !! i = Some (mkAttempt OPEN (JBool false) None)
    /\ readyState s' = OPEN
    /\ deferred s' = deferred s ++ [call_onopen ev]
    /\ emitted onopen s' = emitted onopen s + 1
    /\ last (invoked (settle s'))
       = Some (mkInvocation onopen [ev] Deferred (handlers s onopen))
    /\ count_invoked onopen (invoked (settle s'))
       = count_invoked onopen (invoked (settle s)) + 1.
Proof.
  intros s Ha Hs.
  assert (Hws : ws s = Some i)
    by (apply (reachable_live url p es i a Ha); congruence).
  simpl. rewrite Ha. simpl. rewrite Hs.
  rewrite ws_onopen_live by exact Hws.
  eexists. split; [reflexivity|].
  split; [reflexivity|]. split; [reflexivity|]. split; [reflexivity|].
  split.
  { simpl. rewrite !list_lookup_alter_eq. fold s. rewrite Ha. reflexivity. }
  split.
  { simpl. unfold sock_state. simpl. rewrite list_lookup_alter_eq.
    fold s. rewrite Ha. reflexivity. }
  split; [reflexivity|].
  split; [rewrite emitted_defer; simpl; reflexivity|].
  split.
  { rewrite settle_spec. simpl. rewrite List.map_app, app_assoc. simpl.
    rewrite last_snoc. reflexivity. }
  rewrite !count_invoked_settle, emitted_defer. reflexivity.
Qed.

Lemma C4_witness :
  exists s',
    step (run (ReconnectingWebSocket "ws://h" None) []) (WsOpen 0 (JEvent "o"))
    = Some (Return JUndefined s')
    /\ retries s' = 0
    /\ reconnectInterval s' = initialReconnectInterval s'
    /\ last (invoked (settle s'))
       = Some (mkInvocation onopen [JEvent "o"] Deferred
                 (handlers (run (ReconnectingWebSocket "ws://h" None) []) onopen)).
Proof.
  assert (Ha : sockets (run (ReconnectingWebSocket "ws://h" None) []) !! 0
               = Some (mkAttempt CONNECTING (JStr "ws://h") (Some (Fin 2000))))
    by (vm_compute; reflexivity).
  pose proof (C4_open_resets_backoff "ws://h" None [] 0
                (mkAttempt CONNECTING (JStr "ws://h") (Some (Fin 2000))) (JEvent "o")
                Ha eq_refl) as H.
  cbv zeta in H. destruct H as (s' & H1 & H2 & H3 & _ & _ & _ & _ & _ & H9 & _).
  exists s'. exact (conj H1 (conj H2 (conj H3 H9))).
Defined.

(** ** After [close()] *)

(** One event of an instance whose [forcedClose] is set: nothing the caller
    can tell happens, unless it is the close event of the socket [ws] refers
    to, which ends the instance. *)
Lemma after_forced s e :
  Inv s -> forcedClose s = true ->
  let s' := after s e in
  forcedClose s' = true
  /\ length (sockets s') = length (sockets s)
  /\ ((ws s' = ws s /\ emitted onclose s' = emitted onclose s
       /\ (ws s = None -> readyState s' = readyState s))
      \/ (exists i ev, e = WsClose i ev /\ ws s = Some i /\ ws s' = None
          /\ emitted onclose s' = emitted onclose s + 1
          /\ readyState s' = CLOSED)).
Proof.
  intros HI Hf. pose proof (inv_retry_forced s HI Hf) as Hr.
  unfold after.
  destruct e as [i ev|i ev|i ev|i ev|i|u| |data| | |cb h|f v]; simpl.
  - destruct (sockets s !! i) as [a|] eqn:Ha; simpl; [|quiet_event_by emitted_defer].
    destruct (sock a) eqn:Hs; try quiet_event_by emitted_defer.
    assert (Hws : ws s = Some i)
      by (apply (live_socket_is_ws s i a); [exact HI|exact Ha|congruence]).
    rewrite ws_onopen_live by exact Hws. simpl. quiet_event_by emitted_defer.
  - destruct (sockets s !! i) as [a|] eqn:Ha; simpl; [|quiet_event_by emitted_defer].
    assert (Hcl : sock a = CLOSED \/ sock a <> CLOSED)
      by (destruct (sock a); auto; right; congruence).
    destruct Hcl as [Hcl|Hcl]; [rewrite Hcl; quiet_event_by emitted_defer|].
    assert (Hws : ws s = Some i) by (apply (live_socket_is_ws s i a); auto).
    assert (Hstep : (match sock a with
                     | CLOSED => None
                     | _ => Some (ws_onclose i ev (set_sock i CLOSED s))
                     end) = Some (ws_onclose i ev (set_sock i CLOSED s)))
      by (destruct (sock a); congruence).
    rewrite Hstep.
    rewrite (ws_onclose_forced (set_sock i CLOSED s) i i ev Hws Hf). simpl.
    rewrite !length_alter.
    split; [exact Hf|]. split; [reflexivity|]. right.
    exists i, ev. split; [reflexivity|]. split; [exact Hws|].
    split; [reflexivity|]. split.
    + rewrite emitted_invoke. reflexivity.
    + unfold sock_state. simpl. rewrite list_lookup_alter_eq, Ha. reflexivity.
  - destruct (sockets s !! i) as [a|]; simpl; [|quiet_event_by emitted_defer].
    destruct (sock a); simpl; quiet_event_by emitted_defer.
  - destruct (sockets s !! i) as [a|]; simpl; [|quiet_event_by emitted_defer].
    destruct (sock a); simpl; quiet_event_by emitted_defer.
  - destruct (sockets s !! i) as [a|] eqn:Ha; simpl; [|quiet_event_by emitted_defer].
    destruct (timeout a) as [d|] eqn:Hd; simpl; [|quiet_event_by emitted_defer].
    unfold timeout_cb, sock_close, sock_state. simpl.
    destruct (default CLOSED _); simpl; quiet_event_by emitted_defer.
  - rewrite Hr. quiet_event_by emitted_defer.
  - destruct (deferred s) as [|t rest] eqn:Hd; simpl; [quiet_event_by emitted_defer|].
    split; [destruct t; exact Hf|]. split; [destruct t; reflexivity|]. left.
    split; [destruct t; reflexivity|].
    split; [apply emitted_run_thunk; exact Hd|]. intros _. destruct t; reflexivity.
  - unfold send, sock_send. destruct (ws s) as [j|] eqn:Hj; simpl; [|quiet_event_by emitted_defer].
    destruct (sock_state j s); simpl; quiet_event_by emitted_defer.
  - unfold close, sock_close. destruct (ws s) as [j|] eqn:Hj; simpl; [|quiet_event_by emitted_defer].
    destruct (sock_state j _); simpl; rewrite ?Hj; quiet_event_by emitted_defer.
  - unfold refresh, sock_close. destruct (ws s) as [j|] eqn:Hj; simpl; [|quiet_event_by emitted_defer].
    destruct (sock_state j _); simpl; rewrite ?Hj; quiet_event_by emitted_defer.
  - quiet_event_by emitted_defer.
  - destruct f; simpl; quiet_event_by emitted_defer.
Qed.

Lemma closed_for_good_after c0 n0 s e :
  closed_for_good c0 n0 s -> closed_for_good c0 n0 (after s e).
Proof.
  intros (HI & Hf & Hn & Hws & Hc & Hrs).
  destruct (after_forced s e HI Hf) as (Hf' & Hn' & [(Hw' & Hc' & Hrs')|Hclose]).
  - unfold closed_for_good. rewrite Hf', Hn', Hw', Hc', (Hrs' Hws).
    split; [apply Inv_after; exact HI|]. auto.
  - destruct Hclose as (i & ev & _ & Hi & _). congruence.
Qed.

(** A closing socket stays closing for as long as [ws] refers to it. *)
Lemma closing_socket_stays s e i :
  Inv s -> ws s = Some i -> sock_state i s = CLOSING ->
  ws (after s e) = Some i -> sock_state i (after s e) = CLOSING.
Proof.
  intros HI Hws Hc.
  destruct (live_socket_lookup s i HI Hws) as (a & Ha & Hne).
  assert (Hsa : sock a = CLOSING)
    by (rewrite <- (sock_state_lookup s i a Ha); exact Hc).
  unfold after.
  destruct e as [j ev|j ev|j ev|j ev|j|u| |data| | |cb h|f v]; simpl.
  - destruct (sockets s !! j) as [b|] eqn:Hb; simpl; [|intros; exact Hc].
    destruct (sock b) eqn:Hsb; try (intros; exact Hc).
    assert (Hj : ws s = Some j)
      by (apply (live_socket_is_ws s j b); [exact HI|exact Hb|congruence]).
    congruence.
  - destruct (sockets s !! j) as [b|] eqn:Hb; simpl; [|intros; exact Hc].
    destruct (sock b) eqn:Hsb; try (intros; exact Hc);
      (assert (Hj : ws s = Some j)
         by (apply (live_socket_is_ws s j b); [exact HI|exact Hb|congruence]);
       unfold ws_onclose; simpl; rewrite Hws;
       destruct (forcedClose s); [|destruct (negb _)]; simpl; discriminate).
  - destruct (sockets s !! j) as [b|]; simpl; [|intros; exact Hc].
    destruct (sock b); simpl; intros; exact Hc.
  - destruct (sockets s !! j) as [b|]; simpl; [|intros; exact Hc].
    destruct (sock b); simpl; intros; exact Hc.
  - destruct (sockets s !! j) as [b|] eqn:Hb; simpl; [|intros; exact Hc].
    destruct (timeout b) as [d|] eqn:Hd; simpl; [|intros; exact Hc].
    assert (Hj : ws s = Some j) by (apply (armed_timer_is_ws s j b d); auto).
    assert (j = i) by congruence. subst j. intros _.
    unfold timeout_cb, sock_close, sock_state. simpl.
    rewrite list_lookup_alter_eq, Ha. simpl. rewrite Hsa. simpl.
    rewrite list_lookup_alter_eq, Ha. simpl. exact Hsa.
  - rewrite (inv_retry_live s HI i Hws). intros; exact Hc.
  - destruct (deferred s) as [|t rest]; simpl; [intros; exact Hc|].
    destruct t; simpl; intros; exact Hc.
  - unfold send. rewrite Hws. unfold sock_send. rewrite Hc. intros; exact Hc.
  - unfold close. rewrite Hws. unfold sock_close.
    change (sock_state i (set_forcedClose true s)) with (sock_state i s).
    rewrite Hc. intros; exact Hc.
  - unfold refresh. rewrite Hws. unfold sock_close. rewrite Hc. intros; exact Hc.
  - intros; exact Hc.
  - destruct f; intros; exact Hc.
Qed.

Lemma closing_after c0 n0 i s e :
  closing c0 n0 i s -> closing c0 n0 i (after s e).
Proof.
  intros [(HI & Hf & Hn & Hws & Hc & Hcl)|Hdone];
    [|right; apply closed_for_good_after; exact Hdone].
  destruct (after_forced s e HI Hf) as (Hf' & Hn' & [(Hw' & Hc' & _)|Hclose]).
  - left. rewrite Hf', Hn', Hc'.
    split; [apply Inv_after; exact HI|].
    split; [reflexivity|]. split; [exact Hn|].
    split; [rewrite Hw'; exact Hws|]. split; [exact Hc|].
    apply closing_socket_stays; try assumption. rewrite Hw'. exact Hws.
  - destruct Hclose as (j & ev & _ & Hj & Hw' & Hc' & Hrs').
    right. unfold closed_for_good. rewrite Hf', Hn', Hw', Hc', Hrs'.
    split; [apply Inv_after; exact HI|]. subst c0. auto.
Qed.

Lemma closing_run c0 n0 i es : forall s, closing c0 n0 i s -> closing c0 n0 i (run s es).
Proof. apply run_invariant. intros s e. apply closing_after. Qed.

Lemma closed_for_good_run c0 n0 es :
  forall s, closed_for_good c0 n0 s -> closed_for_good c0 n0 (run s es).
Proof. apply run_invariant. intros s e. apply closed_for_good_after. Qed.

(** [close()] on a live socket. *)
Lemma close_live s i :
  Inv s -> ws s = Some i ->
  closing (emitted onclose s) (length (sockets s)) i (after s CallClose).
Proof.
  intros HI Hws. left.
  split; [apply Inv_after; exact HI|].
  destruct (live_socket_lookup s i HI Hws) as (a & Ha & Hne).
  unfold after. simpl. unfold close, sock_close. rewrite Hws.
  change (sock_state i (set_forcedClose true s)) with (sock_state i s).
  rewrite (sock_state_lookup s i a Ha).
  destruct (sock a) eqn:Hs; try congruence; simpl; rewrite ?length_alter;
    (split; [reflexivity|]); (split; [reflexivity|]); (split; [exact Hws|]);
    (split; [reflexivity|]); unfold sock_state; simpl;
    rewrite ?list_lookup_alter_eq, Ha; simpl; rewrite ?Hs; reflexivity.
Qed.

(** With [forcedClose] set nothing asks the host for a deferred [onclose]. *)
Lemma forced_queues_no_onclose s e :
  forcedClose s = true ->
  count_deferred onclose (deferred (after s e))
  <= count_deferred onclose (deferred s).
Proof.
  intros Hf.
  destruct e; handler_cases; try congruence; simpl;
    rewrite ?count_deferred_snoc; simpl; try lia;
    try match goal with
        | H : deferred s = [] |- _ => rewrite H; lia
        end;
    unfold count_deferred; simpl; lia.
Qed.

Lemma forced_queues_no_onclose_run es :
  forall s,
    Inv s -> forcedClose s = true ->
    count_deferred onclose (deferred (run s es))
    <= count_deferred onclose (deferred s).
Proof.
  induction es as [|e es IH]; intros s HI Hf; simpl; [lia|].
  destruct (after_forced s e HI Hf) as (Hf' & _).
  pose proof (IH (after s e) (Inv_after s e HI) Hf') as H1.
  pose proof (forced_queues_no_onclose s e Hf) as H2. lia.
Qed.

(** The close event that follows. *)
Lemma close_event_after_close c0 n0 i s ev :
  closing c0 n0 i s -> closed_for_good c0 n0 (after s (WsClose i ev)).
Proof.
  intros [(HI & Hf & Hn & Hws & Hc & _)|Hdone];
    [|apply closed_for_good_after; exact Hdone].
  destruct (live_socket_lookup s i HI Hws) as (a & Ha & Hs).
  destruct (after_forced s (WsClose i ev) HI Hf)
    as (Hf' & Hn' & [(Hw' & _)|Hclose]).
  - exfalso. revert Hw'. rewrite (after_WsClose s i a ev Ha Hs).
    rewrite (ws_onclose_forced (set_sock i CLOSED s) i i ev Hws Hf). simpl.
    rewrite Hws. discriminate.
  - destruct Hclose as (j & ev' & _ & Hj & Hw' & Hc' & Hrs').
    unfold closed_for_good. rewrite Hf', Hn', Hw', Hc', Hrs'.
    split; [apply Inv_after; exact HI|]. subst c0. auto.
Qed.

(** C5. [close()] on a reachable instance with a live socket sets
    [forcedClose] and starts the closing handshake of that socket.  Whatever
    happens next: [forcedClose] stays set, no socket is ever created, no
    backoff timer is armed and no [onclose] is handed to the host's queue.
    While the socket's close event is outstanding the socket is closing, it
    cannot open any more, and its close event calls the caller's [onclose]
    on the spot; from that event on [ws] is empty, [onclose] has been asked
    for exactly once more than before [close()], and [readyState] is CLOSED
    and stays so.  With no [onclose] pending in the queue at [close()], the
    caller's [onclose] has then been called exactly once more. *)
Theorem C5_close_is_terminal url p es0 i es :
  let s := run (ReconnectingWebSocket url p) es0 in
  ws s = Some i ->
  let s1 := after s CallClose in
  let s2 := run s1 es in
  (sock_state i s1 = CLOSING /\ forcedClose s1 = true)
  /\ forcedClose s2 = true
  /\ length (sockets s2) = length (sockets s)
  /\ retry_timers s2 = []
  /\ count_deferred onclose (deferred s2) <= count_deferred onclose (deferred s)
  /\ ((ws s2 = Some i /\ emitted onclose s2 = emitted onclose s
       /\ sock_state i s2 = CLOSING
       /\ (forall ev, step s2 (WsOpen i ev) = None)
       /\ (forall ev,
              step s2 (WsClose i ev)
              = Some (Return JUndefined (after s2 (WsClose i ev)))
              /\ invoked (after s2 (WsClose i ev))
                 = invoked s2
                   ++ [mkInvocation onclose [ev] Direct (handlers s2 onclose)]))
      \/ (ws s2 = None /\ emitted onclose s2 = emitted onclose s + 1
          /\ readyState s2 = CLOSED))
  /\ (forall ev es',
         let s3 := run s2 (WsClose i ev :: es') in
         ws s3 = None /\ emitted onclose s3 = emitted onclose s + 1
         /\ readyState s3 = CLOSED /\ length (sockets s3) = length (sockets s)
         /\ (count_deferred onclose (deferred s) = 0 ->
             count_invoked onclose (invoked s3)
             = count_invoked onclose (invoked s) + 1)).
Proof.
  intros s Hws s1 s2.
  pose proof (Inv_reachable url p es0) as HI0. fold s in HI0.
  assert (Hq1 : deferred s1 = deferred s /\ ws s1 = Some i).
  { unfold s1, after. simpl. unfold close. rewrite Hws. unfold sock_close.
    destruct (sock_state i (set_forcedClose true s)); simpl; auto. }
  destruct Hq1 as [Hq1 Hws1].
  pose proof (close_live s i HI0 Hws) as H1. fold s1 in H1.
  assert (H1' : Inv s1 /\ forcedClose s1 = true /\ sock_state i s1 = CLOSING).
  { destruct H1 as [(HI & Hf & _ & _ & _ & Hcl)|(_ & _ & _ & Hw & _)]; [auto|].
    congruence. }
  destruct H1' as (HI1 & Hf1 & Hcl1).
  pose proof (closing_run _ _ i es _ H1) as H2. fold s2 in H2.
  assert (HIf : Inv s2 /\ forcedClose s2 = true /\ length (sockets s2) = length (sockets s)).
  { destruct H2 as [(HI & Hf & Hn & _)|(HI & Hf & Hn & _)]; auto. }
  destruct HIf as (HI & Hf & Hn).
  assert (Hq2 : count_deferred onclose (deferred s2)
                <= count_deferred onclose (deferred s)).
  { rewrite <- Hq1. apply forced_queues_no_onclose_run; assumption. }
  split; [split; assumption|].
  split; [exact Hf|]. split; [exact Hn|].
  split; [apply (inv_retry_forced s2 HI Hf)|]. split; [exact Hq2|]. split.
  - destruct H2 as [(_ & _ & _ & Hw & Hc & Hcl)|(_ & _ & _ & Hw & Hc & Hrs)];
      [left|right; auto].
    destruct (live_socket_lookup s2 i HI Hw) as (a & Ha & Hne).
    assert (Hsa : sock a = CLOSING)
      by (rewrite <- (sock_state_lookup s2 i a Ha); exact Hcl).
    split; [exact Hw|]. split; [exact Hc|]. split; [exact Hcl|]. split.
    + intros ev. simpl. rewrite Ha. simpl. rewrite Hsa. reflexivity.
    + intros ev. rewrite (after_WsClose s2 i a ev Ha Hne).
      rewrite (ws_onclose_forced (set_sock i CLOSED s2) i i ev Hw Hf).
      split; [|reflexivity].
      simpl. rewrite Ha. simpl. rewrite Hsa.
      rewrite (ws_onclose_forced (set_sock i CLOSED s2) i i ev Hw Hf).
      reflexivity.
  - intros ev es' s3.
    pose proof (close_event_after_close _ _ i s2 ev H2) as H3.
    pose proof (closed_for_good_run _ _ es' _ H3) as (HI4 & Hf4 & Hn4 & Hw4 & Hc4 & Hrs4).
    change (run (after s2 (WsClose i ev)) es') with s3 in HI4, Hf4, Hn4, Hw4, Hc4, Hrs4.
    split; [exact Hw4|]. split; [exact Hc4|]. split; [exact Hrs4|].
    split; [exact Hn4|]. intros Hz.
    assert (Hq3 : count_deferred onclose (deferred s3)
                  <= count_deferred onclose (deferred s2)).
    { apply (forced_queues_no_onclose_run (WsClose i ev :: es') s2 HI Hf). }
    unfold emitted in Hc4. lia.
Qed.

Lemma C5_witness :
  let s := run (ReconnectingWebSocket "ws://h" None) [WsOpen 0 (JEvent "o")] in
  let s1 := after s CallClose in
  let s2 := run s1 [WsMessage 0 (JEvent "m")] in
  let s3 := run s2 (WsClose 0 (JEvent "c") :: [RetryFire (Zero false); HostTick]) in
  sock_state 0 s1 = CLOSING /\ forcedClose s2 = true /\ ws s3 = None
  /\ emitted onclose s3 = emitted onclose s + 1 /\ readyState s3 = CLOSED
  /\ length (sockets s3) = length (sockets s).
Proof.
  assert (Hws : ws (run (ReconnectingWebSocket "ws://h" None)
                      [WsOpen 0 (JEvent "o")]) = Some 0)
    by (vm_compute; reflexivity).
  pose proof (C5_close_is_terminal "ws://h" None [WsOpen 0 (JEvent "o")] 0
                [WsMessage 0 (JEvent "m")] Hws) as H.
  cbv zeta in H. destruct H as ((H0 & _) & H1 & _ & _ & _ & _ & H5).
  specialize (H5 (JEvent "c") [RetryFire (Zero false); HostTick]).
  cbv zeta in H5. destruct H5 as (K1 & K2 & K3 & K4 & _).
  cbv zeta. exact (conj H0 (conj H1 (conj K1 (conj K2 (conj K3 K4))))).
Defined.

(** ** [send] *)



(** ** The first attempt *)

(** C7 fails on the code: the constructor calls [connect(url)], so the first
    attempt's [reconnectAttempt] is the non-empty URL string, which is truthy.
    As long as its socket has not opened, an unforced close of it asks for no
    [onclose] at all, only for [onconnecting] and [onreconnect]. *)
Theorem C7_first_attempt_close_is_suppressed c url p es a ev :
  let s := run (ReconnectingWebSocket (String c url) p) es in
  sockets s !! 0 = Some a -> sock a = CONNECTING -> forcedClose s = false ->
  let s' := after s (WsClose 0 ev) in
  reconnectAttempt a = JStr (String c url)
  /\ emitted onclose s' = emitted onclose s
  /\ deferred s' = deferred s ++ [call_onconnecting; call_onreconnect].
Proof.
  intros s Ha Hs Hf s'.
  pose proof (reachable_connecting_flag _ p es 0 a Ha Hs) as Hflag.
  assert (Hne : sock a <> CLOSED) by congruence.
  assert (Hws : ws s <> None)
    by (unfold s; rewrite (reachable_live _ p es 0 a Ha Hne); discriminate).
  split; [exact Hflag|].
  destruct (close_event_counts s 0 a ev Ha Hne Hws Hf) as (H1 & _).
  destruct (close_event_requests s 0 a ev Ha Hne Hws Hf) as (_ & H2).
  rewrite Hflag in H1, H2. simpl in H1, H2. fold s' in H1, H2.
  split; [lia|exact H2].
Qed.

Lemma C7_witness :
  let s := run (ReconnectingWebSocket "ws://h" None) [] in
  emitted onclose (after s (WsClose 0 (JEvent "c"))) = emitted onclose s
  /\ deferred (after s (WsClose 0 (JEvent "c")))
     = deferred s ++ [call_onconnecting; call_onreconnect].
Proof.
  assert (Ha : sockets (run (ReconnectingWebSocket "ws://h" None) []) !! 0
               = Some (mkAttempt CONNECTING (JStr "ws://h") (Some (Fin 2000))))
    by (vm_compute; reflexivity).
  pose proof (C7_first_attempt_close_is_suppressed "w"%char "s://h" None []
                (mkAttempt CONNECTING (JStr "ws://h") (Some (Fin 2000))) (JEvent "c")
                Ha eq_refl eq_refl) as H.
  cbv zeta in H. destruct H as (_ & H1 & H2).
  cbv zeta. exact (conj H1 H2).
Defined.

(** ** [close] with no socket *)

(** C8. With no socket in [ws], [close()] changes nothing at all: in
    particular [forcedClose] keeps its value and a pending backoff timer
    still fires and opens a new socket.  This is the pause after any
    unforced close of a reachable instance. *)
Theorem C8_close_in_pause_is_noop :
  (forall s, ws s = None -> close s = s /\ after s CallClose = s)
  /\ (forall s d rest u,
         ws s = None -> retry_timers s = d :: rest ->
         let s' := after (after s CallClose) (RetryFire u) in
         s' = retry_cb u (set_retry_timers rest s)
         /\ ws s' = Some (length (sockets s))
         /\ length (sockets s') = length (sockets s) + 1
         /\ forcedClose s' = forcedClose s)
  /\ (forall url p es i ev u,
         let s := run (ReconnectingWebSocket url p) es in
         ws s = Some i -> forcedClose s = false ->
         let s1 := after s (WsClose i ev) in
         after s1 CallClose = s1
         /\ forcedClose (after s1 CallClose) = false
         /\ retry_timers (after s1 CallClose) = [reconnectInterval s]
         /\ ws (after (after s1 CallClose) (RetryFire u)) = Some (length (sockets s))).
Proof.
  assert (H0 : forall s, ws s = None -> close s = s /\ after s CallClose = s).
  { intros s H. unfold after. simpl. unfold close. rewrite H. split; reflexivity. }
  assert (H1 : forall s d rest u,
             ws s = None -> retry_timers s = d :: rest ->
             let s' := after (after s CallClose) (RetryFire u) in
             s' = retry_cb u (set_retry_timers rest s)
             /\ ws s' = Some (length (sockets s))
             /\ length (sockets s') = length (sockets s) + 1
             /\ forcedClose s' = forcedClose s).
  { intros s d rest u Hws Hr. destruct (H0 s Hws) as [_ E]. simpl. rewrite E.
    rewrite (after_RetryFire s d rest u Hr).
    unfold retry_cb, updateReconnectInterval, connect. simpl.
    rewrite length_app. simpl. auto. }
  split; [exact H0|]. split; [exact H1|].
  intros url0 p es i ev u s Hws Hf s1.
  destruct (unplanned_close_state s i ev (Inv_reachable url0 p es) Hws Hf)
    as (Hw1 & Hf1 & _ & Hr1 & _ & _ & _ & _ & Hn1).
  fold s1 in Hw1, Hf1, Hr1, Hn1.
  destruct (H0 s1 Hw1) as [_ E].
  destruct (H1 s1 _ _ u Hw1 Hr1) as (_ & K & _).
  rewrite E in *. rewrite Hn1 in K. auto.
Qed.

Lemma C8_witness :
  let s := run (ReconnectingWebSocket "ws://h" None) [] in
  let s1 := after s (WsClose 0 (JEvent "c")) in
  after s1 CallClose = s1
  /\ forcedClose (after s1 CallClose) = false
  /\ retry_timers (after s1 CallClose) = [reconnectInterval s]
  /\ ws (after (after s1 CallClose) (RetryFire (Zero false))) = Some (length (sockets s)).
Proof.
  assert (Hws : ws (run (ReconnectingWebSocket "ws://h" None) []) = Some 0)
    by (vm_compute; reflexivity).
  assert (Hf : forcedClose (run (ReconnectingWebSocket "ws://h" None) []) = false)
    by (vm_compute; reflexivity).
  pose proof (proj2 (proj2 C8_close_in_pause_is_noop)
                "ws://h" None [] 0 (JEvent "c") (Zero false) Hws Hf) as H.
  cbv zeta in H. cbv zeta. exact H.
Defined.

(** ** How the caller's callbacks are reached *)

(** C9 fails on the code in two places, both next to paths that do go through
    [$timeout]: [connect] calls [self.onconnecting()] on the spot (in the
    constructor and in every backoff timer callback), and the forced branch
    of the close handler calls [self.onclose(event)] inside the socket's own
    close event.  A deferred [onmessage] can so be overtaken by the [onclose]
    of a forced close that came after it. *)
Theorem C9_callbacks_called_on_the_spot :
  (forall url p,
      invoked (ReconnectingWebSocket url p)
      = [mkInvocation onconnecting [] Direct noop]
      /\ deferred (ReconnectingWebSocket url p) = [])
  /\ (forall s d rest u,
         retry_timers s = d :: rest ->
         invoked (after s (RetryFire u))
         = invoked s ++ [mkInvocation onconnecting [] Direct (handlers s onconnecting)]
         /\ deferred (after s (RetryFire u)) = deferred s)
  /\ (forall url p es i ev,
         let s := run (ReconnectingWebSocket url p) es in
         ws s = Some i -> forcedClose s = true ->
         invoked (after s (WsClose i ev))
         = invoked s ++ [mkInvocation onclose [ev] Direct (handlers s onclose)]
         /\ deferred (after s (WsClose i ev)) = deferred s)
  /\ List.map (fun c => (inv_cb c, inv_via c))
       (invoked
          (run (ReconnectingWebSocket "ws://h" None)
             [WsOpen 0 (JEvent "o"); HostTick; WsMessage 0 (JEvent "m");
              CallClose; WsClose 0 (JEvent "c"); HostTick]))
     = [(onconnecting, Direct); (onopen, Deferred);
        (onclose, Direct); (onmessage, Deferred)].
Proof.
  split; [intros; split; reflexivity|]. split.
  - intros s d rest u Hr. rewrite (after_RetryFire s d rest u Hr).
    split; reflexivity.
  - split; [|vm_compute; reflexivity].
    intros url0 p es i ev s Hws Hf.
    destruct (live_socket_lookup s i (Inv_reachable url0 p es) Hws) as (a & Ha & Hs).
    rewrite (after_WsClose s i a ev Ha Hs).
    rewrite (ws_onclose_forced (set_sock i CLOSED s) i i ev Hws Hf).
    split; reflexivity.
Qed.

Lemma C9_witness :
  let s := run (ReconnectingWebSocket "ws://h" None) [CallClose] in
  invoked (after s (WsClose 0 (JEvent "c")))
  = invoked s ++ [mkInvocation onclose [JEvent "c"] Direct (handlers s onclose)]
  /\ deferred (after s (WsClose 0 (JEvent "c"))) = deferred s.
Proof.
  assert (Hws : ws (run (ReconnectingWebSocket "ws://h" None) [CallClose]) = Some 0)
    by (vm_compute; reflexivity).
  assert (Hf : forcedClose (run (ReconnectingWebSocket "ws://h" None) [CallClose])
               = true)
    by (vm_compute; reflexivity).
  pose proof (proj1 (proj2 (proj2 C9_callbacks_called_on_the_spot))
                "ws://h" None [CallClose] 0 (JEvent "c") Hws Hf) as H.
  cbv zeta in H. cbv zeta. exact H.
Defined.

(** ** The default callbacks *)

Lemma handlers_after s e :
  assigns_handler e = false -> handlers (after s e) = handlers s.
Proof. intros H. destruct e; try discriminate H; handler_cases; reflexivity. Qed.

Lemma invoked_after s e :
  exists l, invoked (after s e) = invoked s ++ l
            /\ Forall (fun c => exists cb, inv_handler c = handlers s cb) l.
Proof.
  destruct e; handler_cases;
    first [ exists []; split; [symmetry; apply app_nil_r|constructor]
          | eexists [_]; split; [reflexivity|];
            constructor; [eexists; reflexivity|constructor] ].
Qed.

Lemma lifecycle_never_throws s e err s' :
  Inv s -> lifecycle e = true -> step s e <> Some (Throw err s').
Proof.
  intros HI Hl. destruct e as [i ev|i ev|i ev|i ev|i|u| |data| | |cb h|f v];
    try discriminate Hl; simpl.
  - destruct (sockets s !! i) as [a|] eqn:Ha; simpl; [|discriminate].
    destruct (sock a) eqn:Hs; try discriminate.
    assert (Hws : ws s = Some i)
      by (apply (live_socket_is_ws s i a); [exact HI|exact Ha|congruence]).
    rewrite ws_onopen_live by exact Hws. discriminate.
  - destruct (sockets s !! i) as [a|] eqn:Ha; simpl; [|discriminate].
    assert (Hcl : sock a = CLOSED \/ sock a <> CLOSED)
      by (destruct (sock a); auto; right; congruence).
    destruct Hcl as [Hcl|Hcl]; [rewrite Hcl; discriminate|].
    assert (Hws : ws s = Some i) by (apply (live_socket_is_ws s i a); auto).
    unfold ws_onclose. simpl. rewrite Hws.
    destruct (sock a); try congruence;
      (destruct (forcedClose s); [discriminate|destruct (negb _); discriminate]).
  - destruct (sockets s !! i) as [a|]; simpl; [|discriminate].
    destruct (sock a); discriminate.
  - destruct (sockets s !! i) as [a|]; simpl; [|discriminate].
    destruct (sock a); discriminate.
  - destruct (sockets s !! i) as [a|]; simpl; [|discriminate].
    destruct (timeout a); discriminate.
  - destruct (retry_timers s); discriminate.
  - destruct (deferred s); discriminate.
Qed.

(** C10. The constructor puts the empty function in all six slots.  Until the
    caller assigns a slot, every slot still holds it, every invocation made so
    far went to it, and no event of the host makes a handler throw. *)
Theorem C10_default_callbacks_are_noops url p :
  (forall cb, handlers (ReconnectingWebSocket url p) cb = noop)
  /\ (forall es,
         forallb (fun e => negb (assigns_handler e)) es = true ->
         let s := run (ReconnectingWebSocket url p) es in
         (forall cb, handlers s cb = noop)
         /\ Forall (fun c => inv_handler c = noop) (invoked s)
         /\ (forall e err s',
                lifecycle e = true -> step s e <> Some (Throw err s'))).
Proof.
  split; [reflexivity|]. intros es Hes s.
  assert (H : forall l s0,
             forallb (fun e => negb (assigns_handler e)) l = true ->
             (forall cb, handlers s0 cb = noop) ->
             Forall (fun c => inv_handler c = noop) (invoked s0) ->
             (forall cb, handlers (run s0 l) cb = noop)
             /\ Forall (fun c => inv_handler c = noop) (invoked (run s0 l))).
  { induction l as [|e l IH]; intros s0 Hl Hh Hi; simpl; [auto|].
    simpl in Hl. apply andb_true_iff in Hl as [He Hl].
    apply negb_true_iff in He.
    apply IH; [exact Hl| |].
    - intros cb. rewrite (handlers_after s0 e He). apply Hh.
    - destruct (invoked_after s0 e) as (l' & E & Hl'). rewrite E.
      apply Forall_app. split; [exact Hi|].
      eapply Forall_impl; [exact Hl'|].
      intros c [cb Hc]. simpl in Hc. rewrite Hc. apply Hh. }
  destruct (H es (ReconnectingWebSocket url p) Hes) as [H1 H2].
  - reflexivity.
  - repeat constructor.
  - split; [exact H1|]. split; [exact H2|].
    intros e err s' Hl. apply lifecycle_never_throws; [|exact Hl].
    apply Inv_reachable.
Qed.

Lemma C10_witness :
  let s := run (ReconnectingWebSocket "ws://h" None)
             [WsOpen 0 (JEvent "o"); HostTick; WsMessage 0 (JEvent "m"); HostTick] in
  (forall cb, handlers s cb = noop)
  /\ Forall (fun c => inv_handler c = noop) (invoked s).
Proof.
  assert (Hes : forallb (fun e => negb (assigns_handler e))
                  [WsOpen 0 (JEvent "o"); HostTick; WsMessage 0 (JEvent "m"); HostTick]
                = true)
    by (vm_compute; reflexivity).
  pose proof (proj2 (C10_default_callbacks_are_noops "ws://h" None) _ Hes) as H.
  cbv zeta in H. destruct H as (H1 & H2 & _).
  cbv zeta. exact (conj H1 H2).
Defined.

(** * Further properties of the code *)

(** ** Sockets and timers *)

(** X3. A reachable instance never has two sockets that are not closed: a
    socket that has not closed is the one [ws] refers to. *)
Theorem at_most_one_live_socket url p es i j a b :
  let s := run (ReconnectingWebSocket url p) es in
  sockets s !! i = Some a -> sockets s !! j = Some b ->
  sock a <> CLOSED -> sock b <> CLOSED ->
  i = j /\ ws s = Some i.
Proof.
  intros s Ha Hb Hsa Hsb.
  pose proof (reachable_live url p es i a Ha Hsa) as Hi.
  pose proof (reachable_live url p es j b Hb Hsb) as Hj.
  fold s in Hi, Hj. split; [congruence|exact Hi].
Qed.

Lemma at_most_one_live_socket_witness :
  let s := run (ReconnectingWebSocket "ws://h" None)
             [WsClose 0 (JEvent "c"); RetryFire (Zero false)] in
  1 = 1 /\ ws s = Some 1.
Proof.
  assert (Ha : sockets (run (ReconnectingWebSocket "ws://h" None)
                          [WsClose 0 (JEvent "c"); RetryFire (Zero false)]) !! 1
               = Some (mkAttempt CONNECTING (JBool true) (Some (Fin 2000))))
    by (vm_compute; reflexivity).
  pose proof (at_most_one_live_socket "ws://h" None
                [WsClose 0 (JEvent "c"); RetryFire (Zero false)] 1 1 _ _ Ha Ha
                ltac:(discriminate) ltac:(discriminate)) as H.
  cbv zeta in H. cbv zeta. exact H.
Defined.

(** X4. A reachable instance has at most one backoff timer pending, and none
    while it holds a socket or after a forced close. *)
Theorem backoff_timer_only_in_pause url p es :
  let s := run (ReconnectingWebSocket url p) es in
  length (retry_timers s) <= 1
  /\ (ws s <> None -> retry_timers s = [])
  /\ (forcedClose s = true -> retry_timers s = []).
Proof.
  intros s. pose proof (Inv_reachable url p es) as HI. fold s in HI.
  split; [apply (inv_retry_one s HI)|]. split.
  - intros Hws. destruct (ws s) as [i|] eqn:Hi; [|congruence].
    apply (inv_retry_live s HI i Hi).
  - apply (inv_retry_forced s HI).
Qed.

Lemma backoff_timer_only_in_pause_witness :
  let s := run (ReconnectingWebSocket "ws://h" None)
             [WsClose 0 (JEvent "c"); RetryFire (Zero false)] in
  retry_timers s = [].
Proof.
  assert (Hws : ws (run (ReconnectingWebSocket "ws://h" None)
                      [WsClose 0 (JEvent "c"); RetryFire (Zero false)]) <> None)
    by (vm_compute; discriminate).
  pose proof (proj1 (proj2 (backoff_timer_only_in_pause "ws://h" None
                              [WsClose 0 (JEvent "c"); RetryFire (Zero false)])) Hws) as H.
  cbv zeta. exact H.
Defined.

(** ** Counting failed cycles *)

Lemma failed_cycle_sockets s i u :
  Inv s -> ws s = Some i -> forcedClose s = false ->
  length (sockets (failed_cycle u s)) = length (sockets s) + 1
  /\ retry_timers (failed_cycle u s) = [].
Proof.
  intros HI Hws Hf. unfold failed_cycle. rewrite Hws. simpl.
  destruct (unplanned_close_state s i (JEvent "close") HI Hws Hf)
    as (H1 & H2 & H3 & H4 & H5 & H6 & H7 & H8 & H9).
  simpl in *. rewrite (after_RetryFire _ _ _ u H4).
  unfold retry_cb, updateReconnectInterval, connect; simpl.
  rewrite length_app, H9. simpl. split; reflexivity.
Qed.

Lemma failed_cycles_spec us :
  forall s,
    Inv s -> ws s <> None -> forcedClose s = false ->
    let s' := failed_cycles us s in
    Inv s' /\ ws s' <> None /\ forcedClose s' = false
    /\ retries s' = retries s + length us
    /\ length (sockets s') = length (sockets s) + length us
    /\ initialReconnectInterval s' = initialReconnectInterval s
    /\ maxReconnectInterval s' = maxReconnectInterval s.
Proof.
  induction us as [|u us IH]; intros s HI Hws Hf; simpl.
  - rewrite !Nat.add_0_r. auto 10.
  - destruct (ws s) as [i|] eqn:Hi; [|congruence].
    destruct (failed_cycle_spec s i u HI Hi Hf) as (E1 & E2 & E3 & E4 & E5 & E6 & E7).
    destruct (failed_cycle_sockets s i u HI Hi Hf) as (E8 & _).
    assert (Hws' : ws (failed_cycle u s) <> None) by (rewrite E5; discriminate).
    destruct (IH (failed_cycle u s) E7 Hws' E6) as (K1 & K2 & K3 & K4 & K5 & K6 & K7).
    simpl in *. rewrite K4, K5, K6, K7, E2, E3, E4, E8.
    refine (conj K1 (conj K2 (conj K3 _))). repeat split; lia.
Qed.

(** X7. Each failed cycle of a reachable instance creates exactly one socket
    and adds one to [retries]; after any number of them the instance holds a
    socket again, is not closed for good, and has no timer pending. *)
Theorem failed_cycles_count url p es (us : list Num) :
  let s := run (ReconnectingWebSocket url p) es in
  ws s <> None -> forcedClose s = false ->
  let s' := failed_cycles us s in
  retries s' = retries s + length us
  /\ length (sockets s') = length (sockets s) + length us
  /\ ws s' <> None /\ forcedClose s' = false /\ retry_timers s' = [].
Proof.
  intros s Hws Hf s'.
  destruct (failed_cycles_spec us s (Inv_reachable url p es) Hws Hf)
    as (K1 & K2 & K3 & K4 & K5 & _).
  fold s' in K1, K2, K3, K4, K5.
  refine (conj K4 (conj K5 (conj K2 (conj K3 _)))).
  destruct (ws s') as [i|] eqn:Hi; [|congruence].
  apply (inv_retry_live s' K1 i Hi).
Qed.

Lemma failed_cycles_count_witness :
  let s := run (ReconnectingWebSocket "ws://h" None) [] in
  let s' := failed_cycles [Zero false; Fin (1 # 2); Zero false] s in
  retries s' = retries s + 3
  /\ length (sockets s') = length (sockets s) + 3
  /\ ws s' <> None /\ forcedClose s' = false /\ retry_timers s' = [].
Proof.
  assert (Hws : ws (run (ReconnectingWebSocket "ws://h" None) []) <> None)
    by (vm_compute; discriminate).
  assert (Hf : forcedClose (run (ReconnectingWebSocket "ws://h" None) []) = false)
    by (vm_compute; reflexivity).
  pose proof (failed_cycles_count "ws://h" None [] [Zero false; Fin (1 # 2); Zero false] Hws Hf) as H.
  cbv zeta in H. cbv zeta. exact H.
Defined.

(** ** The ceiling of the backoff *)

Lemma update_at_ceiling T M n u :
  posn T -> is_double T = true -> draw_ok u ->
  leb M (backoff_term (Fin 1) T n) = true ->
  let v := Math_min (backoff_term (add u (Fin 1)) T n) M in
  leb v M = true /\ leb M v = true.
Proof.
  intros HT HD Hu HM. destruct (draw_plus_1 u Hu) as [H1 H2].
  apply Math_min_at_ceiling.
  - apply backoff_term_posn; assumption.
  - apply (leb_trans _ _ _ HM).
    apply backoff_term_mono; try assumption. reflexivity.
Qed.

Lemma intervals_at_ceiling us :
  forall s,
    Inv s -> ws s <> None -> forcedClose s = false ->
    posn (initialReconnectInterval s) ->
    is_double (initialReconnectInterval s) = true ->
    leb (maxReconnectInterval s)
      (backoff_term (Fin 1) (initialReconnectInterval s) (retries s)) = true ->
    Forall draw_ok us ->
    Forall (fun v => leb v (maxReconnectInterval s) = true
                     /\ leb (maxReconnectInterval s) v = true)
      (intervals us s).
Proof.
  induction us as [|u us IH]; intros s HI Hws Hf HT HD HM Hus; simpl; [constructor|].
  destruct (ws s) as [i|] eqn:Hi; [|congruence].
  destruct (failed_cycle_spec s i u HI Hi Hf) as (E1 & E2 & E3 & E4 & E5 & E6 & E7).
  inversion Hus as [|? ? Hu Hus']; subst.
  constructor.
  - rewrite E1. apply (update_at_ceiling _ _ _ u HT HD Hu HM).
  - assert (Hws' : ws (failed_cycle u s) <> None) by (rewrite E5; discriminate).
    specialize (IH (failed_cycle u s) E7 Hws' E6).
    rewrite E2, E3, E4 in IH. apply IH; try assumption.
    apply (leb_trans _ _ _ HM). apply backoff_term_grows; try assumption. lia.
Qed.

(** X8. With a positive initial interval [T]: once [1 * T * 2^retries], as
    the code computes it, has reached the ceiling, every failed cycle of a
    reachable instance leaves [reconnectInterval] equal to
    [maxReconnectInterval], whatever the random draws. *)
Theorem backoff_stays_at_ceiling url p es (us : list Num) :
  let s := run (ReconnectingWebSocket url p) es in
  let T := initialReconnectInterval s in
  let M := maxReconnectInterval s in
  ws s <> None -> forcedClose s = false ->
  posn T -> is_double T = true ->
  leb M (backoff_term (Fin 1) T (retries s)) = true ->
  Forall draw_ok us ->
  Forall (fun v => leb v M = true /\ leb M v = true) (intervals us s).
Proof.
  intros s T M Hws Hf HT HD HM Hus.
  apply intervals_at_ceiling; try assumption. apply Inv_reachable.
Qed.

Lemma backoff_stays_at_ceiling_witness :
  let s := run (ReconnectingWebSocket "ws://h" None)
             [SetTunable f_maxReconnectInterval (Fin 5000)] in
  Forall (fun v => leb v (maxReconnectInterval s) = true
                   /\ leb (maxReconnectInterval s) v = true)
    (intervals [Zero false; Fin (1 # 2)] s).
Proof.
  apply (backoff_stays_at_ceiling "ws://h" None
           [SetTunable f_maxReconnectInterval (Fin 5000)]
           [Zero false; Fin (1 # 2)]).
  - vm_compute; discriminate.
  - vm_compute; reflexivity.
  - vm_compute; reflexivity.
  - vm_compute; reflexivity.
  - vm_compute; reflexivity.
  - repeat constructor; vm_compute; reflexivity.
Defined.

(** ** What goes out on the wire *)

(** X11. Only [send] transmits: every other event leaves the wire as it is,
    and a [send] either leaves it as it is or appends its payload on the
    socket [ws] refers to, which is then open.  Nothing is replayed after a
    reconnect. *)
Theorem only_send_transmits s e :
  match e with
  | CallSend data =>
      wire (after s e) = wire s
      \/ (exists j, ws s = Some j /\ sock_state j s = OPEN
                    /\ wire (after s e) = wire s ++ [(j, data)])
  | _ => wire (after s e) = wire s
  end.
Proof.
  destruct e as [i ev|i ev|i ev|i ev|i|u| |data| | |cb h|f v];
    try (handler_cases; reflexivity).
  unfold after. simpl. unfold send.
  destruct (ws s) as [j|] eqn:Hj; simpl; [|left; reflexivity].
  unfold sock_send. destruct (sock_state j s) eqn:Hs; simpl;
    try (left; reflexivity).
  right. exists j. auto.
Qed.

(** ** [refresh] *)




(** ** The connect timeout *)

(** X12. When the connect timeout of a connecting socket fires in a reachable
    instance whose URL is not empty, the socket starts closing, [timedOut] is
    already back to [false] and the timer cannot fire again.  The close event
    that follows asks for no [onclose], asks for [onconnecting] and
    [onreconnect] once each and arms the backoff timer with the current
    interval. *)
Theorem connect_timeout_retries_silently c url p es i a d ev :
  let s := run (ReconnectingWebSocket (String c url) p) es in
  sockets s !! i = Some a -> sock a = CONNECTING -> timeout a = Some d ->
  forcedClose s = false ->
  let s1 := after s (TimeoutFire i) in
  let s2 := after s1 (WsClose i ev) in
  (sock_state i s1 = CLOSING /\ timedOut s1 = false
   /\ step s1 (TimeoutFire i) = None)
  /\ (ws s2 = None /\ retry_timers s2 = [reconnectInterval s]
      /\ emitted onclose s2 = emitted onclose s
      /\ emitted onconnecting s2 = emitted onconnecting s + 1
      /\ emitted onreconnect s2 = emitted onreconnect s + 1).
Proof.
  intros s Ha Hs Hd Hf s1 s2.
  assert (Hne : sock a <> CLOSED) by congruence.
  pose proof (reachable_live _ p es i a Ha Hne) as Hws. fold s in Hws.
  pose proof (Inv_reachable (String c url) p es) as HI. fold s in HI.
  pose proof (reachable_connecting_flag _ p es i a Ha Hs) as Hflag.
  assert (Htruthy : truthy (reconnectAttempt a) = true)
    by (rewrite Hflag; destruct i; reflexivity).
  assert (HI1 : Inv s1) by (unfold s1; apply Inv_after; exact HI).
  assert (Ha1 : sockets s1 !! i = Some (mkAttempt CLOSING (reconnectAttempt a) None)).
  { unfold s1, after. simpl. fold s. rewrite Ha. simpl. rewrite Hd. simpl.
    unfold timeout_cb, sock_close, sock_state. simpl.
    rewrite list_lookup_alter_eq. fold s. rewrite Ha. simpl. rewrite Hs. simpl.
    rewrite !list_lookup_alter_eq. fold s. rewrite Ha. reflexivity. }
  assert (Hsame : forcedClose s1 = false /\ ws s1 = Some i
                  /\ reconnectInterval s1 = reconnectInterval s
                  /\ (forall cb, emitted cb s1 = emitted cb s)).
  { unfold s1, after. simpl. fold s. rewrite Ha. simpl. rewrite Hd. simpl.
    unfold timeout_cb, sock_close, sock_state. simpl.
    destruct (default CLOSED _); simpl; auto. }
  destruct Hsame as (Hf1 & Hws1 & Hri1 & He1).
  split.
  { split; [rewrite (sock_state_lookup s1 i _ Ha1); reflexivity|].
    split; [apply (inv_timedOut s1 HI1)|].
    simpl. rewrite Ha1. reflexivity. }
  destruct (unplanned_close_state s1 i ev HI1 Hws1 Hf1) as (K1 & _ & _ & K4 & _).
  fold s2 in K1, K4.
  assert (Hws1' : ws s1 <> None) by (rewrite Hws1; discriminate).
  destruct (close_event_counts s1 i _ ev Ha1 ltac:(simpl; discriminate) Hws1' Hf1)
    as (C1 & C2 & C3).
  fold s2 in C1, C2, C3. simpl in C1. rewrite Htruthy in C1. simpl in C1.
  rewrite K1, K4, C1, C2, C3, Hri1, !He1. repeat split; lia.
Qed.

Lemma connect_timeout_retries_silently_witness :
  let s := run (ReconnectingWebSocket "ws://h" None) [] in
  let s1 := after s (TimeoutFire 0) in
  let s2 := after s1 (WsClose 0 (JEvent "c")) in
  (sock_state 0 s1 = CLOSING /\ timedOut s1 = false
   /\ step s1 (TimeoutFire 0) = None)
  /\ (ws s2 = None /\ retry_timers s2 = [reconnectInterval s]
      /\ emitted onclose s2 = emitted onclose s
      /\ emitted onconnecting s2 = emitted onconnecting s + 1
      /\ emitted onreconnect s2 = emitted onreconnect s + 1).
Proof.
  assert (Ha : sockets (run (ReconnectingWebSocket "ws://h" None) []) !! 0
               = Some (mkAttempt CONNECTING (JStr "ws://h") (Some (Fin 2000))))
    by (vm_compute; reflexivity).
  assert (Hf : forcedClose (run (ReconnectingWebSocket "ws://h" None) []) = false)
    by (vm_compute; reflexivity).
  pose proof (connect_timeout_retries_silently "w"%char "s://h" None [] 0 _
                (Fin 2000) (JEvent "c") Ha eq_refl eq_refl Hf) as H.
  cbv zeta in H. cbv zeta. exact H.
Defined.

(** ** Messages *)

Lemma messages_queue evs :
  forall s i a,
    sockets s !! i = Some a -> sock a = OPEN ->
    run s (List.map (WsMessage i) evs)
    = set_deferred (deferred s ++ List.map call_onmessage evs) s.
Proof.
  induction evs as [|ev evs IH]; intros s i a Ha Hs; simpl.
  - rewrite app_nil_r. destruct s; reflexivity.
  - assert (E : after s (WsMessage i ev) = defer (call_onmessage ev) s).
    { unfold after. simpl. rewrite Ha. simpl. rewrite Hs. reflexivity. }
    rewrite E. rewrite (IH _ i a); [|exact Ha|exact Hs].
    unfold defer. simpl. rewrite <- app_assoc. reflexivity.
Qed.

(** X6. Messages arriving on an open socket reach [onmessage] through the
    host, each with its own event, in arrival order, and the instance is
    otherwise unchanged: no timer, no change of socket or backoff state. *)
Theorem messages_delivered_in_order (s : State) i a (evs : list JsVal) :
  sockets s !! i = Some a -> sock a = OPEN -> deferred s = [] ->
  run s (List.map (WsMessage i) evs ++ host_ticks (length evs))
  = set_invoked
      (invoked s
         ++ List.map (fun ev => mkInvocation onmessage [ev] Deferred
                                  (handlers s onmessage)) evs) s.
Proof.
  intros Ha Hs Hd. rewrite run_app, (messages_queue evs s i a Ha Hs), Hd. simpl.
  pose proof (drain_queue _ (set_deferred (List.map call_onmessage evs) s)
                eq_refl) as H.
  simpl in H. rewrite length_map in H. rewrite H.
  rewrite List.map_map. simpl. destruct s; simpl in *; subst. reflexivity.
Qed.

Lemma messages_delivered_in_order_witness :
  let s := run (ReconnectingWebSocket "ws://h" None)
             [WsOpen 0 (JEvent "o"); HostTick] in
  run s (List.map (WsMessage 0) [JEvent "a"; JEvent "b"] ++ host_ticks 2)
  = set_invoked
      (invoked s
         ++ List.map (fun ev => mkInvocation onmessage [ev] Deferred
                                  (handlers s onmessage))
              [JEvent "a"; JEvent "b"]) s.
Proof.
  apply (messages_delivered_in_order _ 0 (mkAttempt OPEN (JBool false) None)
           [JEvent "a"; JEvent "b"]); vm_compute; reflexivity.
Defined.

(** ** What [onreconnect] is told *)

(** X13. After an unforced close in a reachable instance whose queue was
    empty, once the host has run what the handler queued, the last call is
    [onreconnect(retries + 1, reconnectInterval)] with the values of before
    the close, and the interval it names is the delay of the one backoff
    timer now pending. *)
Theorem onreconnect_names_pending_delay url p es i ev :
  let s := run (ReconnectingWebSocket url p) es in
  ws s = Some i -> forcedClose s = false -> deferred s = [] ->
  let s1 := after s (WsClose i ev) in
  let s2 := run s1 (host_ticks (length (deferred s1))) in
  last (invoked s2)
  = Some (mkInvocation onreconnect
            [JNum (num_of_nat (retries s + 1));
             JNum (reconnectInterval s)]
            Deferred (handlers s onreconnect))
  /\ retry_timers s2 = [reconnectInterval s]
  /\ deferred s2 = [].
Proof.
  intros s Hws Hf Hd s1 s2.
  pose proof (Inv_reachable url p es) as HI. fold s in HI.
  destruct (live_socket_lookup s i HI Hws) as (a & Ha & Hs).
  assert (Hws' : ws s <> None) by (rewrite Hws; discriminate).
  destruct (close_event_requests s i a ev Ha Hs Hws' Hf) as (_ & Hq).
  fold s1 in Hq. simpl in Hq. rewrite Hd in Hq. simpl in Hq.
  destruct (unplanned_close_state s i ev HI Hws Hf)
    as (_ & _ & _ & K4 & K5 & K6 & _).
  fold s1 in K4, K5, K6.
  assert (Hh : handlers s1 = handlers s) by (apply handlers_after; reflexivity).
  unfold s2. rewrite (drain_queue _ s1 eq_refl). simpl.
  split; [|split; [exact K4|reflexivity]].
  rewrite Hq.
  change (call_onconnecting
          :: (if truthy (reconnectAttempt a) || timedOut s
              then [] else [call_onclose ev]) ++ [call_onreconnect])
    with ([call_onconnecting]
          ++ (if truthy (reconnectAttempt a) || timedOut s
              then [] else [call_onclose ev]) ++ [call_onreconnect]).
  rewrite !List.map_app, !app_assoc. simpl.
  rewrite last_snoc, Hh, K5, K6. reflexivity.
Qed.

Lemma onreconnect_names_pending_delay_witness :
  let s := run (ReconnectingWebSocket "ws://h" None) [] in
  let s1 := after s (WsClose 0 (JEvent "c")) in
  let s2 := run s1 (host_ticks (length (deferred s1))) in
  last (invoked s2)
  = Some (mkInvocation onreconnect
            [JNum (num_of_nat (retries s + 1));
             JNum (reconnectInterval s)]
            Deferred (handlers s onreconnect))
  /\ retry_timers s2 = [reconnectInterval s]
  /\ deferred s2 = [].
Proof.
  assert (Hws : ws (run (ReconnectingWebSocket "ws://h" None) []) = Some 0)
    by (vm_compute; reflexivity).
  pose proof (onreconnect_names_pending_delay "ws://h" None [] 0 (JEvent "c")
                Hws eq_refl eq_refl) as H.
  cbv zeta in H. cbv zeta. exact H.
Defined.

(** ** [readyState] and the timeouts *)

Lemma Mirror_frame s s' :
  sockets s' = sockets s -> ws s' = ws s -> readyState s' = readyState s ->
  forcedClose s' = forcedClose s -> Mirror s -> Mirror s'.
Proof.
  intros E1 E2 E3 E4 [H1 H2 H3].
  constructor; rewrite ?E1, ?E2, ?E3, ?E4; assumption.
Qed.

Lemma Mirror_alter s s' k f :
  Mirror s ->
  sockets s' = alter f k (sockets s) -> ws s' = ws s ->
  readyState s' = readyState s -> forcedClose s' = forcedClose s ->
  (forall a, sockets s !! k = Some a ->
             (sock (f a) = OPEN -> sock a = OPEN /\ timeout (f a) = None)
             /\ (sock (f a) = CONNECTING -> sock a = CONNECTING)) ->
  Mirror s'.
Proof.
  intros [H1 H2 H3] Es Ew Er Ef Hf.
  constructor; rewrite ?Es, ?Ew, ?Er, ?Ef; [| |exact H3].
  - intros j a Hl Ho. destruct (decide (k = j)) as [->|Hne].
    + rewrite list_lookup_alter_eq in Hl.
      destruct (sockets s !! j) as [b|] eqn:Hb; simpl in Hl; [|discriminate].
      injection Hl as <-. apply (Hf b eq_refl). exact Ho.
    + rewrite list_lookup_alter_ne in Hl by exact Hne. exact (H1 j a Hl Ho).
  - intros j a Hw Hl. destruct (decide (k = j)) as [->|Hne].
    + rewrite list_lookup_alter_eq in Hl.
      destruct (sockets s !! j) as [b|] eqn:Hb; simpl in Hl; [|discriminate].
      injection Hl as <-. specialize (H2 j b Hw Hb).
      destruct (Hf b eq_refl) as (F1 & F2).
      destruct (sock (f b)) eqn:Hfb.
      * rewrite (F2 eq_refl) in H2. exact H2.
      * destruct (F1 eq_refl) as [Hob _]. rewrite Hob in H2. exact H2.
      * destruct (sock b); auto.
      * destruct (sock b); auto.
    + rewrite list_lookup_alter_ne in Hl by exact Hne. exact (H2 j a Hw Hl).
Qed.

Lemma Mirror_sock_close s k : Mirror s -> Mirror (sock_close k s).
Proof.
  intros HM. unfold sock_close.
  destruct (sock_state k s) eqn:Hk; try exact HM;
    (eapply Mirror_alter; [exact HM|reflexivity..|];
     intros a Ha; simpl; split; discriminate).
Qed.

Lemma Mirror_clearTimeout s k : Mirror s -> Mirror (clearTimeout k s).
Proof.
  intros HM. eapply Mirror_alter; [exact HM|reflexivity..|].
  intros a Ha. simpl. auto.
Qed.

Lemma Mirror_ReconnectingWebSocket u p : Mirror (ReconnectingWebSocket u p).
Proof.
  constructor; simpl.
  - intros [|i] a Hl Ho; simpl in Hl; [|discriminate].
    injection Hl as <-. discriminate Ho.
  - intros i a Hi Hl. injection Hi as <-. simpl in Hl. injection Hl as <-.
    reflexivity.
  - discriminate.
Qed.

Lemma Mirror_connect s v :
  Mirror s -> Mirror (connect v s).
Proof.
  intros [H1 H2 H3]. unfold connect. constructor; simpl.
  - intros j a Hl Ho. apply lookup_app_Some in Hl as [Hl|[Hge Hl]]; [eauto|].
    destruct (j - length (sockets s)) as [|k]; simpl in Hl; [|discriminate].
    injection Hl as <-. discriminate Ho.
  - intros j a Hj Hl. injection Hj as <-.
    rewrite list_lookup_middle in Hl by reflexivity. injection Hl as <-. simpl.
    unfold sock_state. simpl. rewrite list_lookup_middle by reflexivity.
    reflexivity.
  - discriminate.
Qed.

Lemma Mirror_after s e : Inv s -> Mirror s -> Mirror (after s e).
Proof.
  intros HI HM. unfold after.
  destruct e as [i ev|i ev|i ev|i ev|i|u| |data| | |cb h|f v]; simpl.
  - destruct (sockets s !! i) as [a|] eqn:Ha; simpl; [|exact HM].
    destruct (sock a) eqn:Hs; try exact HM.
    assert (Hws : ws s = Some i)
      by (apply (live_socket_is_ws s i a); [exact HI|exact Ha|congruence]).
    rewrite ws_onopen_live by exact Hws. simpl.
    destruct HM as [H1 H2 H3]. constructor; simpl.
    + intros j b Hl Ho. destruct (decide (i = j)) as [->|Hne].
      * rewrite !list_lookup_alter_eq, Ha in Hl. injection Hl as <-. reflexivity.
      * rewrite !list_lookup_alter_ne in Hl by exact Hne. eauto.
    + intros j b Hj Hl. rewrite Hws in Hj. injection Hj as <-.
      rewrite !list_lookup_alter_eq, Ha in Hl. injection Hl as <-. simpl.
      unfold sock_state. simpl. rewrite list_lookup_alter_eq, Ha. reflexivity.
    + rewrite Hws. discriminate.
  - destruct (sockets s !! i) as [a|] eqn:Ha; simpl; [|exact HM].
    assert (Hcl : sock a = CLOSED \/ sock a <> CLOSED)
      by (destruct (sock a); auto; right; congruence).
    destruct Hcl as [Hcl|Hcl]; [rewrite Hcl; exact HM|].
    assert (Hws : ws s = Some i) by (apply (live_socket_is_ws s i a); auto).
    assert (Hstep : (match sock a with
                     | CLOSED => None
                     | _ => Some (ws_onclose i ev (set_sock i CLOSED s))
                     end) = Some (ws_onclose i ev (set_sock i CLOSED s)))
      by (destruct (sock a); congruence).
    rewrite Hstep. unfold ws_onclose. simpl. rewrite Hws.
    destruct HM as [H1 H2 H3].
    assert (Hun : forall j b,
               alter (fun a0 => mkAttempt (sock a0) (reconnectAttempt a0) None) i
                 (alter (fun a0 => mkAttempt CLOSED (reconnectAttempt a0) (timeout a0))
                    i (sockets s)) !! j = Some b ->
               sock b = OPEN -> timeout b = None).
    { intros j b Hl Ho. destruct (decide (i = j)) as [->|Hne].
      - rewrite !list_lookup_alter_eq, Ha in Hl. injection Hl as <-. reflexivity.
      - rewrite !list_lookup_alter_ne in Hl by exact Hne. eauto. }
    destruct (forcedClose s) eqn:Hf; [|destruct (negb _)];
      (constructor; simpl; [exact Hun|discriminate|]); intros _; rewrite ?Hf;
      try reflexivity.
    unfold sock_state. simpl. rewrite list_lookup_alter_eq, Ha. reflexivity.
  - destruct (sockets s !! i) as [a|]; simpl; [|exact HM].
    destruct (sock a); try exact HM; simpl;
      (eapply Mirror_frame; [..|exact HM]; reflexivity).
  - destruct (sockets s !! i) as [a|]; simpl; [|exact HM].
    destruct (sock a); try exact HM; simpl;
      (eapply Mirror_frame; [..|exact HM]; reflexivity).
  - destruct (sockets s !! i) as [a|] eqn:Ha; simpl; [|exact HM].
    destruct (timeout a) as [d|] eqn:Hd; simpl; [|exact HM].
    unfold timeout_cb.
    eapply Mirror_frame;
      [..|apply (Mirror_sock_close (set_timedOut true (clearTimeout i s)) i);
          eapply Mirror_frame; [..|apply (Mirror_clearTimeout s i HM)];
          reflexivity]; reflexivity.
  - destruct (retry_timers s) as [|d rest] eqn:Hr; simpl; [exact HM|].
    unfold retry_cb.
    eapply Mirror_frame;
      [..|apply (Mirror_connect (set_retry_timers rest s) (JBool true));
          eapply Mirror_frame; [..|exact HM]; reflexivity]; reflexivity.
  - destruct (deferred s) as [|t rest]; simpl; [exact HM|].
    destruct t; simpl; (eapply Mirror_frame; [..|exact HM]; reflexivity).
  - unfold send. destruct (ws s) as [j|]; simpl; [|exact HM].
    unfold sock_send. destruct (sock_state j s); simpl; try exact HM.
    eapply Mirror_frame; [..|exact HM]; reflexivity.
  - unfold close. destruct (ws s) as [j|] eqn:Hj; simpl; [|exact HM].
    apply Mirror_sock_close. destruct HM as [H1 H2 H3].
    constructor; simpl; [exact H1|exact H2|rewrite Hj; discriminate].
  - unfold refresh. destruct (ws s) as [j|] eqn:Hj; simpl; [|exact HM].
    apply Mirror_sock_close; assumption.
  - eapply Mirror_frame; [..|exact HM]; reflexivity.
  - destruct f; simpl; (eapply Mirror_frame; [..|exact HM]; reflexivity).
Qed.

Lemma Mirror_reachable u p es :
  Mirror (run (ReconnectingWebSocket u p) es).
Proof.
  assert (H : Inv (run (ReconnectingWebSocket u p) es)
              /\ Mirror (run (ReconnectingWebSocket u p) es)).
  { apply (run_invariant (fun s => Inv s /\ Mirror s)).
    - intros s e [HI HM]. split; [apply Inv_after|apply Mirror_after]; assumption.
    - split; [apply Inv_ReconnectingWebSocket|apply Mirror_ReconnectingWebSocket]. }
  exact (proj2 H).
Qed.

(** X2. In a reachable instance a socket that has opened has no connect
    timeout armed, so the timeout can never close an established
    connection. *)
Theorem open_socket_never_times_out url p es i a :
  let s := run (ReconnectingWebSocket url p) es in
  sockets s !! i = Some a -> sock a = OPEN ->
  timeout a = None /\ step s (TimeoutFire i) = None.
Proof.
  intros s Ha Hs.
  pose proof (mirror_untimed s (Mirror_reachable url p es) i a Ha Hs) as Ht.
  split; [exact Ht|]. simpl. rewrite Ha. simpl. rewrite Ht. reflexivity.
Qed.

Lemma open_socket_never_times_out_witness :
  let s := run (ReconnectingWebSocket "ws://h" None) [WsOpen 0 (JEvent "o")] in
  timeout (mkAttempt OPEN (JBool false) None) = None
  /\ step s (TimeoutFire 0) = None.
Proof.
  assert (Ha : sockets (run (ReconnectingWebSocket "ws://h" None)
                          [WsOpen 0 (JEvent "o")]) !! 0
               = Some (mkAttempt OPEN (JBool false) None))
    by (vm_compute; reflexivity).
  pose proof (open_socket_never_times_out "ws://h" None [WsOpen 0 (JEvent "o")]
                0 _ Ha eq_refl) as H.
  cbv zeta in H. cbv zeta. exact H.
Defined.

(** X9. The [readyState] of a reachable instance is never CLOSING.  With no
    socket it is CONNECTING during a pause and CLOSED after a forced close;
    with a socket it is CONNECTING or OPEN, CONNECTING while the socket is
    connecting and OPEN while it is open. *)
Theorem readyState_follows_socket url p es :
  let s := run (ReconnectingWebSocket url p) es in
  readyState s <> CLOSING
  /\ (ws s = None ->
      readyState s = if forcedClose s then CLOSED else CONNECTING)
  /\ (forall i a,
         ws s = Some i -> sockets s !! i = Some a ->
         (sock a = CONNECTING -> readyState s = CONNECTING)
         /\ (sock a = OPEN -> readyState s = OPEN)
         /\ (readyState s = CONNECTING \/ readyState s = OPEN)).
Proof.
  intros s. pose proof (Mirror_reachable url p es) as HM. fold s in HM.
  pose proof (Inv_reachable url p es) as HI. fold s in HI.
  assert (Hlive : forall i a,
             ws s = Some i -> sockets s !! i = Some a ->
             (sock a = CONNECTING -> readyState s = CONNECTING)
             /\ (sock a = OPEN -> readyState s = OPEN)
             /\ (readyState s = CONNECTING \/ readyState s = OPEN)).
  { intros i a Hi Ha. pose proof (mirror_live s HM i a Hi Ha) as H.
    destruct (sock a); repeat split; intros; auto; discriminate. }
  split; [|split; [apply (mirror_pause s HM)|exact Hlive]].
  assert (Hcase : (exists i, ws s = Some i) \/ ws s = None)
    by (destruct (ws s) as [i|]; eauto).
  destruct Hcase as [[i Hi]|Hi].
  - destruct (live_socket_lookup s i HI Hi) as (a & Ha & _).
    destruct (Hlive i a Hi Ha) as (_ & _ & [E|E]); rewrite E; discriminate.
  - rewrite (mirror_pause s HM Hi). destruct (forcedClose s); discriminate.
Qed.

Lemma readyState_follows_socket_witness :
  let s := run (ReconnectingWebSocket "ws://h" None)
             [WsOpen 0 (JEvent "o"); CallClose; WsClose 0 (JEvent "c")] in
  readyState s = if forcedClose s then CLOSED else CONNECTING.
Proof.
  assert (Hws : ws (run (ReconnectingWebSocket "ws://h" None)
                      [WsOpen 0 (JEvent "o"); CallClose; WsClose 0 (JEvent "c")])
                = None)
    by (vm_compute; reflexivity).
  pose proof (proj1 (proj2 (readyState_follows_socket "ws://h" None
                              [WsOpen 0 (JEvent "o"); CallClose;
                               WsClose 0 (JEvent "c")])) Hws) as H.
  cbv zeta. exact H.
Defined.

(** X10. Between [refresh()] or [close()] on an open socket of a reachable
    instance and the socket's close event, [readyState] still reads OPEN and
    [send] is still forwarded to the socket, which is closing and drops the
    payload: the call returns normally and nothing goes out. *)
Theorem send_while_closing_is_dropped url p es i a e data :
  let s := run (ReconnectingWebSocket url p) es in
  sockets s !! i = Some a -> sock a = OPEN ->
  e = CallRefresh \/ e = CallClose ->
  let s1 := after s e in
  readyState s1 = OPEN /\ ws s1 = Some i /\ sock_state i s1 = CLOSING
  /\ send data s1 = Return JUndefined s1
  /\ wire (after s1 (CallSend data)) = wire s.
Proof.
  intros s Ha Hs He s1.
  assert (Hne : sock a <> CLOSED) by congruence.
  pose proof (reachable_live url p es i a Ha Hne) as Hws. fold s in Hws.
  pose proof (Mirror_reachable url p es) as HM. fold s in HM.
  pose proof (mirror_live s HM i a Hws Ha) as Hrs. rewrite Hs in Hrs.
  assert (Hst : sock_state i s = OPEN)
    by (rewrite (sock_state_lookup s i a Ha); exact Hs).
  assert (H : readyState s1 = OPEN /\ ws s1 = Some i /\ sock_state i s1 = CLOSING
              /\ wire s1 = wire s).
  { unfold s1, after. destruct He as [-> | ->]; simpl;
      unfold refresh, close, sock_close; rewrite Hws;
      change (sock_state i (set_forcedClose true s)) with (sock_state i s);
      rewrite Hst; simpl; unfold sock_state; simpl;
      rewrite list_lookup_alter_eq, Ha; auto. }
  destruct H as (H1 & H2 & H3 & H4).
  assert (Hsend : send data s1 = Return JUndefined s1)
    by (unfold send, sock_send; rewrite H2, H3; reflexivity).
  refine (conj H1 (conj H2 (conj H3 (conj Hsend _)))).
  unfold after. simpl. rewrite Hsend. exact H4.
Qed.

Lemma send_while_closing_is_dropped_witness :
  let s := run (ReconnectingWebSocket "ws://h" None) [WsOpen 0 (JEvent "o")] in
  let s1 := after s CallRefresh in
  readyState s1 = OPEN /\ ws s1 = Some 0 /\ sock_state 0 s1 = CLOSING
  /\ send "hi" s1 = Return JUndefined s1
  /\ wire (after s1 (CallSend "hi")) = wire s.
Proof.
  assert (Ha : sockets (run (ReconnectingWebSocket "ws://h" None)
                          [WsOpen 0 (JEvent "o")]) !! 0
               = Some (mkAttempt OPEN (JBool false) None))
    by (vm_compute; reflexivity).
  pose proof (send_while_closing_is_dropped "ws://h" None [WsOpen 0 (JEvent "o")]
                0 _ CallRefresh "hi" Ha eq_refl (or_introl eq_refl)) as H.
  cbv zeta in H. cbv zeta. exact H.
Defined.

(** ** The delay of each pause *)

Lemma in_session_after i T0 s e :
  in_session i T0 s -> keeps_session e = true -> in_session i T0 (after s e).
Proof.
  intros (HI & Hws & Hf & Hr & Hi) Hq. split; [apply Inv_after; exact HI|].
  destruct e as [j ev|j ev|j ev|j ev|j|u| |data| | |cb h|f v];
    try discriminate Hq.
  - handler_cases; simpl; repeat split; congruence.
  - handler_cases; simpl; repeat split; congruence.
  - handler_cases; simpl; repeat split; congruence.
  - handler_cases; simpl; repeat split; congruence.
  - unfold after. simpl. rewrite (inv_retry_live s HI i Hws). auto.
  - handler_cases; simpl; repeat split; congruence.
  - handler_cases; simpl; repeat split; congruence.
  - handler_cases; simpl; repeat split; congruence.
  - handler_cases; simpl; repeat split; congruence.
Qed.

Lemma in_session_run i T0 es :
  forall s,
    in_session i T0 s -> forallb keeps_session es = true ->
    in_session i T0 (run s es).
Proof.
  induction es as [|e es IH]; intros s Hs Hq; simpl; [exact Hs|].
  simpl in Hq. apply andb_true_iff in Hq as [He Hq].
  apply IH; [|exact Hq]. apply in_session_after; assumption.
Qed.

(** X14. When a socket that had opened closes, with no tunable written and
    [close()] not called since it opened, the pause that follows lasts
    exactly [initialReconnectInterval], whatever happened before the open
    and in between: no random draw enters it.  The value a failed cycle
    computes is the delay of the pause after the next close. *)
Theorem pause_delays :
  (forall url p es i a ev1 es' ev2,
      let s := run (ReconnectingWebSocket url p) es in
      sockets s !! i = Some a -> sock a = CONNECTING -> forcedClose s = false ->
      forallb keeps_session es' = true ->
      let s2 := run s (WsOpen i ev1 :: es' ++ [WsClose i ev2]) in
      retry_timers s2 = [initialReconnectInterval s])
  /\ (forall url p es u ev,
         let s := run (ReconnectingWebSocket url p) es in
         ws s <> None -> forcedClose s = false ->
         let s1 := failed_cycle u s in
         let s2 := after s1 (WsClose (length (sockets s)) ev) in
         retry_timers s2
         = [Math_min
              (mul (mul (add u (Fin 1)) (initialReconnectInterval s))
                 (Math_pow (Fin 2) (retries s)))
              (maxReconnectInterval s)]).
Proof.
  split.
  - intros url0 p es i a ev1 es' ev2 s Ha Hs Hf Hq s2.
    assert (Hne : sock a <> CLOSED) by congruence.
    pose proof (reachable_live url0 p es i a Ha Hne) as Hws. fold s in Hws.
    pose proof (Inv_reachable url0 p es) as HI. fold s in HI.
    assert (H1 : in_session i (initialReconnectInterval s) (after s (WsOpen i ev1))).
    { split; [apply Inv_after; exact HI|].
      rewrite (after_WsOpen s i a ev1 Ha Hs).
      rewrite ws_onopen_live by exact Hws. simpl. auto. }
    pose proof (in_session_run i _ es' _ H1 Hq) as (HI2 & Hws2 & Hf2 & Hri2 & _).
    destruct (unplanned_close_state _ i ev2 HI2 Hws2 Hf2) as (_ & _ & _ & K4 & _).
    unfold s2. simpl. rewrite run_snoc, K4, Hri2. reflexivity.
  - intros url0 p es u ev s Hws Hf s1 s2.
    pose proof (Inv_reachable url0 p es) as HI. fold s in HI.
    destruct (ws s) as [i|] eqn:Hi; [|congruence].
    destruct (failed_cycle_spec s i u HI Hi Hf) as (E1 & _ & _ & _ & E5 & E6 & E7).
    fold s1 in E1, E5, E6, E7.
    destruct (unplanned_close_state s1 _ ev E7 E5 E6) as (_ & _ & _ & K4 & _).
    fold s2 in K4. rewrite K4, E1. reflexivity.
Qed.

Lemma pause_delays_witness :
  let s := run (ReconnectingWebSocket "ws://h" None) [] in
  retry_timers
    (run s (WsOpen 0 (JEvent "o")
              :: [HostTick; WsMessage 0 (JEvent "m"); CallRefresh]
              ++ [WsClose 0 (JEvent "c")]))
  = [initialReconnectInterval s].
Proof.
  assert (Ha : sockets (run (ReconnectingWebSocket "ws://h" None) []) !! 0
               = Some (mkAttempt CONNECTING (JStr "ws://h") (Some (Fin 2000))))
    by (vm_compute; reflexivity).
  assert (Hf : forcedClose (run (ReconnectingWebSocket "ws://h" None) []) = false)
    by (vm_compute; reflexivity).
  assert (Hq : forallb keeps_session
                 [HostTick; WsMessage 0 (JEvent "m"); CallRefresh] = true)
    by (vm_compute; reflexivity).
  pose proof (proj1 pause_delays "ws://h" None [] 0 _ (JEvent "o")
                [HostTick; WsMessage 0 (JEvent "m"); CallRefresh] (JEvent "c")
                Ha eq_refl Hf Hq) as H.
  cbv zeta in H. cbv zeta. exact H.
Defined.

(** ** Exceptions *)

(** X15. In a reachable instance the only call that can throw is [send], and
    it throws only with no socket or with a socket still connecting; the
    instance is then exactly as before the call.  No event of a socket, of a
    timer or of the host's queue makes a handler throw. *)
Theorem only_send_throws url p es e err s' :
  let s := run (ReconnectingWebSocket url p) es in
  step s e = Some (Throw err s') ->
  (exists data, e = CallSend data)
  /\ s' = s
  /\ (ws s = None \/ exists j, ws s = Some j /\ sock_state j s = CONNECTING).
Proof.
  intros s H.
  pose proof (Inv_reachable url p es) as HI. fold s in HI.
  destruct (lifecycle e) eqn:Hl.
  { exfalso. exact (lifecycle_never_throws s e err s' HI Hl H). }
  destruct e as [i ev|i ev|i ev|i ev|i|u| |data| | |cb h|f v];
    try discriminate Hl; simpl in H; try discriminate H.
  injection H as H. unfold send in H.
  destruct (ws s) as [j|] eqn:Hj.
  - unfold sock_send in H. destruct (sock_state j s) eqn:Hs; try discriminate H.
    injection H as _ <-. split; [eauto|]. split; [reflexivity|]. right. eauto.
  - injection H as _ <-. split; [eauto|]. auto.
Qed.

Lemma only_send_throws_witness :
  let s := run (ReconnectingWebSocket "ws://h" None) [] in
  (exists data, CallSend "hi" = CallSend data)
  /\ s = s
  /\ (ws s = None \/ exists j, ws s = Some j /\ sock_state j s = CONNECTING).
Proof.
  assert (H0 : step (run (ReconnectingWebSocket "ws://h" None) []) (CallSend "hi")
               = Some (Throw InvalidStateError
                         (run (ReconnectingWebSocket "ws://h" None) [])))
    by (vm_compute; reflexivity).
  pose proof (only_send_throws "ws://h" None [] (CallSend "hi") InvalidStateError
                _ H0) as H.
  cbv zeta in H. cbv zeta. exact H.
Defined.
